(** * Detection post-processing core of mqtt-msg

    Shallow embedding of
      - [examples/self_valid.py]: letterbox pre-processing, host-side
        decoding of the raw detector output, top-K selection,
        un-letterboxing, confidence filter and the NMS call;
      - [examples/inject_postprocess.py]: the in-place rewrite of an ONNX
        graph that appends Transpose / Slice / Mul / Max / Round / Concat
        nodes;
      - [tools/analyze_onnx.py] and [tools/inspect_cnn_model.py]: what the
        two inspection tools read off a graph;
      - [tools/export_yolo_to_onnx.py] and [tools/export_cnn_to_onnx.py]:
        [parse_shape], the parser of the shape argument.

    Numbers.  The scripts compute on IEEE floats (Python [float] and
    NumPy [float32]).  They are modelled by exact rationals [Q]: every
    arithmetic operation is the mathematical one, and NaN, infinities and
    rounding error are outside the model.  Integers are [Z].  The letterbox
    parameters, which Python computes on binary64 floats, are also run on
    the kernel's binary64 numbers ([Letterbox.Binary64]). *)

From Stdlib Require Import ZArith QArith Qround Qabs Qminmax Lia Lqa Bool Floats Uint63.
From stdpp Require Import base list strings gmap sorting.
From Equations Require Import Equations.

Local Open Scope Z_scope.

(** ** Rounding and truncation *)

Module Num.

(** Python's [round(x)] on a float, NumPy's [np.rint] and ONNX [Round] all
    round to the nearest integer, ties going to the even one. *)
Definition round_half_even (q : Q) : Z :=
  let f := Qfloor q in
  let r := (q - inject_Z f)%Q in
  match (r ?= 1 # 2)%Q with
  | Lt => f
  | Gt => f + 1
  | Eq => if Z.even f then f else f + 1
  end.

(** Python's [int(x)] on a float: truncation toward zero. *)
Definition trunc (q : Q) : Z := Z.quot (Qnum q) (Zpos (Qden q)).

(** [np.clip(a, lo, hi)] is [minimum(maximum(a, lo), hi)]. *)
Definition clip (a lo hi : Q) : Q := Qmin (Qmax a lo) hi.

(** [x.astype(np.int32)] on an integral float: the value itself inside the
    int32 range; outside it the x86 conversion yields the "integer
    indefinite" value [-2^31]. *)
Definition astype_int32 (z : Z) : Z :=
  if (-2147483648 <=? z) && (z <=? 2147483647) then z else -2147483648.

(** Boolean comparisons of rationals, as the scripts' [>=] and [<]. *)
Definition geb (a b : Q) : bool := Qle_bool b a.
Definition gtb (a b : Q) : bool := negb (Qle_bool a b).

End Num.

(** ** LetterboxMapper ([self_valid.py], lines 11-14 and 50-53) *)

Module Letterbox.

Record LetterboxTransform := mkLetterbox {
  scale : Q;        (* r *)
  pad_x : Z;        (* padx *)
  pad_y : Z;        (* pady *)
  orig_w : Z;       (* w0 *)
  orig_h : Z;       (* h0 *)
  new_w : Z;        (* nw *)
  new_h : Z         (* nh *)
}.

(** Lines 12-14:
      r = min(imgsz / w0, imgsz / h0)
      nw, nh = int(round(w0 * r)), int(round(h0 * r))
      padx, pady = (imgsz - nw) // 2, (imgsz - nh) // 2
    [/] is true division and [//] floor division ([Z.div] with the
    positive divisor 2).  An image that was read has [w0, h0 >= 1]; Python
    raises ZeroDivisionError otherwise. *)
Definition compute (w0 h0 imgsz : Z) : LetterboxTransform :=
  let r := Qmin (inject_Z imgsz / inject_Z w0) (inject_Z imgsz / inject_Z h0) in
  let nw := Num.round_half_even (inject_Z w0 * r) in
  let nh := Num.round_half_even (inject_Z h0 * r) in
  {| scale := r;
     pad_x := (imgsz - nw) / 2;
     pad_y := (imgsz - nh) / 2;
     orig_w := w0; orig_h := h0;
     new_w := nw; new_h := nh |}.

(** The transforms the decoder may be handed: a positive scale,
    non-negative paddings and a non-empty original image. *)
Definition valid (t : LetterboxTransform) : Prop :=
  (0 < scale t)%Q /\ 0 <= pad_x t /\ 0 <= pad_y t /\ 1 <= orig_w t /\ 1 <= orig_h t.

(** Modelled from the spec: the forward point map [to_inference_space] is
    not written out in the repository (the script only resizes and pastes
    the image, lines 15-17).  Spec 4.3 and the resize-then-paste give
    [x * scale + pad_x], [y * scale + pad_y]. *)
Definition to_inference_space (t : LetterboxTransform) (p : Q * Q) : Q * Q :=
  (fst p * scale t + inject_Z (pad_x t), snd p * scale t + inject_Z (pad_y t))%Q.

(** Lines 50-53, for one coordinate pair:
      boxes[:, [0,2]] = (boxes[:, [0,2]] - padx) / r
      boxes[:, [1,3]] = (boxes[:, [1,3]] - pady) / r
      boxes[:, 0::2] = np.clip(boxes[:, 0::2], 0, w0-1)
      boxes[:, 1::2] = np.clip(boxes[:, 1::2], 0, h0-1) *)
Definition unletterbox_x (t : LetterboxTransform) (x : Q) : Q :=
  Num.clip ((x - inject_Z (pad_x t)) / scale t) 0 (inject_Z (orig_w t - 1)).

Definition unletterbox_y (t : LetterboxTransform) (y : Q) : Q :=
  Num.clip ((y - inject_Z (pad_y t)) / scale t) 0 (inject_Z (orig_h t - 1)).

Definition to_original_space (t : LetterboxTransform) (q : Q * Q) : Q * Q :=
  (unletterbox_x t (fst q), unletterbox_y t (snd q)).

(** Python evaluates lines 12-14 on binary64 floats.  The same lines on the
    kernel's binary64 numbers, for image and canvas sizes below [2^53]
    (which convert to floats exactly). *)
Module Binary64.

(** [float(n)] for [0 <= n < 2^53]. *)
Definition of_int (n : Z) : float := PrimFloat.of_uint63 (Uint63.of_Z n).

(** The rational a finite float denotes. *)
Definition to_Q (f : float) : Q :=
  match Prim2SF f with
  | S754_finite s m e =>
      let mz := if s then Z.neg m else Z.pos m in
      if 0 <=? e then inject_Z (mz * 2 ^ e) else Qmake mz (2 ^ Z.to_pos (- e))
  | _ => 0%Q
  end.

(** [min(a, b)]: [b] when [b < a], else [a]. *)
Definition py_min (a b : float) : float := if PrimFloat.ltb b a then b else a.

(** [int(round(x))] for a finite [x]: the nearest integer, ties to even. *)
Definition py_round (x : float) : Z := Num.round_half_even (to_Q x).

(** [(r, nw, nh, padx, pady)] *)
Definition compute (w0 h0 imgsz : Z) : float * Z * Z * Z * Z :=
  let r := py_min (PrimFloat.div (of_int imgsz) (of_int w0))
                  (PrimFloat.div (of_int imgsz) (of_int h0)) in
  let nw := py_round (PrimFloat.mul (of_int w0) r) in
  let nh := py_round (PrimFloat.mul (of_int h0) r) in
  (r, nw, nh, (imgsz - nw) / 2, (imgsz - nh) / 2).

End Binary64.

End Letterbox.

(** ** Python results: a value or a raised exception *)

Module Py.

Inductive exn := IndexError | ValueError | ValidationError | RuntimeError.

Inductive result (A : Type) : Type :=
| Ok (a : A)
| Raise (e : exn).
Arguments Ok {A} a.
Arguments Raise {A} e.

#[global] Instance result_ret : MRet result := fun A a => Ok a.
#[global] Instance result_bind : MBind result :=
  fun A B f m => match m with Ok a => f a | Raise e => Raise e end.
#[global] Instance result_fmap : FMap result :=
  fun A B f m => match m with Ok a => Ok (f a) | Raise e => Raise e end.

(** [l[i]] for a non-negative index. *)
Definition getitem {A} (l : list A) (i : nat) : result A :=
  match l !! i with
  | Some a => Ok a
  | None => Raise IndexError
  end.

(** [a[idx]] for an integer index array. *)
Definition gather {A} (l : list A) (idx : list nat) : result (list A) :=
  mapM (getitem l) idx.

(** [a[mask]] for a boolean mask, which must have the length of [a]. *)
Fixpoint select {A} (mask : list bool) (l : list A) : list A :=
  match mask, l with
  | m :: mask', x :: l' => if m then x :: select mask' l' else select mask' l'
  | _, _ => []
  end.

Definition compress {A} (mask : list bool) (l : list A) : result (list A) :=
  if Nat.eqb (length mask) (length l) then Ok (select mask l) else Raise IndexError.

End Py.

(** ** Rank-3 arrays *)

Module Nd.

(** A rank-3 array is the list of its axis-0 entries, each the list of its
    rows; arrays are rectangular, and extents are read off the first
    entries. *)
Definition ndarray2 := list (list Q).
Definition ndarray3 := list ndarray2.

Definition shape (y : ndarray3) : nat * nat * nat :=
  (length y, length (hd [] y), length (hd [] (hd [] y))).

Definition transpose2 (m : ndarray2) : ndarray2 :=
  (fun j => (fun row => nth j row 0%Q) <$> m) <$> seq 0 (length (hd [] m)).

(** [np.transpose(y, (0,2,1))], ONNX [Transpose] with [perm=[0,2,1]]. *)
Definition transpose021 (y : ndarray3) : ndarray3 := transpose2 <$> y.

End Nd.

(** ** Non-maximum suppression *)

Module NMS.

(** An OpenCV [Rect]: [(x, y, width, height)] in integers. *)
Definition Rect : Type := Z * Z * Z * Z.

Definition area (r : Rect) : Z := let '(_, _, w, h) := r in w * h.

Definition inter_area (a b : Rect) : Z :=
  let '(ax, ay, aw, ah) := a in
  let '(bx, by_, bw, bh) := b in
  let iw := Z.min (ax + aw) (bx + bw) - Z.max ax bx in
  let ih := Z.min (ay + ah) (by_ + bh) - Z.max ay by_ in
  if (0 <? iw) && (0 <? ih) then iw * ih else 0.

Definition rect_eqb (a b : Rect) : bool :=
  let '(ax, ay, aw, ah) := a in
  let '(bx, by_, bw, bh) := b in
  (ax =? bx) && (ay =? by_) && (aw =? bw) && (ah =? bh).

(** Modelled from the spec: intersection over union of two axis-aligned
    boxes (glossary), where a box of zero or negative area is degenerate
    and "IoU against them is 0 unless exactly coincident" (spec 4.2,
    step 7). *)
Definition iou (a b : Rect) : Q :=
  if rect_eqb a b then 1%Q
  else if (area a <=? 0) || (area b <=? 0) then 0%Q
  else (inject_Z (inter_area a b) / inject_Z (area a + area b - inter_area a b))%Q.

Section Greedy.

Context {C : Type} (rect_of : C -> Rect) (score_of : C -> Q).

(** The highest-scoring candidate, the first one among equals, and the
    remaining candidates in their order. *)
Fixpoint extract_max (l : list C) : option (C * list C) :=
  match l with
  | [] => None
  | x :: xs =>
      match extract_max xs with
      | None => Some (x, [])
      | Some (m, rest) =>
          if Num.gtb (score_of m) (score_of x) then Some (m, x :: rest)
          else Some (x, xs)
      end
  end.

(** [suppressed thr m c]: candidate [c] is removed once [m] is emitted. *)
Definition suppressed (thr : Q) (m c : C) : bool :=
  Num.geb (iou (rect_of m) (rect_of c)) thr.

Definition survivors (thr : Q) (m : C) (rest : list C) : list C :=
  List.filter (fun c => negb (suppressed thr m c)) rest.

(** A value together with the equation that it is the value of [x]. *)
Definition inspect {A : Type} (x : A) : { y : A | x = y } := exist _ x eq_refl.

(** Modelled from the spec: [cv2.dnn.NMSBoxes] belongs to OpenCV, not to the
    repository.  Spec 4.2, step 7: "repeatedly take the highest-scoring
    remaining box, emit it, remove all others with IoU >= iou_thres against
    it, until none remain". *)
Equations? nms (thr : Q) (l : list C) : list C by wf (length l) lt :=
  nms thr l with inspect (extract_max l) := {
    | exist _ None _ => [];
    | exist _ (Some (m, rest)) E => m :: nms thr (survivors thr m rest) }.
Proof.
  assert (Hlen : forall xs b r, extract_max xs = Some (b, r) -> length xs = S (length r)).
  { clear. induction xs as [|x xs IH]; intros b r; simpl; [discriminate|].
    destruct (extract_max xs) as [[m' rest']|] eqn:E.
    - specialize (IH _ _ eq_refl).
      destruct (Num.gtb _ _); intros [= <- <-]; simpl; congruence.
    - destruct xs as [|x' xs]; [intros [= <- <-]; reflexivity|].
      simpl in E. destruct (extract_max xs) as [[? ?]|];
        [destruct (Num.gtb _ _)|]; discriminate. }
  apply Hlen in E. unfold survivors.
  pose proof (List.filter_length_le (fun c => negb (suppressed thr m c)) rest). lia.
Qed.

End Greedy.

(** Modelled from the spec: the call
    [cv2.dnn.NMSBoxes(rects, scores, score_threshold, nms_threshold)]
    returns the indices of the kept boxes.  The score threshold re-applies
    the confidence filter of spec 4.2, step 6 ("drop candidates with
    score < conf_thres"); the suppression is [nms]. *)
Definition NMSBoxes (rects : list Rect) (scores : list Q)
    (score_threshold nms_threshold : Q) : list nat :=
  let cands := zip (seq 0 (length rects)) (zip rects scores) in
  let cands := List.filter (fun c => Num.geb (snd (snd c)) score_threshold) cands in
  fst <$> nms (fun c => fst (snd c)) (fun c => snd (snd c)) nms_threshold cands.

End NMS.

(** ** Host-side decoder ([self_valid.py], lines 26-77) *)

Module SelfValid.

Import Py Nd.

(** The script's constants. *)
Definition imgsz : Z := 1280.
Definition K : nat := 200.
Definition conf_thres : Q := 25 # 100.
Definition iou_thres : Q := 45 # 100.

(** Lines 27-29:
      if y.shape[1] == 7: y = np.transpose(y, (0,2,1))
      y = y[0] *)
Definition normalise (y : ndarray3) : result ndarray2 :=
  let y := if Nat.eqb (snd (fst (shape y))) 7 then transpose021 y else y in
  getitem y 0.

(** [y[:, i]].  A list of rows stands for the [N, C] array whose [C] is the
    length of the rows.  The lists do not record [C] when [N = 0]: the
    empty list stands for the empty array of seven channels, which is what
    both layouts of the decoder's input ([1,7,0] once transposed, and
    [1,0,7]) normalise to.  An empty tensor with fewer than seven channels,
    on which line 32 raises IndexError, has no representation here. *)
Definition column (y : ndarray2) (i : nat) : result (list Q) :=
  mapM (fun row => getitem row i) y.

Record Columns := mkColumns {
  x1 : list Q; y1 : list Q; x2 : list Q; y2 : list Q;
  f4 : list Q; f5 : list Q; f6 : list Q
}.

(** Line 32: [x1, y1, x2, y2, f4, f5, f6 = [y[:,i] for i in range(7)]] *)
Definition split_columns (y : ndarray2) : result Columns :=
  c0 ← column y 0; c1 ← column y 1; c2 ← column y 2; c3 ← column y 3;
  c4 ← column y 4; c5 ← column y 5; c6 ← column y 6;
  mret (mkColumns c0 c1 c2 c3 c4 c5 c6).

(** Line 33: [cls_id = np.rint(f5).astype(np.int32)] *)
Definition class_ids (c : Columns) : list Z :=
  (fun v => Num.astype_int32 (Num.round_half_even v)) <$> f5 c.

(** Lines 36-38: [conf = np.maximum(f4 * f6, f4)], in exact arithmetic; the
    script rounds the product to float32, the maximum itself is exact. *)
Definition fuse (a b : Q) : Q := Qmax (a * b) a.
Definition confidences (c : Columns) : list Q := zip_with fuse (f4 c) (f6 c).

(** Indices that order [a] ascending, equal keys keeping their index order. *)
Definition insert_by (a : list Q) (i : nat) : list nat -> list nat :=
  fix ins (l : list nat) : list nat :=
    match l with
    | [] => [i]
    | j :: l' =>
        if Num.gtb (nth i a 0%Q) (nth j a 0%Q) then j :: ins l' else i :: j :: l'
    end.

(** [np.argsort(a)].  NumPy leaves the order of equal keys open; the model
    keeps them in index order. *)
Definition argsort (a : list Q) : list nat :=
  foldr (insert_by a) [] (seq 0 (length a)).

(** [np.argpartition(a, kth)].  On a non-empty array [kth] must lie in
    [[-n, n-1]], else ValueError ("kth out of bounds"); on an empty array
    NumPy skips that test and returns the empty index array.  NumPy only
    promises that position [kth] holds the element a full sort would put
    there, smaller keys before and larger after; the model returns the
    fully sorted arrangement, which is one such result. *)
Definition argpartition (a : list Q) (kth : Z) : result (list nat) :=
  let n := Z.of_nat (length a) in
  if (n =? 0) || ((- n <=? kth) && (kth <? n)) then Ok (argsort a) else Raise ValueError.

(** Lines 42-43:
      idx_top = np.argpartition(-conf, K-1)[:K]
      idx_top = idx_top[np.argsort(-conf[idx_top])] *)
Definition top_k (conf : list Q) (k : nat) : result (list nat) :=
  let neg := Qopp <$> conf in
  part ← argpartition neg (Z.of_nat k - 1);
  let idx_top := take k part in
  keys ← gather neg idx_top;
  gather idx_top (argsort keys).

Definition Box : Type := Q * Q * Q * Q.

(** [np.stack([x1, y1, x2, y2], axis=1)] *)
Definition stack4 (c : Columns) : list Box :=
  zip (zip (zip (x1 c) (y1 c)) (x2 c)) (y2 c).

(** Lines 50-53 on one row of [boxes], in exact arithmetic.  The script
    holds [boxes] in float32, so its subtraction and division round: the
    values agree with the exact ones up to that rounding, and after the
    truncation of line 62 a coordinate can differ by one from the exact
    one (a quotient that is the integer 15 exactly may be stored just
    below 15 and truncate to 14).  Order and the bounds of the clamp are
    not affected: rounding is monotone and the clamp bounds are integers. *)
Definition unletterbox (t : Letterbox.LetterboxTransform) (b : Box) : Box :=
  let '(bx1, by1, bx2, by2) := b in
  (Letterbox.unletterbox_x t bx1, Letterbox.unletterbox_y t by1,
   Letterbox.unletterbox_x t bx2, Letterbox.unletterbox_y t by2).

(** Line 62: [tuple(map(int, [b[0], b[1], b[2]-b[0], b[3]-b[1]]))] *)
Definition rect_of_box (b : Box) : NMS.Rect :=
  let '(bx1, by1, bx2, by2) := b in
  (Num.trunc bx1, Num.trunc by1, Num.trunc (bx2 - bx1), Num.trunc (by2 - by1)).

Record Detection := mkDetection {
  rect : NMS.Rect;
  score : Q;
  class_id : Z
}.

(** Lines 45-53: the top-K candidates, un-letterboxed, as the parallel
    arrays [boxes], [scores], [cids]. *)
Definition candidates (t : Letterbox.LetterboxTransform) (k : nat) (y : ndarray3)
    : result (list Box * list Q * list Z) :=
  y ← normalise y;
  c ← split_columns y;
  let cls_id := class_ids c in
  let conf := confidences c in
  idx_top ← top_k conf k;
  boxes ← gather (stack4 c) idx_top;
  scores ← gather conf idx_top;
  cids ← gather cls_id idx_top;
  mret (map (unletterbox t) boxes, scores, cids).

(** Lines 58-77: confidence filter, then NMS over the integer rectangles;
    the detections are the entries the script draws, in the order of
    [idxs]. *)
Definition suppress (conf_thres iou_thres : Q)
    (cand : list Box * list Q * list Z) : result (list Detection) :=
  let '(boxes, scores, cids) := cand in
  let keep_mask := map (fun s => Num.geb s conf_thres) scores in
  boxes ← compress keep_mask boxes;
  scores ← compress keep_mask scores;
  cids ← compress keep_mask cids;
  if Nat.eqb (length boxes) 0 then mret []
  else
    let rects := map rect_of_box boxes in
    let idxs := NMS.NMSBoxes rects scores conf_thres iou_thres in
    mapM (fun j =>
            r ← getitem rects j; c ← getitem cids j; s ← getitem scores j;
            mret (mkDetection r s c)) idxs.

Definition decode (y : ndarray3) (t : Letterbox.LetterboxTransform)
    (conf_thres iou_thres : Q) (k : nat) : result (list Detection) :=
  cand ← candidates t k y;
  suppress conf_thres iou_thres cand.

(** Views of the candidates used to state what [suppress] returns: the
    integer rectangles paired with their scores, and the test of a pair
    against a score threshold. *)
Definition scored_rects (boxes : list Box) (scores : list Q) : list (NMS.Rect * Q) :=
  zip (map rect_of_box boxes) scores.

Definition over (c0 : Q) (r : NMS.Rect * Q) : bool := Num.geb (snd r) c0.

(** Position [i] comes no later than [j] in ascending order of the keys. *)
Definition key_le (a : list Q) (i j : nat) : Prop := (nth i a 0 <= nth j a 0)%Q.

End SelfValid.

(** ** The graph object ([onnx] protobuf messages, as far as the rewrite
       touches them) *)

Module Onnx.

Inductive DataType := FLOAT | INT64.

(** A dimension of a declared shape: a number ([dim_value]) or a symbol
    ([dim_param]). *)
Inductive Dim := DimValue (n : Z) | DimParam (s : string).

Record ValueInfoProto := mkValueInfo {
  vi_name : string;
  vi_elem_type : DataType;
  vi_shape : list Dim
}.

Record TensorProto := mkTensor {
  t_name : string;
  t_data_type : DataType;
  t_dims : list Z;
  int64_data : list Z;
  float_data : list Q
}.

Inductive AttributeValue :=
| AttrInt (i : Z)
| AttrInts (l : list Z)
| AttrFloat (q : Q)
| AttrString (s : string).

Record NodeProto := mkNode {
  op_type : string;
  n_input : list string;
  n_output : list string;
  attribute : list (string * AttributeValue)
}.

Record GraphProto := mkGraph {
  node : list NodeProto;
  initializer : list TensorProto;
  value_info : list ValueInfoProto;
  g_input : list ValueInfoProto;
  g_output : list ValueInfoProto
}.

(** [helper.make_tensor(name, TensorProto.INT64, dims, vals)] *)
Definition make_tensor_int64 (name : string) (dims : list Z) (vals : list Z) : TensorProto :=
  mkTensor name INT64 dims vals [].

(** [helper.make_tensor_value_info(name, elem_type, shape)] *)
Definition make_tensor_value_info (name : string) (ty : DataType) (shape : list Dim)
    : ValueInfoProto :=
  mkValueInfo name ty shape.

(** [helper.make_node(op_type, inputs, outputs, **attrs)] *)
Definition make_node (op : string) (inputs outputs : list string)
    (attrs : list (string * AttributeValue)) : NodeProto :=
  mkNode op inputs outputs attrs.

End Onnx.

(** ** The graph rewrite ([inject_postprocess.py]) *)

Module Inject.

Import Py Onnx.

Definition INT64_MAX : Z := 9223372036854775807.

(** Lines 5-12.  The graph is mutated in place ([g.initializer.extend]);
    here the updated graph is returned next to the new node. *)
Definition make_slice_col (g : GraphProto) (src : string) (start end_ : Z)
    (out_name : string) : GraphProto * NodeProto :=
  let starts := make_tensor_int64 (out_name +:+ "_starts") [3] [0; start; 0] in
  let ends := make_tensor_int64 (out_name +:+ "_ends") [3] [1; end_; INT64_MAX] in
  let axes := make_tensor_int64 (out_name +:+ "_axes") [3] [0; 1; 2] in
  let steps := make_tensor_int64 (out_name +:+ "_steps") [3] [1; 1; 1] in
  let g' := mkGraph (node g) (initializer g ++ [starts; ends; axes; steps])
                    (value_info g) (g_input g) (g_output g) in
  (g', make_node "Slice"
         [src; t_name starts; t_name ends; t_name axes; t_name steps] [out_name] []).

(** Lines 31-34: every output entry of the node equal to [raw_out] becomes
    [raw_new]. *)
Definition rename_outputs (raw_out raw_new : string) (n : NodeProto) : NodeProto :=
  mkNode (op_type n) (n_input n)
         ((fun o => if String.eqb o raw_out then raw_new else o) <$> n_output n)
         (attribute n).

(** Lines 24-79 of [main], on the loaded graph [g]. *)
Definition augment (g : GraphProto) : result GraphProto :=
  (* raw_out = g.output[0].name *)
  out0 ← getitem (g_output g) 0;
  let raw_out := vi_name out0 in
  (* old_out_vi = g.output.pop() *)
  let outputs := removelast (g_output g) in
  let raw_new := raw_out +:+ "_raw" in
  let nodes := rename_outputs raw_out raw_new <$> node g in
  let value_infos :=
    value_info g ++
    [make_tensor_value_info raw_new FLOAT [DimValue 1; DimValue 7; DimParam "unk"]] in
  let g := mkGraph nodes (initializer g) value_infos (g_input g) outputs in
  let t1 := make_node "Transpose" [raw_new] ["n7"] [("perm", AttrInts [0; 2; 1])] in
  let '(g, s_x1) := make_slice_col g "n7" 0 1 "c_x1" in
  let '(g, s_y1) := make_slice_col g "n7" 1 2 "c_y1" in
  let '(g, s_x2) := make_slice_col g "n7" 2 3 "c_x2" in
  let '(g, s_y2) := make_slice_col g "n7" 3 4 "c_y2" in
  let '(g, s_f4) := make_slice_col g "n7" 4 5 "c_f4" in
  let '(g, s_f5) := make_slice_col g "n7" 5 6 "c_f5" in
  let '(g, s_f6) := make_slice_col g "n7" 6 7 "c_f6" in
  let mul := make_node "Mul" ["c_f4"; "c_f6"] ["scoreA"] [] in
  let mx := make_node "Max" ["scoreA"; "c_f4"] ["score"] [] in
  let rnd := make_node "Round" ["c_f5"] ["cls_id"] [] in
  let cat := make_node "Concat" ["c_x1"; "c_y1"; "c_x2"; "c_y2"; "score"; "cls_id"]
                       ["post_dets"] [("axis", AttrInt 2)] in
  let new_out :=
    make_tensor_value_info "post_dets" FLOAT [DimValue 1; DimParam "unk"; DimValue 6] in
  mret (mkGraph
          (node g ++ [t1; s_x1; s_y1; s_x2; s_y2; s_f4; s_f5; s_f6; mul; mx; rnd; cat])
          (initializer g) (value_info g) (g_input g) (g_output g ++ [new_out])).

(** The four nodes of lines 57-69, the last ones [augment] appends. *)
Definition fuse_nodes : list NodeProto :=
  [ make_node "Mul" ["c_f4"; "c_f6"] ["scoreA"] [];
    make_node "Max" ["scoreA"; "c_f4"] ["score"] [];
    make_node "Round" ["c_f5"] ["cls_id"] [];
    make_node "Concat" ["c_x1"; "c_y1"; "c_x2"; "c_y2"; "score"; "cls_id"]
              ["post_dets"] [("axis", AttrInt 2)] ].

(** What [augment] appends, in closed form: per slice the four index
    tensors and the node of [make_slice_col], and after the Transpose and
    the seven slices the nodes of lines 57-69. *)
Definition slice_initializers (out_name : string) (start end_ : Z) : list TensorProto :=
  [ make_tensor_int64 (out_name +:+ "_starts") [3] [0; start; 0];
    make_tensor_int64 (out_name +:+ "_ends") [3] [1; end_; INT64_MAX];
    make_tensor_int64 (out_name +:+ "_axes") [3] [0; 1; 2];
    make_tensor_int64 (out_name +:+ "_steps") [3] [1; 1; 1] ].

Definition slice_node (src out_name : string) : NodeProto :=
  make_node "Slice"
    [src; out_name +:+ "_starts"; out_name +:+ "_ends"; out_name +:+ "_axes";
     out_name +:+ "_steps"] [out_name] [].

Definition slice_specs : list (string * Z) :=
  [("c_x1", 0); ("c_y1", 1); ("c_x2", 2); ("c_y2", 3); ("c_f4", 4); ("c_f5", 5); ("c_f6", 6)].

Definition appended_nodes (raw_new : string) : list NodeProto :=
  make_node "Transpose" [raw_new] ["n7"] [("perm", AttrInts [0; 2; 1])]
  :: map (fun p => slice_node "n7" (fst p)) slice_specs ++ fuse_nodes.

Definition appended_initializers : list TensorProto :=
  concat (map (fun p => slice_initializers (fst p) (snd p) (snd p + 1)) slice_specs).

(** The names the appended nodes write. *)
Definition appended_outputs : list string :=
  ["n7"; "c_x1"; "c_y1"; "c_x2"; "c_y2"; "c_f4"; "c_f5"; "c_f6";
   "scoreA"; "score"; "cls_id"; "post_dets"].

(** Single static assignment, which [onnx.checker] demands of a graph: no
    name is written by two node outputs. *)
Definition node_outputs (g : GraphProto) : list string := concat (map n_output (node g)).

Definition single_assignment (g : GraphProto) : Prop := NoDup (node_outputs g).

(** Topological order, which [onnx.checker] also demands: every input of a
    node is a name already defined (a graph input, an initializer) or
    written by an earlier node. *)
Fixpoint ordered (defined : list string) (ns : list NodeProto) : bool :=
  match ns with
  | [] => true
  | n :: ns' =>
      forallb (fun x => existsb (String.eqb x) defined) (n_input n)
      && ordered (n_output n ++ defined) ns'
  end.

(** Lines 81-82: the patched model is saved only if [onnx.checker] accepts
    it; the checker is the library's and is taken as a parameter. *)
Definition main (check_model : GraphProto -> bool) (g : GraphProto) : result GraphProto :=
  g' ← augment g;
  if check_model g' then mret g' else Raise ValidationError.

End Inject.

(** ** Running a graph

    Modelled from the ONNX operator specification: the graph is executed by
    onnxruntime, the collaborator behind the tensor execution interface
    (spec 6), not by code of the repository.  The interpreter covers the
    operators the rewrite emits, and [Identity]; tensors are rank-3 float
    arrays or int64 vectors. *)

Module Ort.

Import Py Nd Onnx.

Inductive value :=
| VFloat (t : ndarray3)
| VInt64 (l : list Z).

Definition as_float (v : value) : result ndarray3 :=
  match v with VFloat t => Ok t | VInt64 _ => Raise RuntimeError end.

Definition as_int64 (v : value) : result (list Z) :=
  match v with VInt64 l => Ok l | VFloat _ => Raise RuntimeError end.

Definition fetch (env : gmap string value) (name : string) : result value :=
  match env !! name with
  | Some v => Ok v
  | None => Raise RuntimeError
  end.

Definition zip_withM {A B C} (f : A -> B -> result C) (xs : list A) (ys : list B)
    : result (list C) :=
  mapM (fun p => f (fst p) (snd p)) (zip xs ys).

(** *** Slice (opset 13), steps equal to 1 *)

(** One axis: negative indices count from the end, then both ends are
    clamped to [[0, n]]. *)
Definition slice1 {A} (s e : Z) (l : list A) : list A :=
  let n := Z.of_nat (length l) in
  let norm v := Z.max 0 (Z.min n (if v <? 0 then v + n else v)) in
  take (Z.to_nat (norm e - norm s)) (drop (Z.to_nat (norm s)) l).

Definition slice_axis (axis s e : Z) (t : ndarray3) : result ndarray3 :=
  match (if axis <? 0 then axis + 3 else axis) with
  | 0 => Ok (slice1 s e t)
  | 1 => Ok (map (slice1 s e) t)
  | 2 => Ok (map (map (slice1 s e)) t)
  | _ => Raise RuntimeError
  end.

Fixpoint slice (t : ndarray3) (starts ends axes steps : list Z) : result ndarray3 :=
  match starts, ends, axes, steps with
  | [], [], [], [] => Ok t
  | s :: starts', e :: ends', a :: axes', st :: steps' =>
      if st =? 1 then t' ← slice_axis a s e t; slice t' starts' ends' axes' steps'
      else Raise RuntimeError
  | _, _, _, _ => Raise RuntimeError
  end.

(** *** Elementwise operators with broadcasting *)

(** Along one axis, equal extents pair up and an extent of 1 is stretched. *)
Definition broadcast1 {A} (f : A -> A -> result A) (xs ys : list A) : result (list A) :=
  if Nat.eqb (length xs) (length ys) then zip_withM f xs ys
  else match xs, ys with
       | [x], _ => mapM (f x) ys
       | _, [y] => mapM (fun x => f x y) xs
       | _, _ => Raise RuntimeError
       end.

Definition broadcast3 (f : Q -> Q -> Q) : ndarray3 -> ndarray3 -> result ndarray3 :=
  broadcast1 (broadcast1 (broadcast1 (fun a b => Ok (f a b)))).

(** *** Concat *)

Definition same_length {A} (k : list A -> list A -> result (list A)) (a b : list A)
    : result (list A) :=
  if Nat.eqb (length a) (length b) then k a b else Raise RuntimeError.

Definition concat2 (axis : Z) (a b : ndarray3) : result ndarray3 :=
  match (if axis <? 0 then axis + 3 else axis) with
  | 0 =>
      if decide (snd (fst (shape a)) = snd (fst (shape b)) /\ snd (shape a) = snd (shape b))
      then Ok (a ++ b) else Raise RuntimeError
  | 1 =>
      if decide (snd (shape a) = snd (shape b))
      then same_length (zip_withM (fun x y => Ok (x ++ y))) a b else Raise RuntimeError
  | 2 =>
      same_length (zip_withM (same_length (zip_withM (fun x y => Ok (x ++ y))))) a b
  | _ => Raise RuntimeError
  end.

Fixpoint concat_from (axis : Z) (acc : ndarray3) (ts : list ndarray3) : result ndarray3 :=
  match ts with
  | [] => Ok acc
  | t :: ts' => acc' ← concat2 axis acc t; concat_from axis acc' ts'
  end.

(** *** Nodes *)

Definition attr (n : NodeProto) (name : string) : result AttributeValue :=
  match List.find (fun p => String.eqb (fst p) name) (attribute n) with
  | Some p => Ok (snd p)
  | None => Raise RuntimeError
  end.

Definition float_inputs (env : gmap string value) (n : NodeProto) : result (list ndarray3) :=
  mapM (fun name => v ← fetch env name; as_float v) (n_input n).

Definition int64_input (env : gmap string value) (n : NodeProto) (i : nat) : result (list Z) :=
  match n_input n !! i with
  | Some name => v ← fetch env name; as_int64 v
  | None => Raise RuntimeError
  end.

Fixpoint fold_from (f : ndarray3 -> ndarray3 -> result ndarray3) (acc : ndarray3)
    (ts : list ndarray3) : result ndarray3 :=
  match ts with
  | [] => Ok acc
  | t :: ts' => acc' ← f acc t; fold_from f acc' ts'
  end.

(** The value a node computes. *)
Definition eval_op (env : gmap string value) (n : NodeProto) : result value :=
  match op_type n with
  | "Identity" =>
      match n_input n with
      | [name] => fetch env name
      | _ => Raise RuntimeError
      end
  | "Transpose" =>
      xs ← float_inputs env n;
      perm ← attr n "perm";
      match xs, perm with
      | [x], AttrInts [0; 1; 2] => Ok (VFloat x)
      | [x], AttrInts [0; 2; 1] => Ok (VFloat (transpose021 x))
      | _, _ => Raise RuntimeError
      end
  | "Slice" =>
      match n_input n with
      | [data; _; _; _; _] =>
          v ← fetch env data; x ← as_float v;
          starts ← int64_input env n 1; ends ← int64_input env n 2;
          axes ← int64_input env n 3; steps ← int64_input env n 4;
          VFloat <$> slice x starts ends axes steps
      | _ => Raise RuntimeError
      end
  | "Mul" =>
      xs ← float_inputs env n;
      match xs with
      | [a; b] => VFloat <$> broadcast3 Qmult a b
      | _ => Raise RuntimeError
      end
  | "Max" =>
      xs ← float_inputs env n;
      match xs with
      | a :: rest => VFloat <$> fold_from (broadcast3 Qmax) a rest
      | [] => Raise RuntimeError
      end
  | "Round" =>
      xs ← float_inputs env n;
      match xs with
      | [x] =>
          Ok (VFloat (map (map (map (fun v => inject_Z (Num.round_half_even v)))) x))
      | _ => Raise RuntimeError
      end
  | "Concat" =>
      xs ← float_inputs env n;
      axis ← attr n "axis";
      match xs, axis with
      | a :: rest, AttrInt k => VFloat <$> concat_from k a rest
      | _, _ => Raise RuntimeError
      end
  | _ => Raise RuntimeError
  end.

(** All of these operators have a single output. *)
Definition eval_node (env : gmap string value) (n : NodeProto) : result (gmap string value) :=
  v ← eval_op env n;
  match n_output n with
  | [out] => Ok (<[out := v]> env)
  | _ => Raise RuntimeError
  end.

Fixpoint run_nodes (env : gmap string value) (nodes : list NodeProto)
    : result (gmap string value) :=
  match nodes with
  | [] => Ok env
  | n :: nodes' => env' ← eval_node env n; run_nodes env' nodes'
  end.

(** Initializers become named constants.  Only int64 vectors are bound,
    the constants the operators above read; the weights of a model feed
    operators outside this interpreter. *)
Definition bind_initializer (env : gmap string value) (t : TensorProto) : gmap string value :=
  match t_data_type t, t_dims t with
  | INT64, [_] => <[t_name t := VInt64 (int64_data t)]> env
  | _, _ => env
  end.

(** The environment after all nodes have run on the given inputs. *)
Definition run_env (g : GraphProto) (feeds : list (string * ndarray3))
    : result (gmap string value) :=
  let env := foldl (fun env p => <[fst p := VFloat (snd p)]> env) ∅ feeds in
  let env := foldl bind_initializer env (initializer g) in
  run_nodes env (node g).

(** [sess.run(output_names, feeds)]: the graph's declared outputs. *)
Definition run (g : GraphProto) (feeds : list (string * ndarray3)) : result (list ndarray3) :=
  env ← run_env g feeds;
  mapM (fun o => v ← fetch env (vi_name o); as_float v) (g_output g).

(** The values of named intermediate tensors after a run. *)
Definition fetch_floats (env : gmap string value) (names : list string)
    : result (list ndarray3) :=
  mapM (fun name => v ← fetch env name; as_float v) names.

End Ort.

(** ** The canonical detection tensor, as the spec words it

    Spec 3 and 4.1, steps 4-8, for a raw tensor of layout [1,7,N]; these
    are the values the graph's intermediate and final tensors are compared
    with. *)

Module Canonical.

Import Nd.

(** The candidates' rows, [N] rows of 7 channels. *)
Definition candidate_rows (raw : ndarray3) : ndarray2 := hd [] (transpose021 raw).

(** Step 4: channel [i] of every candidate, of shape [1,N,1]. *)
Definition column (i : nat) (raw : ndarray3) : ndarray3 :=
  [map (fun row => [nth i row 0%Q]) (candidate_rows raw)].

(** One row [(x1, y1, x2, y2, score, class_id)] with
    [score = max(f4*f6, f4)] and [class_id = round(f5)]. *)
Definition canonical_row (row : list Q) : list Q :=
  let ch i := nth i row 0%Q in
  [ch 0%nat; ch 1%nat; ch 2%nat; ch 3%nat;
   Qmax (ch 4%nat * ch 6%nat) (ch 4%nat);
   inject_Z (Num.round_half_even (ch 5%nat))].

(** The canonical tensor, of shape [1,N,6]. *)
Definition tensor (raw : ndarray3) : ndarray3 := [map canonical_row (candidate_rows raw)].

End Canonical.

(** ** Strings as Python handles them (ASCII) *)

Module Str.

Import Stdlib.Strings.Ascii.
Local Open Scope char_scope.

(** A character is a code point in U+0000-U+00FF: the 256 values of
    [ascii], read as Latin-1.  Text holding code points above U+00FF is
    outside the model. *)

(** [c.lower()]: [A-Z] to [a-z], and the Latin-1 capitals U+00C0-U+00DE,
    the multiplication sign U+00D7 excepted, to U+00E0-U+00FE. *)
Definition lower_char (c : ascii) : ascii :=
  let n := nat_of_ascii c in
  if ((65 <=? n)%nat && (n <=? 90)%nat)
     || ((192 <=? n)%nat && (n <=? 222)%nat && negb (n =? 215)%nat)
  then ascii_of_nat (n + 32) else c.

Fixpoint map_chars (f : ascii -> ascii) (s : string) : string :=
  match s with
  | EmptyString => EmptyString
  | String c s' => String (f c) (map_chars f s')
  end.

(** [s.lower()] *)
Definition lower (s : string) : string := map_chars lower_char s.

(** [s.replace(a, b)] for one-character [a] and [b]. *)
Definition replace_char (a b : ascii) (s : string) : string :=
  map_chars (fun c => if Ascii.eqb c a then b else c) s.

(** The characters [str.split()] and [str.isspace()] treat as white
    space: tab, LF, VT, FF, CR, FS, GS, RS, US, space, NEL (U+0085) and the
    no-break space (U+00A0). *)
Definition is_space (c : ascii) : bool :=
  let n := nat_of_ascii c in
  ((9 <=? n)%nat && (n <=? 13)%nat) || ((28 <=? n)%nat && (n <=? 32)%nat)
  || (n =? 133)%nat || (n =? 160)%nat.

(** [s.split()]: the maximal runs of non-whitespace characters.  [cur] is
    the run being read, if any. *)
Fixpoint split_from (cur : option string) (s : string) : list string :=
  match s with
  | EmptyString => match cur with Some t => [t] | None => [] end
  | String c s' =>
      if is_space c then
        match cur with
        | Some t => t :: split_from None s'
        | None => split_from None s'
        end
      else
        split_from (Some (match cur with Some t => t +:+ String c "" | None => String c "" end)) s'
  end.

Definition split (s : string) : list string := split_from None s.

(** [pat in s] *)
Fixpoint contains (pat s : string) : bool :=
  String.prefix pat s ||
  match s with
  | EmptyString => false
  | String _ s' => contains pat s'
  end.

Definition is_digit (c : ascii) : bool :=
  let n := nat_of_ascii c in (48 <=? n)%nat && (n <=? 57)%nat.

Definition digit_value (c : ascii) : Z := Z.of_nat (nat_of_ascii c - 48).

(** The digits of [int(s)]: one or more decimal digits, single underscores
    allowed between digits.  [after_digit] tells whether the previous
    character was a digit. *)
Fixpoint parse_digits (acc : Z) (after_digit : bool) (s : string) : option Z :=
  match s with
  | EmptyString => if after_digit then Some acc else None
  | String c s' =>
      if is_digit c then parse_digits (acc * 10 + digit_value c) true s'
      else if Ascii.eqb c "_" && after_digit then parse_digits acc false s'
      else None
  end.

(** The white space [int] skips at both ends of its argument: tab, LF, VT,
    FF, CR, space, NEL and the no-break space (not FS, GS, RS, US). *)
Definition int_space (c : ascii) : bool :=
  let n := nat_of_ascii c in
  ((9 <=? n)%nat && (n <=? 13)%nat) || (n =? 32)%nat || (n =? 133)%nat || (n =? 160)%nat.

Fixpoint lstrip (s : string) : string :=
  match s with
  | EmptyString => EmptyString
  | String c s' => if int_space c then lstrip s' else s
  end.

Fixpoint rstrip (s : string) : string :=
  match s with
  | EmptyString => EmptyString
  | String c s' =>
      match rstrip s' with
      | EmptyString => if int_space c then EmptyString else String c EmptyString
      | r => String c r
      end
  end.

(** An optional sign and the digits. *)
Definition parse_int (s : string) : option Z :=
  match s with
  | String "+" r => parse_digits 0 false r
  | String "-" r => Z.opp <$> parse_digits 0 false r
  | _ => parse_digits 0 false s
  end.

(** [sys.int_max_str_digits], 4300 unless configured otherwise (CPython
    3.11 and later, and the security releases of 3.7 to 3.10): [int]
    refuses a string with more digits, leading zeros counted, underscores
    not. *)
Definition max_str_digits : nat := 4300.

Fixpoint count_digits (s : string) : nat :=
  match s with
  | EmptyString => 0
  | String c s' => (if is_digit c then 1 else 0) + count_digits s'
  end.

(** [int(s)]; [None] stands for ValueError. *)
Definition py_int (s : string) : option Z :=
  let s := rstrip (lstrip s) in
  if (max_str_digits <? count_digits s)%nat then None else parse_int s.

(** [str(n)] for a non-negative integer: its decimal digits, most
    significant first.  [fuel] bounds the number of digits. *)
Definition digit_char (d : Z) : ascii := ascii_of_nat (48 + Z.to_nat d).

Fixpoint decimal_fuel (fuel : nat) (n : Z) : string :=
  match fuel with
  | O => EmptyString
  | S fuel' =>
      if (n <? 10)%Z then String (digit_char n) EmptyString
      else decimal_fuel fuel' (n / 10)%Z +:+ String (digit_char (n mod 10)%Z) EmptyString
  end.

Definition decimal (n : Z) : string := decimal_fuel (S (Z.to_nat n)) n.

End Str.

(** ** Shape arguments of the export tools
       ([export_yolo_to_onnx.py], [export_cnn_to_onnx.py]: [parse_shape]) *)

Module ParseShape.

Import Stdlib.Strings.Ascii.

(** The three ways [parse_shape] raises [argparse.ArgumentTypeError]. *)
Inductive error :=
| InvalidDimension (dim : string)   (* "Invalid dimension value: {dim}" *)
| NotPositive                       (* "ONNX export requires positive dimensions" *)
| NoDimension.                      (* "At least one dimension must be provided" *)

(** [dims = shape.lower().replace("x", " ").replace(",", " ").split()] *)
Definition dims_of (shape : string) : list string :=
  Str.split (Str.replace_char ","%char " "%char
               (Str.replace_char "x"%char " "%char (Str.lower shape))).

(** The three character steps of [dims_of] as one map. *)
Definition norm_char (c : ascii) : ascii :=
  let c1 := Str.lower_char c in
  let c2 := if Ascii.eqb c1 "x" then " "%char else c1 in
  if Ascii.eqb c2 "," then " "%char else c2.

(** One turn of the loop. *)
Definition parse_dim (dim : string) : error + Z :=
  if String.eqb dim "b" || String.eqb dim "batch" then inr 1
  else match Str.py_int dim with
       | None => inl (InvalidDimension dim)
       | Some value => if value <=? 0 then inl NotPositive else inr value
       end.

(** The loop: the first offending dimension raises. *)
Fixpoint parse_dims (dims : list string) : error + list Z :=
  match dims with
  | [] => inr []
  | dim :: dims' =>
      match parse_dim dim with
      | inl e => inl e
      | inr v => match parse_dims dims' with
                 | inl e => inl e
                 | inr vs => inr (v :: vs)
                 end
      end
  end.

Definition parse_shape (shape : string) : error + list Z :=
  match parse_dims (dims_of shape) with
  | inl e => inl e
  | inr [] => inl NoDimension
  | inr parsed => inr parsed
  end.

End ParseShape.

(** ** Model inspection ([analyze_onnx.py], [inspect_cnn_model.py]) *)

Module Analyze.

Import Onnx.

(** An entry of a printed shape: a number or the string ["dynamic"]. *)
Inductive shape_entry := Known (n : Z) | Dynamic.

(** [dim.dim_value]: 0 when the dimension is symbolic. *)
Definition dim_value (d : Dim) : Z :=
  match d with DimValue n => n | DimParam _ => 0 end.

(** [dim.dim_value if dim.dim_value > 0 else "dynamic"] *)
Definition render_dim (d : Dim) : shape_entry :=
  if 0 <? dim_value d then Known (dim_value d) else Dynamic.

Definition render_shape (vi : ValueInfoProto) : list shape_entry :=
  map render_dim (vi_shape vi).

Definition op_in (names : list string) (n : NodeProto) : bool :=
  existsb (String.eqb (op_type n)) names.

(** What [analyze_onnx_model] prints, in its six sections. *)
Record Report := mkReport {
  outputs : list (string * list shape_entry);
  nms_inside : bool;
  activations : gset string;
  decode_ops : nat;
  anchors_present : bool;
  ops : gset string
}.

Definition analyze_onnx_model (graph : GraphProto) : Report :=
  {| outputs := map (fun output => (vi_name output, render_shape output)) (g_output graph);
     nms_inside :=
       negb (Nat.eqb (length (List.filter
         (op_in ["NonMaxSuppression"; "BatchedNMS"; "NMS"; "NonMaxSuppressionV4"])
         (node graph))) 0);
     activations :=
       list_to_set (map op_type (List.filter (op_in ["Sigmoid"; "Softmax"]) (node graph)));
     decode_ops := length (List.filter (op_in ["Mul"; "Add"; "Sub"; "Div"]) (node graph));
     anchors_present :=
       negb (Nat.eqb (length (List.filter
         (fun i => Str.contains "anchor" (Str.lower (t_name i))) (initializer graph))) 0);
     ops := list_to_set (map op_type (node graph)) |}.

(** The part of [inspect_model] that reads the graph (lines 5-30): the
    input and output lines, the operator set and the Normalize verdict
    ([{"Sub", "Div"} & op_types] non-empty). *)
Record Inspection := mkInspection {
  in_lines : list (string * list shape_entry * DataType);
  out_lines : list (string * list shape_entry * DataType);
  op_types : gset string;
  normalize_inside : bool
}.

Definition io_line (vi : ValueInfoProto) : string * list shape_entry * DataType :=
  (vi_name vi, render_shape vi, vi_elem_type vi).

Definition inspect_model (graph : GraphProto) : Inspection :=
  let op_types := list_to_set (map op_type (node graph)) : gset string in
  {| in_lines := map io_line (g_input graph);
     out_lines := map io_line (g_output graph);
     op_types := op_types;
     normalize_inside := negb (bool_decide (({["Sub"; "Div"]} : gset string) ∩ op_types = ∅)) |}.

End Analyze.

(** ** Concrete inputs *)

Module Examples.

Import Nd Onnx.

Local Open Scope Q_scope.

(** A 1920x1080 frame letterboxed into the 1280x1280 canvas. *)
Definition t_hd : Letterbox.LetterboxTransform :=
  Letterbox.compute 1920 1080 SelfValid.imgsz.

(** Spec 8: a raw tensor of shape [1,7,3] with [f4 = [0.9, 0.2, 0.6]] and
    [f6 = [1.0, 1.0, 0.1]]. *)
Definition raw3 : ndarray3 :=
  [[ [10; 200; 400]; [300; 320; 300]; [110; 300; 500]; [400; 430; 420];
     [9 # 10; 2 # 10; 6 # 10]; [12 # 10; 5 # 10; 25 # 10]; [1; 1; 1 # 10] ]].

(** No candidate at all, channel-first: shape [1,7,0]. *)
Definition raw0 : ndarray3 := [[ []; []; []; []; []; []; [] ]].

(** One candidate, of fused score 0.1: shape [1,7,1]. *)
Definition raw1_low : ndarray3 :=
  [[ [10]; [300]; [110]; [400]; [1 # 10]; [0]; [1] ]].

(** 200 candidates of fused score 0.1, channel-last: shape [1,200,7]. *)
Definition low_row : list Q := [10; 300; 110; 400; 1 # 10; 0; 1].
Definition raw200_low : ndarray3 := [repeat low_row 200].

(** A graph whose single output [output0] is produced by one node. *)
Definition g0 : GraphProto :=
  mkGraph [mkNode "Identity" ["x"] ["output0"] []] []
          []
          [mkValueInfo "x" FLOAT [DimValue 1; DimValue 7; DimParam "N"]]
          [mkValueInfo "output0" FLOAT []].

(** Raw tensors of layout [1,7,N]: channel [c] of candidate [n] holds
    [100 * c + n]. *)
Definition ramp (n : nat) : ndarray3 :=
  [map (fun c => map (fun j => inject_Z (Z.of_nat (100 * c + j))) (seq 0 n)) (seq 0 7)].

Definition raw8 : ndarray3 := ramp 8.

(** 200 well-separated boxes along a row of the 1280x1280 canvas, each with
    [f4 = 0.9], [f5 = 1] and [f6 = 1]: layout [1,7,200]. *)
Definition raw200 : ndarray3 :=
  let xs := map (fun j => inject_Z (Z.of_nat (6 * j))) (seq 0 200) in
  [[ xs; repeat 300 200; map (fun x => x + 3) xs; repeat 400 200;
     repeat (9 # 10) 200; repeat 1 200; repeat 1 200 ]].

(** What the patched [g0] returns when its input is fed [raw]. *)
Definition patched_output (raw : ndarray3) : Py.result (list ndarray3) :=
  g ← Inject.augment g0; Ort.run g [("x", raw)].

(** The seven slice outputs of the patched [g0] on [raw]. *)
Definition patched_slices (raw : ndarray3) : Py.result (list ndarray3) :=
  g ← Inject.augment g0;
  env ← Ort.run_env g [("x", raw)];
  Ort.fetch_floats env ["c_x1"; "c_y1"; "c_x2"; "c_y2"; "c_f4"; "c_f5"; "c_f6"].

(** The [score] and [cls_id] tensors of the patched [g0] on [raw]. *)
Definition patched_scores (raw : ndarray3) : Py.result (list ndarray3) :=
  g ← Inject.augment g0;
  env ← Ort.run_env g [("x", raw)];
  Ort.fetch_floats env ["score"; "cls_id"].

(** The host decoder's fused scores and class ids for [raw]
    ([self_valid.py], lines 26-38). *)
Definition host_scores (raw : ndarray3) : Py.result (list Q * list Z) :=
  rows ← SelfValid.normalise raw;
  c ← SelfValid.split_columns rows;
  mret (SelfValid.confidences c, SelfValid.class_ids c).

(** An environment holding the seven channel columns of [raw] under the
    names of the slice outputs. *)
Definition column_env (raw : ndarray3) : gmap string Ort.value :=
  list_to_map
    (zip ["c_x1"; "c_y1"; "c_x2"; "c_y2"; "c_f4"; "c_f5"; "c_f6"]
         (map (fun i => Ort.VFloat (Canonical.column i raw)) (seq 0 7))).

(** The columns of these tensors. *)
Definition cols3 : SelfValid.Columns :=
  SelfValid.mkColumns [10; 200; 400] [300; 320; 300] [110; 300; 500] [400; 430; 420]
                      [9 # 10; 2 # 10; 6 # 10] [12 # 10; 5 # 10; 25 # 10] [1; 1; 1 # 10].

Definition cols0 : SelfValid.Columns := SelfValid.mkColumns [] [] [] [] [] [] [].

Definition cols1_low : SelfValid.Columns :=
  SelfValid.mkColumns [10] [300] [110] [400] [1 # 10] [0] [1].

Definition cols200_low : SelfValid.Columns :=
  SelfValid.mkColumns (repeat 10 200) (repeat 300 200) (repeat 110 200) (repeat 400 200)
                      (repeat (1 # 10) 200) (repeat 0 200) (repeat 1 200).

End Examples.

(** * Properties *)

(** ** LetterboxMapper *)

Module LetterboxFacts.

Import Letterbox.

Local Open Scope Q_scope.

Lemma clip_inside a lo hi : lo <= a -> a <= hi -> Num.clip a lo hi == a.
Proof.
  intros Hlo Hhi. unfold Num.clip.
  rewrite (Q.max_l a lo) by exact Hlo.
  apply Q.min_l. exact Hhi.
Qed.

Lemma clip_above a lo hi : lo <= hi -> hi <= a -> Num.clip a lo hi == hi.
Proof.
  intros Hlh Hhi. unfold Num.clip.
  apply Q.min_r. apply Q.max_le_iff. left. exact Hhi.
Qed.

(** Without the clamp the inverse map undoes the forward map exactly. *)
Lemma unscale_scale (s p x : Q) : 0 < s -> (x * s + p - p) / s == x.
Proof. intros Hs. field. intros E. rewrite E in Hs. discriminate. Qed.

Lemma recover_within_1 (s : Q) (p w : Z) (x : Q) :
  0 < s -> (1 <= w)%Z -> 0 <= x -> x <= inject_Z w ->
  Qabs (Num.clip ((x * s + inject_Z p - inject_Z p) / s) 0 (inject_Z (w - 1)) - x) <= 1.
Proof.
  intros Hs Hw H0 Hx.
  assert (Hw1 : inject_Z (w - 1) == inject_Z w - 1).
  { unfold Z.sub. rewrite inject_Z_plus. reflexivity. }
  assert (Hlo : 0 <= inject_Z (w - 1)).
  { change 0 with (inject_Z 0). rewrite <- Zle_Qle. lia. }
  pose proof (unscale_scale s (inject_Z p) x Hs) as Hinv.
  destruct (Qlt_le_dec (inject_Z (w - 1)) x) as [Hgt | Hle].
  - rewrite clip_above; [| exact Hlo | rewrite Hinv; apply Qlt_le_weak; exact Hgt].
    apply Qabs_Qle_condition. rewrite Hw1 in *. split; lra.
  - rewrite clip_inside; [| rewrite Hinv; exact H0 | rewrite Hinv; exact Hle].
    rewrite Hinv. apply Qabs_Qle_condition. split; lra.
Qed.

(** A pixel position of the original image is recovered exactly. *)
Lemma recover_pixel (s : Q) (p w : Z) (x : Q) :
  0 < s -> 0 <= x -> x <= inject_Z (w - 1) ->
  Num.clip ((x * s + inject_Z p - inject_Z p) / s) 0 (inject_Z (w - 1)) == x.
Proof.
  intros Hs H0 Hx. pose proof (unscale_scale s (inject_Z p) x Hs) as Hinv.
  rewrite clip_inside; [exact Hinv | rewrite Hinv; exact H0 | rewrite Hinv; exact Hx].
Qed.

(** C4. For every valid letterbox transform [t] and every point [(x, y)]
    within the original image bounds, mapping the point to inference space
    ([x * scale + pad_x], [y * scale + pad_y]) and back through the
    decoder's inverse ([(q - pad) / scale], then the clamp to
    [[0, orig_w - 1] x [0, orig_h - 1]]) recovers it to within one pixel in
    each coordinate. *)
Theorem letterbox_roundtrip_within_1px (t : LetterboxTransform) (x y : Q) :
  valid t ->
  0 <= x -> x <= inject_Z (orig_w t) ->
  0 <= y -> y <= inject_Z (orig_h t) ->
  let p' := to_original_space t (to_inference_space t (x, y)) in
  Qabs (fst p' - x) <= 1 /\ Qabs (snd p' - y) <= 1.
Proof.
  intros (Hs & _ & _ & Hw & Hh) Hx0 Hx1 Hy0 Hy1. simpl.
  unfold unletterbox_x, unletterbox_y. simpl. split.
  - apply recover_within_1; assumption.
  - apply recover_within_1; assumption.
Qed.

Lemma letterbox_roundtrip_within_1px_witness :
  let t := compute 1920 1080 1280 in
  let p' := to_original_space t (to_inference_space t (1920, 7 # 2)) in
  Qabs (fst p' - 1920) <= 1 /\ Qabs (snd p' - (7 # 2)) <= 1.
Proof.
  apply (letterbox_roundtrip_within_1px (compute 1920 1080 1280) 1920 (7 # 2)).
  - unfold valid. vm_compute. intuition discriminate.
  - vm_compute. discriminate.
  - vm_compute. discriminate.
  - vm_compute. discriminate.
  - vm_compute. discriminate.
Defined.

(** [compute] yields a valid transform for every non-empty image and
    positive target size. *)
Lemma round_half_even_le (q : Q) (n : Z) : q <= inject_Z n -> (Num.round_half_even q <= n)%Z.
Proof.
  intros Hq. unfold Num.round_half_even.
  assert (Hf : (Qfloor q <= n)%Z).
  { rewrite <- (Qfloor_Z n). apply Qfloor_resp_le. exact Hq. }
  destruct (Z.eq_dec (Qfloor q) n) as [E | NE].
  - assert (Hqn : q == inject_Z n).
    { apply Qle_antisym; [exact Hq|]. rewrite <- E. apply Qfloor_le. }
    assert (Hr : (q - inject_Z (Qfloor q) ?= 1 # 2) = Lt).
    { rewrite E. rewrite <- Qlt_alt. rewrite Hqn. lra. }
    rewrite Hr. lia.
  - destruct (q - inject_Z (Qfloor q) ?= 1 # 2); [destruct (Z.even _)| |]; lia.
Qed.

Lemma compute_valid (w0 h0 imgsz : Z) :
  (1 <= w0)%Z -> (1 <= h0)%Z -> (1 <= imgsz)%Z -> valid (compute w0 h0 imgsz).
Proof.
  intros Hw Hh Ht. unfold valid, compute. simpl.
  assert (Hw' : 0 < inject_Z w0) by (change 0 with (inject_Z 0); rewrite <- Zlt_Qlt; lia).
  assert (Hh' : 0 < inject_Z h0) by (change 0 with (inject_Z 0); rewrite <- Zlt_Qlt; lia).
  assert (Ht' : 0 < inject_Z imgsz) by (change 0 with (inject_Z 0); rewrite <- Zlt_Qlt; lia).
  set (r := Qmin (inject_Z imgsz / inject_Z w0) (inject_Z imgsz / inject_Z h0)).
  assert (Hrw : r <= inject_Z imgsz / inject_Z w0) by apply Q.le_min_l.
  assert (Hrh : r <= inject_Z imgsz / inject_Z h0) by apply Q.le_min_r.
  assert (Hmulw : inject_Z w0 * r <= inject_Z imgsz).
  { apply Qle_trans with (inject_Z w0 * (inject_Z imgsz / inject_Z w0)).
    - apply Qmult_le_l; assumption.
    - apply Qle_lteq. right. field. lra. }
  assert (Hmulh : inject_Z h0 * r <= inject_Z imgsz).
  { apply Qle_trans with (inject_Z h0 * (inject_Z imgsz / inject_Z h0)).
    - apply Qmult_le_l; assumption.
    - apply Qle_lteq. right. field. lra. }
  apply round_half_even_le in Hmulw, Hmulh.
  repeat split.
  - unfold r. apply Q.min_glb_lt; apply Qlt_shift_div_l; lra.
  - apply Z.div_pos; lia.
  - apply Z.div_pos; lia.
  - exact Hw.
  - exact Hh.
Qed.

(** C8. For [orig_w = 1920], [orig_h = 1080], [target = 1280] the mapper
    yields [scale = min(1280/1920, 1280/1080) = 2/3] (0.6667 to four
    places), [new_w = 1280], [new_h = 720], [pad_x = 0] and
    [pad_y = 280]; and the same lines run on binary64 floats, as Python
    runs them, yield the float nearest to 2/3 and the same integers. *)
Theorem compute_1920_1080_1280 :
  (let t := compute 1920 1080 1280 in
   scale t == 2 # 3 /\
   (66665 # 100000 <= scale t /\ scale t < 66675 # 100000) /\
   new_w t = 1280%Z /\ new_h t = 720%Z /\ pad_x t = 0%Z /\ pad_y t = 280%Z) /\
  (let '(r, nw, nh, padx, pady) := Binary64.compute 1920 1080 1280 in
   r = PrimFloat.div 2 3 /\
   (66665 # 100000 <= Binary64.to_Q r /\ Binary64.to_Q r < 66675 # 100000) /\
   nw = 1280%Z /\ nh = 720%Z /\ padx = 0%Z /\ pady = 280%Z).
Proof.
  split.
  - cbv zeta. repeat split; try (vm_compute; reflexivity). vm_compute. discriminate.
  - vm_compute. repeat split; try reflexivity; discriminate.
Qed.

End LetterboxFacts.

(** ** Greedy non-maximum suppression *)

Module NMSFacts.

Import NMS.

Lemma gtb_true (a b : Q) : Num.gtb a b = true <-> (b < a)%Q.
Proof.
  unfold Num.gtb. rewrite negb_true_iff, <- not_true_iff_false, Qle_bool_iff.
  split; [apply Qnot_le_lt | apply Qlt_not_le].
Qed.

Lemma gtb_false (a b : Q) : Num.gtb a b = false <-> (a <= b)%Q.
Proof. unfold Num.gtb. rewrite negb_false_iff. apply Qle_bool_iff. Qed.

Lemma geb_true (a b : Q) : Num.geb a b = true <-> (b <= a)%Q.
Proof. apply Qle_bool_iff. Qed.

Lemma geb_false (a b : Q) : Num.geb a b = false <-> (a < b)%Q.
Proof.
  unfold Num.geb. rewrite <- not_true_iff_false, Qle_bool_iff.
  split; [apply Qnot_le_lt | apply Qlt_not_le].
Qed.

Lemma filter_all {A} (f : A -> bool) (l : list A) :
  (forall c, In c l -> f c = true) -> List.filter f l = l.
Proof.
  induction l as [|x xs IH]; intros H; simpl; [reflexivity|].
  rewrite (H x (or_introl eq_refl)). f_equal. apply IH. intros c Hc. apply H. now right.
Qed.

Lemma filter_none {A} (f : A -> bool) (l : list A) :
  (forall c, In c l -> f c = false) -> List.filter f l = [].
Proof.
  induction l as [|x xs IH]; intros H; simpl; [reflexivity|].
  rewrite (H x (or_introl eq_refl)). apply IH. intros c Hc. apply H. now right.
Qed.

Lemma filter_comm {A} (f g : A -> bool) (l : list A) :
  List.filter f (List.filter g l) = List.filter g (List.filter f l).
Proof.
  induction l as [|x xs IH]; simpl; [reflexivity|].
  destruct (g x) eqn:Hg, (f x) eqn:Hf; simpl; rewrite ?Hg, ?Hf, IH; reflexivity.
Qed.

Section Greedy.

Context {C : Type} (rect_of : C -> Rect) (score_of : C -> Q).

#[local] Abbreviation extract_max := (extract_max score_of).
#[local] Abbreviation nms := (nms rect_of score_of).
#[local] Abbreviation survivors := (survivors rect_of).

Lemma extract_max_None (l : list C) : extract_max l = None <-> l = [].
Proof.
  split; [|intros ->; reflexivity].
  destruct l as [|x xs]; [reflexivity|]. simpl.
  destruct (NMS.extract_max score_of xs) as [[m rest]|]; [destruct (Num.gtb _ _)|]; discriminate.
Qed.

(** What [extract_max] returns: a member of the list whose score no other
    member exceeds, and the other members. *)
Lemma extract_max_spec (l : list C) m rest :
  extract_max l = Some (m, rest) ->
  In m l /\ (forall c, In c rest -> In c l) /\
  (forall c, In c l -> (score_of c <= score_of m)%Q) /\
  length l = S (length rest).
Proof.
  revert m rest. induction l as [|x xs IH]; intros m rest; simpl; [discriminate|].
  destruct (NMS.extract_max score_of xs) as [[m' rest']|] eqn:E.
  - destruct (IH _ _ eq_refl) as (Hin & Hsub & Hmax & Hlen).
    destruct (Num.gtb (score_of m') (score_of x)) eqn:G; intros [= <- <-].
    + apply gtb_true in G. repeat split.
      * now right.
      * intros c [<- | Hc]; [now left | right; now apply Hsub].
      * intros c [<- | Hc]; [now apply Qlt_le_weak | now apply Hmax].
      * simpl. congruence.
    + apply gtb_false in G. repeat split.
      * now left.
      * intros c Hc. now right.
      * intros c [<- | Hc]; [apply Qle_refl |].
        apply Qle_trans with (score_of m'); [now apply Hmax | exact G].
  - apply extract_max_None in E. subst xs. intros [= <- <-]. repeat split.
    + now left.
    + intros c [].
    + intros c [<- | []]. apply Qle_refl.
Qed.

(** A head that no later candidate beats is the one taken. *)
Lemma extract_max_head (m : C) (xs : list C) :
  (forall c, In c xs -> (score_of c <= score_of m)%Q) ->
  extract_max (m :: xs) = Some (m, xs).
Proof.
  intros H. simpl.
  destruct (NMS.extract_max score_of xs) as [[m' rest']|] eqn:E.
  - destruct (extract_max_spec _ _ _ E) as (Hin & _).
    assert (G : Num.gtb (score_of m') (score_of m) = false) by (apply gtb_false; now apply H).
    rewrite G. reflexivity.
  - apply extract_max_None in E. now subst xs.
Qed.

(** Filtering keeps the maximum in place as long as the maximum itself
    passes the filter. *)
Lemma extract_max_filter (p : C -> bool) (l : list C) m rest :
  extract_max l = Some (m, rest) -> p m = true ->
  extract_max (List.filter p l) = Some (m, List.filter p rest).
Proof.
  revert m rest. induction l as [|x xs IH]; intros m rest; [discriminate|].
  cbn [NMS.extract_max].
  destruct (NMS.extract_max score_of xs) as [[m' rest']|] eqn:E.
  - destruct (Num.gtb (score_of m') (score_of x)) eqn:G; intros [= <- <-] Hp.
    + specialize (IH _ _ eq_refl Hp). cbn [List.filter].
      destruct (p x); [|exact IH].
      cbn [NMS.extract_max]. rewrite IH, G. reflexivity.
    + cbn [List.filter]. rewrite Hp. apply extract_max_head.
      intros c Hc. apply filter_In in Hc as [Hc _].
      destruct (extract_max_spec _ _ _ E) as (_ & _ & Hmax & _).
      apply gtb_false in G.
      apply Qle_trans with (score_of m'); [now apply Hmax | exact G].
  - apply extract_max_None in E. subst xs. intros [= <- <-] Hp.
    cbn [List.filter]. rewrite Hp. reflexivity.
Qed.

Lemma nms_unfold (thr : Q) (l : list C) :
  nms thr l =
  match extract_max l with
  | None => []
  | Some (m, rest) => m :: nms thr (survivors thr m rest)
  end.
Proof.
  rewrite nms_equation_1.
  destruct (inspect (NMS.extract_max score_of l)) as [[[m rest]|] E];
    [rewrite nms_clause_1_equation_1 | rewrite nms_clause_1_equation_2];
    rewrite E; reflexivity.
Qed.

Lemma nms_nil (thr : Q) : nms thr [] = [].
Proof. rewrite nms_unfold. reflexivity. Qed.

(** Induction on the number of candidates, the measure [nms] recurses on. *)
Lemma length_ind (P : list C -> Prop) :
  (forall l, (forall l', (length l' < length l)%nat -> P l') -> P l) -> forall l, P l.
Proof.
  intros H l. remember (length l) as n eqn:Hn. revert l Hn.
  induction n as [n IH] using lt_wf_ind. intros l ->.
  apply H. intros l' Hl'. now apply (IH (length l')).
Qed.

Lemma survivors_In thr m rest c :
  In c (survivors thr m rest) <-> In c rest /\ suppressed rect_of thr m c = false.
Proof. unfold NMS.survivors. rewrite filter_In, negb_true_iff. reflexivity. Qed.

Lemma survivors_shorter thr (l : list C) m rest :
  extract_max l = Some (m, rest) -> (length (survivors thr m rest) < length l)%nat.
Proof.
  intros E. destruct (extract_max_spec _ _ _ E) as (_ & _ & _ & Hlen).
  pose proof (List.filter_length_le (fun c => negb (suppressed rect_of thr m c)) rest).
  unfold NMS.survivors. lia.
Qed.

(** Every survivor is one of the candidates. *)
Lemma nms_In (thr : Q) (l : list C) c : In c (nms thr l) -> In c l.
Proof.
  revert c. induction l as [l IH] using length_ind. intros c.
  rewrite nms_unfold. destruct (NMS.extract_max score_of l) as [[m rest]|] eqn:E; [|intros []].
  destruct (extract_max_spec _ _ _ E) as (Hin & Hsub & _ & _).
  intros [<- | Hc]; [exact Hin|].
  apply (IH _ (survivors_shorter thr _ _ _ E)) in Hc.
  apply survivors_In in Hc as [Hc _]. now apply Hsub.
Qed.

(** C5. Greedy NMS is idempotent: for every finite list of candidates (of
    any representation carrying a box and a score) and every [iou_thres],
    running NMS on the survivors of a run with the same threshold returns
    those survivors unchanged, as the same list in the same order. *)
Theorem nms_idempotent (thr : Q) (l : list C) : nms thr (nms thr l) = nms thr l.
Proof.
  induction l as [l IH] using length_ind.
  rewrite (nms_unfold thr l).
  destruct (NMS.extract_max score_of l) as [[m rest]|] eqn:E; [|apply nms_nil].
  destruct (extract_max_spec _ _ _ E) as (_ & Hsub & Hmax & _).
  set (out := nms thr (survivors thr m rest)).
  assert (Hout : forall c, In c out -> In c rest /\ suppressed rect_of thr m c = false).
  { intros c Hc. apply survivors_In. now apply nms_In in Hc. }
  rewrite nms_unfold, extract_max_head.
  - f_equal. replace (survivors thr m out) with out.
    + apply IH. now apply survivors_shorter.
    + symmetry. apply filter_all. intros c Hc.
      destruct (Hout c Hc) as [_ ->]. reflexivity.
  - intros c Hc. apply Hmax, Hsub. now apply Hout.
Qed.

(** Dropping the candidates below a score threshold before NMS or after it
    gives the same survivors: what NMS decides about a candidate depends
    only on the candidates scoring at least as high. *)
Lemma nms_filter_score (thr c0 : Q) (l : list C) :
  nms thr (List.filter (fun c => Num.geb (score_of c) c0) l) =
  List.filter (fun c => Num.geb (score_of c) c0) (nms thr l).
Proof.
  set (p := fun c => Num.geb (score_of c) c0).
  induction l as [l IH] using length_ind.
  rewrite (nms_unfold thr l).
  destruct (NMS.extract_max score_of l) as [[m rest]|] eqn:E.
  2:{ apply extract_max_None in E. subst l. reflexivity. }
  destruct (extract_max_spec _ _ _ E) as (Hin & Hsub & Hmax & _).
  destruct (p m) eqn:Hp.
  - rewrite nms_unfold, (extract_max_filter p _ _ _ E Hp).
    cbn [List.filter]. rewrite Hp. f_equal.
    unfold NMS.survivors. rewrite filter_comm.
    apply IH. now apply survivors_shorter.
  - assert (Hlow : forall c, In c l -> p c = false).
    { intros c Hc. unfold p in *. apply geb_false. apply geb_false in Hp.
      apply Qle_lt_trans with (score_of m); [now apply Hmax | exact Hp]. }
    rewrite (filter_none p l Hlow), nms_nil.
    symmetry. apply filter_none. intros c [<- | Hc]; [exact Hp|].
    apply Hlow. apply nms_In in Hc. apply survivors_In in Hc as [Hc _]. now apply Hsub.
Qed.

End Greedy.

(** NMS does not look at how a candidate is represented beyond its box and
    its score. *)
Lemma nms_map {C D : Type} (rc : C -> Rect) (sc : C -> Q) (rd : D -> Rect) (sd : D -> Q)
    (f : C -> D) (thr : Q) (l : list C) :
  (forall c, rd (f c) = rc c) -> (forall c, sd (f c) = sc c) ->
  nms rd sd thr (map f l) = map f (nms rc sc thr l).
Proof.
  intros Hr Hs.
  assert (Hmax : forall l, extract_max sd (map f l) =
                           option_map (fun p => (f (fst p), map f (snd p))) (extract_max sc l)).
  { clear l. induction l as [|x xs IH]; [reflexivity|]. simpl. rewrite IH.
    destruct (extract_max sc xs) as [[m rest]|]; simpl; [|reflexivity].
    rewrite !Hs. destruct (Num.gtb _ _); reflexivity. }
  induction l as [l IH] using length_ind.
  rewrite (nms_unfold rd sd), (nms_unfold rc sc), Hmax.
  destruct (extract_max sc l) as [[m rest]|] eqn:E; simpl; [|reflexivity].
  f_equal. rewrite <- IH by (eapply survivors_shorter; eassumption).
  f_equal. unfold survivors, suppressed. clear -Hr.
  induction rest as [|x xs IHx]; simpl; [reflexivity|].
  rewrite !Hr. destruct (negb _); simpl; rewrite <- IHx, ?Hr; reflexivity.
Qed.

End NMSFacts.

(** ** Host-side decoder *)

Module DecodeFacts.

Import Py Nd SelfValid.

(** *** Results of [mapM], [getitem], [gather] and [compress] *)

Lemma mapM_cons {A B} (f : A -> result B) (x : A) (xs : list A) :
  mapM f (x :: xs) =
  match f x with
  | Ok y => match mapM f xs with Ok k => Ok (y :: k) | Raise e => Raise e end
  | Raise e => Raise e
  end.
Proof. reflexivity. Qed.

Lemma mapM_Ok {A B} (f : A -> result B) (l : list A) (l' : list B) :
  mapM f l = Ok l' <-> Forall2 (fun x y => f x = Ok y) l l'.
Proof.
  revert l'. induction l as [|x xs IH]; intros l'.
  - split; [intros [= <-]; constructor | intros H; inversion H; reflexivity].
  - rewrite mapM_cons. split.
    + destruct (f x) as [y|] eqn:Hx; [|discriminate].
      destruct (mapM f xs) as [ys|] eqn:Hxs; [|discriminate].
      intros [= <-]. constructor; [exact Hx | now apply IH].
    + intros H. inversion H as [|? y ? ys Hx Hxs]; subst.
      rewrite Hx. apply IH in Hxs. rewrite Hxs. reflexivity.
Qed.

Lemma mapM_total {A B} (f : A -> result B) (l : list A) :
  Forall (fun x => exists y, f x = Ok y) l -> exists l', mapM f l = Ok l'.
Proof.
  induction 1 as [|x xs [y Hy] _ [ys Hys]].
  - eexists; reflexivity.
  - rewrite mapM_cons, Hy, Hys. eexists; reflexivity.
Qed.

Lemma mapM_length {A B} (f : A -> result B) (l : list A) (l' : list B) :
  mapM f l = Ok l' -> length l' = length l.
Proof. intros H. apply mapM_Ok in H. symmetry. eapply Forall2_length, H. Qed.

Lemma getitem_Ok {A} (l : list A) (i : nat) (a : A) : getitem l i = Ok a <-> l !! i = Some a.
Proof.
  unfold getitem. destruct (l !! i); split; intros H; try discriminate; congruence.
Qed.

Lemma getitem_total {A} (l : list A) (i : nat) :
  (i < length l)%nat -> exists a, getitem l i = Ok a.
Proof.
  intros H. destruct (lookup_lt_is_Some_2 l i H) as [a Ha].
  exists a. now apply getitem_Ok.
Qed.

Lemma gather_length {A} (l : list A) idx l' : gather l idx = Ok l' -> length l' = length idx.
Proof. apply mapM_length. Qed.

Lemma gather_total {A} (l : list A) idx :
  Forall (fun i => (i < length l)%nat) idx -> exists l', gather l idx = Ok l'.
Proof.
  intros H. apply mapM_total. eapply Forall_impl; [exact H|].
  intros i Hi. now apply getitem_total.
Qed.

(** Gathered entries are entries of the array. *)
Lemma gather_In {A} (l : list A) idx l' x : gather l idx = Ok l' -> In x l' -> In x l.
Proof.
  intros H Hx. apply mapM_Ok in H. apply list_elem_of_In in Hx.
  destruct (proj1 (list_elem_of_lookup l' x) Hx) as [j Hj].
  destruct (Forall2_lookup_r _ _ _ _ _ H Hj) as (i & _ & Hi).
  apply getitem_Ok in Hi. apply list_elem_of_In. eapply list_elem_of_lookup_2, Hi.
Qed.

Lemma select_length {A B} (mask : list bool) (l : list A) (k : list B) :
  length l = length k -> length (select mask l) = length (select mask k).
Proof.
  revert l k. induction mask as [|m ms IH]; intros [|x l] [|y k]; simpl; try discriminate;
    try reflexivity.
  intros [= H]. destruct m; simpl; auto.
Qed.

(** Selecting two parallel arrays by the mask of a test on the second is
    filtering the rows by that test. *)
Lemma select_zip {A B} (p : B -> bool) (l : list A) (k : list B) :
  length l = length k ->
  zip (select (map p k) l) (select (map p k) k) = List.filter (fun r => p (snd r)) (zip l k).
Proof.
  revert l. induction k as [|y k IH]; intros [|x l]; simpl; try discriminate; try reflexivity.
  intros [= H]. destruct (p y); simpl; rewrite IH by exact H; reflexivity.
Qed.

Lemma select_map {A B} (f : A -> B) (mask : list bool) (l : list A) :
  select mask (map f l) = map f (select mask l).
Proof.
  revert l. induction mask as [|m ms IH]; intros [|x l]; simpl; try reflexivity.
  destruct m; simpl; rewrite IH; reflexivity.
Qed.

Lemma compress_Ok {A} (mask : list bool) (l : list A) :
  length mask = length l -> compress mask l = Ok (select mask l).
Proof. intros H. unfold compress. rewrite H, Nat.eqb_refl. reflexivity. Qed.

(** *** Columns and scores *)

Lemma column_length (rows : ndarray2) (i : nat) col :
  column rows i = Ok col -> length col = length rows.
Proof. apply mapM_length. Qed.

Lemma split_columns_Ok (rows : ndarray2) (c : Columns) :
  split_columns rows = Ok c ->
  column rows 0 = Ok (x1 c) /\ column rows 1 = Ok (y1 c) /\ column rows 2 = Ok (x2 c) /\
  column rows 3 = Ok (y2 c) /\ column rows 4 = Ok (f4 c) /\ column rows 5 = Ok (f5 c) /\
  column rows 6 = Ok (f6 c).
Proof.
  unfold split_columns, mbind, result_bind, mret, result_ret.
  destruct (column rows 0); [|discriminate]. destruct (column rows 1); [|discriminate].
  destruct (column rows 2); [|discriminate]. destruct (column rows 3); [|discriminate].
  destruct (column rows 4); [|discriminate]. destruct (column rows 5); [|discriminate].
  destruct (column rows 6); [|discriminate].
  intros [= <-]. simpl. repeat split; reflexivity.
Qed.

(** After a successful split every column, and so the score and class
    arrays, has one entry per candidate. *)
Lemma split_columns_lengths (rows : ndarray2) (c : Columns) :
  split_columns rows = Ok c ->
  length (stack4 c) = length rows /\ length (confidences c) = length rows /\
  length (class_ids c) = length rows.
Proof.
  intros H. apply split_columns_Ok in H as (H0 & H1 & H2 & H3 & H4 & H5 & H6).
  apply column_length in H0, H1, H2, H3, H4, H5, H6.
  unfold stack4, confidences, class_ids.
  rewrite !length_zip_with, length_fmap. lia.
Qed.

(** *** Sorting indices *)

Lemma insert_by_In (a : list Q) (i : nat) (l : list nat) (j : nat) :
  In j (insert_by a i l) <-> j = i \/ In j l.
Proof.
  induction l as [|x l IH]; simpl; [intuition congruence|].
  destruct (Num.gtb _ _); simpl; rewrite ?IH; intuition congruence.
Qed.

Lemma insert_by_length (a : list Q) (i : nat) (l : list nat) :
  length (insert_by a i l) = S (length l).
Proof.
  induction l as [|x l IH]; simpl; [reflexivity|].
  destruct (Num.gtb _ _); simpl; rewrite ?IH; reflexivity.
Qed.

Lemma argsort_In (a : list Q) (j : nat) : In j (argsort a) <-> (j < length a)%nat.
Proof.
  unfold argsort.
  assert (H : forall is_, In j (foldr (insert_by a) [] is_) <-> In j is_).
  { induction is_ as [|i is_ IH]; simpl; [reflexivity|]. rewrite insert_by_In, IH.
    intuition congruence. }
  rewrite H, in_seq. lia.
Qed.

Lemma argsort_length (a : list Q) : length (argsort a) = length a.
Proof.
  unfold argsort.
  assert (H : forall is_, length (foldr (insert_by a) [] is_) = length is_).
  { induction is_ as [|i is_ IH]; simpl; [reflexivity|].
    rewrite insert_by_length, IH. reflexivity. }
  rewrite H. apply length_seq.
Qed.

(** *** The top-K pre-filter *)

(** With at least one candidate and fewer than [k], the partition index
    [k - 1] is out of bounds. *)
Lemma top_k_out_of_bounds (conf : list Q) (k : nat) :
  (1 <= length conf < k)%nat -> top_k conf k = Raise ValueError.
Proof.
  intros H. unfold top_k, argpartition. rewrite length_fmap.
  replace (Z.of_nat (length conf) =? 0)%Z with false
    by (symmetry; apply Z.eqb_neq; lia).
  replace (Z.of_nat k - 1 <? Z.of_nat (length conf))%Z with false
    by (symmetry; apply Z.ltb_ge; lia).
  rewrite andb_false_r. reflexivity.
Qed.

(** Without candidates nothing is selected and nothing is raised. *)
Lemma top_k_empty (k : nat) : top_k [] k = Ok [].
Proof. unfold top_k. destruct k; reflexivity. Qed.

(** With at least [k >= 1] candidates the selection returns valid
    positions. *)
Lemma top_k_total (conf : list Q) (k : nat) :
  (1 <= k <= length conf)%nat ->
  exists idx, top_k conf k = Ok idx /\ Forall (fun i => (i < length conf)%nat) idx.
Proof.
  intros H. unfold top_k, argpartition. rewrite length_fmap.
  replace (- Z.of_nat (length conf) <=? Z.of_nat k - 1)%Z with true
    by (symmetry; apply Z.leb_le; lia).
  replace (Z.of_nat k - 1 <? Z.of_nat (length conf))%Z with true
    by (symmetry; apply Z.ltb_lt; lia).
  rewrite orb_true_r. cbn [mbind result_bind].
  set (neg := Qopp <$> conf).
  assert (Hidx : Forall (fun i => (i < length neg)%nat) (take k (argsort neg))).
  { apply Forall_take, Forall_forall. intros i Hi.
    apply list_elem_of_In, argsort_In in Hi. exact Hi. }
  destruct (gather_total neg _ Hidx) as [keys Hkeys]. rewrite Hkeys.
  assert (Hpos : Forall (fun j => (j < length (take k (argsort neg)))%nat) (argsort keys)).
  { apply Forall_forall. intros j Hj. apply list_elem_of_In, argsort_In in Hj.
    apply gather_length in Hkeys. lia. }
  destruct (gather_total _ _ Hpos) as [idx Hg]. exists idx. split; [exact Hg|].
  apply Forall_forall. intros i Hi. apply list_elem_of_In in Hi.
  apply (gather_In _ _ _ _ Hg) in Hi.
  rewrite Forall_forall in Hidx. apply list_elem_of_In, Hidx in Hi.
  unfold neg in Hi. rewrite length_fmap in Hi. exact Hi.
Qed.

(** *** Confidence filter and NMS *)

(** Inversion of a chain of binds that returned a value. *)
Ltac bind_inv H :=
  unfold mbind, result_bind, mret, result_ret in H;
  repeat match type of H with
         | context [match ?e with Ok _ => _ | Raise _ => _ end] =>
             let E := fresh "E" in destruct e eqn:E; [|discriminate H]
         end.

Lemma candidates_lengths t k y boxes scores cids :
  candidates t k y = Ok (boxes, scores, cids) ->
  length boxes = length scores /\ length cids = length scores.
Proof.
  intros H. unfold candidates in H. bind_inv H. injection H as <- <- <-.
  repeat match goal with E : gather _ _ = Ok _ |- _ => apply gather_length in E end.
  rewrite length_map. lia.
Qed.

Lemma filter_map_snd {A B} (p : B -> bool) (l : list (A * B)) :
  map snd (List.filter (fun c => p (snd c)) l) = List.filter p (map snd l).
Proof.
  induction l as [|x l IH]; simpl; [reflexivity|].
  destruct (p (snd x)); simpl; rewrite IH; reflexivity.
Qed.

Lemma map_snd_zip_seq {B} (l : list B) : map snd (zip (seq 0 (length l)) l) = l.
Proof. apply (snd_zip (seq 0 (length l)) l). rewrite length_seq. reflexivity. Qed.

(** The indices returned by [NMSBoxes] are positions of [rects], as many as
    greedy NMS keeps among the rectangles over the score threshold. *)
Lemma NMSBoxes_spec (rects : list NMS.Rect) (scores : list Q) (st nt : Q) :
  length rects = length scores ->
  Forall (fun j => (j < length rects)%nat) (NMS.NMSBoxes rects scores st nt) /\
  length (NMS.NMSBoxes rects scores st nt) =
  length (NMS.nms fst snd nt (List.filter (over st) (zip rects scores))).
Proof.
  intros Hlen. unfold NMS.NMSBoxes.
  set (cands := zip (seq 0 (length rects)) (zip rects scores)).
  set (kept := List.filter (fun c => Num.geb (snd (snd c)) st) cands).
  split.
  - apply Forall_forall. intros j Hj.
    apply list_elem_of_fmap in Hj as (c & -> & Hc). apply list_elem_of_In in Hc.
    apply NMSFacts.nms_In in Hc. apply filter_In in Hc as [Hc _].
    apply list_elem_of_In in Hc. destruct c as [i r].
    apply elem_of_zip_l in Hc. apply list_elem_of_In, in_seq in Hc. simpl. lia.
  - rewrite length_fmap.
    rewrite <- (length_map snd (NMS.nms _ _ nt kept)).
    rewrite <- (NMSFacts.nms_map (fun c => fst (snd c)) (fun c => snd (snd c)) fst snd snd)
      by reflexivity.
    unfold kept. rewrite (filter_map_snd (fun r => Num.geb (snd r) st)).
    unfold cands. replace (length rects) with (length (zip rects scores)).
    + rewrite map_snd_zip_seq. reflexivity.
    + rewrite length_zip. lia.
Qed.

(** What [suppress] returns for parallel arrays of equal length: always a
    value, with as many detections as greedy NMS over all candidates keeps
    at or above the confidence threshold. *)
Lemma suppress_length (ct it : Q) (boxes : list Box) (scores : list Q) (cids : list Z) :
  length boxes = length scores -> length cids = length scores ->
  exists dets,
    suppress ct it (boxes, scores, cids) = Ok dets /\
    length dets = length (List.filter (over ct) (NMS.nms fst snd it (scored_rects boxes scores))).
Proof.
  intros Hb Hc. unfold suppress.
  set (mask := map (fun s => Num.geb s ct) scores).
  assert (Hm : length mask = length scores) by apply length_map.
  rewrite !compress_Ok by congruence. cbn [mbind result_bind].
  assert (Hsel : zip (map rect_of_box (select mask boxes)) (select mask scores) =
                 List.filter (over ct) (scored_rects boxes scores)).
  { rewrite <- select_map. unfold mask, scored_rects.
    rewrite (select_zip (fun s => Num.geb s ct)) by (rewrite length_map; exact Hb).
    reflexivity. }
  assert (Hidem : List.filter (over ct) (List.filter (over ct) (scored_rects boxes scores)) =
                  List.filter (over ct) (scored_rects boxes scores)).
  { apply NMSFacts.filter_all. intros c Hc'. now apply filter_In in Hc' as [_ ?]. }
  assert (HB : length (select mask boxes) = length (select mask scores))
    by (now apply select_length).
  assert (HC : length (select mask cids) = length (select mask scores))
    by (now apply select_length).
  rewrite <- (NMSFacts.nms_filter_score fst snd it ct). fold (over ct).
  destruct (Nat.eqb_spec (length (select mask boxes)) 0) as [E0 | NE0].
  - exists []. split; [reflexivity|].
    rewrite <- Hsel. destruct (select mask boxes); [|discriminate].
    simpl. rewrite NMSFacts.nms_nil. reflexivity.
  - destruct (NMSBoxes_spec (map rect_of_box (select mask boxes)) (select mask scores) ct it)
      as [Hidx Hn]; [rewrite length_map; exact HB|].
    rewrite Hsel, Hidem in Hn. rewrite <- Hn.
    match goal with |- exists dets, mapM ?f ?l = _ /\ _ =>
      destruct (mapM_total f l) as [dets Hd] end.
    + eapply Forall_impl; [exact Hidx|]. intros j Hj. rewrite length_map in Hj.
      unfold mbind, result_bind, mret, result_ret.
      destruct (getitem_total (map rect_of_box (select mask boxes)) j) as [r ->];
        [rewrite length_map; exact Hj|].
      destruct (getitem_total (select mask cids) j) as [c ->]; [lia|].
      destruct (getitem_total (select mask scores) j) as [s0 ->]; [lia|].
      eexists; reflexivity.
    + exists dets. split; [exact Hd|]. now apply mapM_length in Hd.
Qed.

Lemma filter_over_le (c1 c2 : Q) (l : list (NMS.Rect * Q)) :
  (c1 <= c2)%Q ->
  (length (List.filter (over c2) l) <= length (List.filter (over c1) l))%nat.
Proof.
  intros Hc. induction l as [|r l IH]; simpl; [lia|].
  destruct (over c2 r) eqn:H2.
  - assert (H1 : over c1 r = true).
    { unfold over in *. apply NMSFacts.geb_true. apply NMSFacts.geb_true in H2.
      now apply Qle_trans with c2. }
    rewrite H1. simpl. lia.
  - destruct (over c1 r); simpl; lia.
Qed.

(** C6. The decoder's output size is antitone in the confidence threshold:
    for every input tensor, letterbox transform, [iou_thres] and [top_k],
    and thresholds [c1 <= c2], either both runs raise the same exception
    (the threshold plays no part in it) or both return, and the run with
    [conf_thres = c2] returns at most as many detections as the run with
    [conf_thres = c1]. *)
Theorem decode_antitone_in_conf_thres (y : ndarray3) (t : Letterbox.LetterboxTransform)
    (it : Q) (k : nat) (c1 c2 : Q) :
  (c1 <= c2)%Q ->
  match decode y t c1 it k, decode y t c2 it k with
  | Ok d1, Ok d2 => (length d2 <= length d1)%nat
  | Raise e1, Raise e2 => e1 = e2
  | _, _ => False
  end.
Proof.
  intros Hc. unfold decode. destruct (candidates t k y) as [[[boxes scores] cids]|e] eqn:E.
  - cbn [mbind result_bind].
    destruct (candidates_lengths _ _ _ _ _ _ E) as [Hb Hi].
    destruct (suppress_length c1 it boxes scores cids Hb Hi) as (d1 & -> & H1).
    destruct (suppress_length c2 it boxes scores cids Hb Hi) as (d2 & -> & H2).
    rewrite H1, H2. now apply filter_over_le.
  - reflexivity.
Qed.

Lemma decode_antitone_in_conf_thres_witness :
  match decode Examples.raw3 Examples.t_hd (1 # 10) iou_thres 3,
        decode Examples.raw3 Examples.t_hd (1 # 2) iou_thres 3 with
  | Ok d1, Ok d2 => (length d2 <= length d1)%nat
  | Raise e1, Raise e2 => e1 = e2
  | _, _ => False
  end.
Proof.
  apply (decode_antitone_in_conf_thres Examples.raw3 Examples.t_hd iou_thres 3 (1 # 10) (1 # 2)).
  vm_compute. discriminate.
Defined.

(** Below the cap, with at least one candidate, [decode] stops at the
    top-K selection. *)
Lemma decode_below_top_k (y : ndarray3) (t : Letterbox.LetterboxTransform)
    (ct it : Q) (k : nat) (rows : ndarray2) (c : Columns) :
  normalise y = Ok rows -> split_columns rows = Ok c ->
  (1 <= length rows < k)%nat ->
  top_k (confidences c) k = Raise ValueError /\ decode y t ct it k = Raise ValueError.
Proof.
  intros Hn Hs Hk.
  destruct (split_columns_lengths _ _ Hs) as (_ & Hconf & _).
  assert (Htop : top_k (confidences c) k = Raise ValueError)
    by (apply top_k_out_of_bounds; lia).
  split; [exact Htop|].
  unfold decode, candidates. rewrite Hn. cbn [mbind result_bind].
  rewrite Hs. cbn [mbind result_bind]. rewrite Htop. reflexivity.
Qed.

(** C9, as amended. The top-K pre-filter is partial: for every input tensor
    that normalises to [N] candidate rows of seven channels with
    [1 <= N < top_k] (the cap is 200 in the script), the selection
    [np.argpartition(-conf, top_k - 1)] raises the out-of-bounds
    ValueError and so does [decode]; hence [decode] returns only when
    [N = 0] or [N >= top_k], and never falls back to returning all [N]
    candidates. *)
Theorem decode_partial_below_top_k (y : ndarray3) (t : Letterbox.LetterboxTransform)
    (ct it : Q) (k : nat) (rows : ndarray2) (c : Columns) :
  normalise y = Ok rows -> split_columns rows = Ok c ->
  ((1 <= length rows < k)%nat ->
     top_k (confidences c) k = Raise ValueError /\ decode y t ct it k = Raise ValueError) /\
  (forall dets, decode y t ct it k = Ok dets ->
     (length rows = 0)%nat \/ (k <= length rows)%nat).
Proof.
  intros Hn Hs. split; [apply decode_below_top_k; assumption|].
  intros dets Hd.
  destruct (Nat.eq_dec (length rows) 0%nat) as [H0 | H0]; [left; exact H0 | right].
  destruct (Nat.le_gt_cases k (length rows)) as [Hle | Hgt]; [exact Hle|].
  destruct (decode_below_top_k y t ct it k rows c Hn Hs) as [_ Hr]; [lia|]. congruence.
Qed.

Lemma decode_partial_below_top_k_witness :
  top_k (confidences Examples.cols3) K = Raise ValueError /\
  decode Examples.raw3 Examples.t_hd conf_thres iou_thres K = Raise ValueError.
Proof.
  refine (proj1 (decode_partial_below_top_k Examples.raw3 Examples.t_hd conf_thres iou_thres K
                   (transpose2 (hd [] Examples.raw3)) Examples.cols3 _ _) _).
  - vm_compute. reflexivity.
  - vm_compute. reflexivity.
  - vm_compute. lia.
Defined.

(** C9 as stated fails without candidates: the tensor of shape [1,7,0]
    has [N = 0 < 200] candidates, yet the selection raises nothing (NumPy
    does not test [kth] on an empty array) and [decode] returns the empty
    sequence. *)
Lemma decode_partial_counterexample :
  shape Examples.raw0 = (1, 7, 0)%nat /\
  normalise Examples.raw0 = Ok [] /\
  split_columns [] = Ok Examples.cols0 /\
  (length (confidences Examples.cols0) < K)%nat /\
  top_k (confidences Examples.cols0) K = Ok [] /\
  decode Examples.raw0 Examples.t_hd conf_thres iou_thres K = Ok [].
Proof.
  repeat split; try (vm_compute; reflexivity). vm_compute. lia.
Qed.

Lemma select_none {A} (mask : list bool) (l : list A) :
  Forall (fun m => m = false) mask -> select mask l = [].
Proof.
  intros H. revert l. induction H as [|m ms -> _ IH]; intros [|x l]; simpl; auto.
Qed.

(** Where the empty branch is reached: for every input tensor that
    normalises to at least [top_k >= 1] candidate rows of seven channels,
    none of whose fused scores reaches [conf_thres], [decode] returns the
    empty sequence as an ordinary value ([Ok []]), distinct from every
    raised exception. *)
Lemma decode_empty_when_none_passes (y : ndarray3) (t : Letterbox.LetterboxTransform)
    (ct it : Q) (k : nat) (rows : ndarray2) (c : Columns) :
  normalise y = Ok rows -> split_columns rows = Ok c ->
  (1 <= k <= length rows)%nat ->
  Forall (fun s => (s < ct)%Q) (confidences c) ->
  decode y t ct it k = Ok [] /\ forall e, decode y t ct it k <> Raise e.
Proof.
  intros Hn Hs Hk Hlow.
  destruct (split_columns_lengths _ _ Hs) as (Hstack & Hconf & Hcls).
  destruct (top_k_total (confidences c) k) as (idx & Htop & Hidx); [lia|].
  destruct (gather_total (stack4 c) idx) as [boxes Hb]; [now rewrite Hstack, <- Hconf|].
  destruct (gather_total (confidences c) idx) as [scores Hsc]; [exact Hidx|].
  destruct (gather_total (class_ids c) idx) as [cids Hci]; [now rewrite Hcls, <- Hconf|].
  assert (Hdec : decode y t ct it k = Ok []).
  { unfold decode, candidates. rewrite Hn. cbn [mbind result_bind].
    rewrite Hs. cbn [mbind result_bind]. rewrite Htop. cbn [mbind result_bind].
    rewrite Hb. cbn [mbind result_bind]. rewrite Hsc. cbn [mbind result_bind].
    rewrite Hci. cbn [mbind result_bind mret result_ret].
    unfold suppress.
    set (mask := map (fun s => Num.geb s ct) scores).
    assert (Hmask : Forall (fun m => m = false) mask).
    { apply Forall_forall. intros m Hm. apply list_elem_of_In, in_map_iff in Hm as (s & <- & Hin).
      apply NMSFacts.geb_false. rewrite Forall_forall in Hlow.
      apply Hlow, list_elem_of_In. eapply gather_In; eassumption. }
    apply gather_length in Hb, Hsc, Hci.
    rewrite !compress_Ok by (unfold mask; rewrite !length_map; congruence).
    cbn [mbind result_bind]. rewrite (select_none mask (map (unletterbox t) boxes) Hmask).
    reflexivity. }
  split; [exact Hdec|]. intros e He. congruence.
Qed.

Lemma forallb_below (ct : Q) (l : list Q) :
  forallb (fun s => negb (Num.geb s ct)) l = true -> Forall (fun s => (s < ct)%Q) l.
Proof.
  intros H. apply Forall_forall. intros s Hs. apply list_elem_of_In in Hs.
  rewrite forallb_forall in H. apply H in Hs.
  apply NMSFacts.geb_false. now apply negb_true_iff.
Qed.

Lemma decode_empty_at_200_low :
  decode Examples.raw200_low Examples.t_hd conf_thres iou_thres K = Ok [] /\
  forall e, decode Examples.raw200_low Examples.t_hd conf_thres iou_thres K <> Raise e.
Proof.
  apply (decode_empty_when_none_passes Examples.raw200_low Examples.t_hd conf_thres iou_thres K
           (repeat Examples.low_row 200) Examples.cols200_low).
  - vm_compute. reflexivity.
  - vm_compute. reflexivity.
  - vm_compute. lia.
  - apply forallb_below. vm_compute. reflexivity.
Defined.

(** C7 (the code departs from it). For every input tensor that normalises
    to [N] candidate rows of seven channels with [1 <= N < top_k], none of
    whose fused scores reaches [conf_thres], [decode] does not return the
    empty sequence: it raises ValueError at the top-K selection, which
    comes before the confidence filter and the script's own empty branch
    (line 77). *)
Theorem decode_raises_though_none_passes (y : ndarray3) (t : Letterbox.LetterboxTransform)
    (ct it : Q) (k : nat) (rows : ndarray2) (c : Columns) :
  normalise y = Ok rows -> split_columns rows = Ok c ->
  (1 <= length rows < k)%nat ->
  Forall (fun s => (s < ct)%Q) (confidences c) ->
  decode y t ct it k = Raise ValueError /\ decode y t ct it k <> Ok [].
Proof.
  intros Hn Hs Hk _.
  destruct (decode_below_top_k y t ct it k rows c Hn Hs Hk) as [_ Hr].
  split; [exact Hr|]. rewrite Hr. discriminate.
Qed.

Lemma decode_raises_though_none_passes_witness :
  decode Examples.raw1_low Examples.t_hd conf_thres iou_thres K = Raise ValueError /\
  decode Examples.raw1_low Examples.t_hd conf_thres iou_thres K <> Ok [].
Proof.
  apply (decode_raises_though_none_passes Examples.raw1_low Examples.t_hd conf_thres iou_thres K
           [Examples.low_row] Examples.cols1_low).
  - vm_compute. reflexivity.
  - vm_compute. reflexivity.
  - vm_compute. lia.
  - apply forallb_below. vm_compute. reflexivity.
Defined.

End DecodeFacts.

(** ** The graph rewrite *)

Module InjectFacts.

Import Py Nd Onnx Inject.

Lemma make_slice_col_eq (g : GraphProto) (src : string) (start end_ : Z) (out : string) :
  make_slice_col g src start end_ out =
  (mkGraph (node g) (initializer g ++ slice_initializers out start end_)
           (value_info g) (g_input g) (g_output g),
   slice_node src out).
Proof. reflexivity. Qed.

(** The patched graph in closed form. *)
Lemma augment_eq (g : GraphProto) (o : ValueInfoProto) (outs : list ValueInfoProto) :
  g_output g = o :: outs ->
  augment g =
  Ok (mkGraph
        (map (rename_outputs (vi_name o) (vi_name o +:+ "_raw")) (node g)
           ++ appended_nodes (vi_name o +:+ "_raw"))
        (initializer g ++ appended_initializers)
        (value_info g ++
           [make_tensor_value_info (vi_name o +:+ "_raw") FLOAT
              [DimValue 1; DimValue 7; DimParam "unk"]])
        (g_input g)
        (removelast (o :: outs) ++
           [make_tensor_value_info "post_dets" FLOAT [DimValue 1; DimParam "unk"; DimValue 6]])).
Proof.
  intros Hout. unfold augment. rewrite Hout. cbn [getitem lookup list_lookup mbind result_bind].
  repeat (rewrite make_slice_col_eq; cbn [node initializer value_info g_input g_output]).
  cbn [mret result_ret]. rewrite <- !app_assoc. reflexivity.
Qed.

(** C10. [augment] only appends to the graph.  For every graph with at
    least one declared output, the first being [o]: the rewrite returns a
    graph whose node list is the old one, each node keeping its op type,
    inputs and attributes and having exactly its output entries equal to
    [o]'s name renamed to that name suffixed with ["_raw"], followed by 12
    new nodes; whose initializers are the old ones followed by 28 new ones;
    whose value infos are the old ones followed by one entry; whose inputs
    are unchanged; and whose output list lost its last binding and gained
    [post_dets], so that for a graph with the single output [o] the new
    output list is [post_dets] alone. *)
Theorem augment_only_appends (g : GraphProto) (o : ValueInfoProto) (outs : list ValueInfoProto) :
  g_output g = o :: outs ->
  let raw_out := vi_name o in
  let raw_new := raw_out +:+ "_raw" in
  let new_out :=
    make_tensor_value_info "post_dets" FLOAT [DimValue 1; DimParam "unk"; DimValue 6] in
  exists g' new_nodes new_inits,
    augment g = Ok g' /\
    node g' = map (rename_outputs raw_out raw_new) (node g) ++ new_nodes /\
    length new_nodes = 12%nat /\
    (forall i n, node g !! i = Some n ->
       exists n', node g' !! i = Some n' /\
         op_type n' = op_type n /\ n_input n' = n_input n /\ attribute n' = attribute n /\
         n_output n' = map (fun x => if String.eqb x raw_out then raw_new else x) (n_output n)) /\
    initializer g' = initializer g ++ new_inits /\
    length new_inits = 28%nat /\
    (forall i t, initializer g !! i = Some t -> initializer g' !! i = Some t) /\
    value_info g' =
      value_info g ++
      [make_tensor_value_info raw_new FLOAT [DimValue 1; DimValue 7; DimParam "unk"]] /\
    g_input g' = g_input g /\
    g_output g' = removelast (o :: outs) ++ [new_out] /\
    (outs = [] -> g_output g' = [new_out]).
Proof.
  intros Hout raw_out raw_new new_out.
  eexists _, (appended_nodes raw_new), appended_initializers.
  split; [apply augment_eq; exact Hout|].
  cbn [node initializer value_info g_input g_output].
  split; [reflexivity|]. split; [reflexivity|]. split.
  { intros i n Hi. exists (rename_outputs raw_out raw_new n). split.
    - apply lookup_app_l_Some. change (map ?f ?l) with (f <$> l).
      rewrite list_lookup_fmap, Hi. reflexivity.
    - repeat split; reflexivity. }
  split; [reflexivity|]. split; [reflexivity|]. split.
  { intros i t Hi. now apply lookup_app_l_Some. }
  split; [reflexivity|]. split; [reflexivity|]. split; [reflexivity|].
  intros ->. reflexivity.
Qed.

Lemma augment_only_appends_witness :
  exists g' new_nodes new_inits,
    augment Examples.g0 = Ok g' /\
    node g' = map (rename_outputs "output0" "output0_raw") (node Examples.g0) ++ new_nodes /\
    length new_nodes = 12%nat /\
    (forall i n, node Examples.g0 !! i = Some n ->
       exists n', node g' !! i = Some n' /\
         op_type n' = op_type n /\ n_input n' = n_input n /\ attribute n' = attribute n /\
         n_output n' =
           map (fun x => if String.eqb x "output0" then "output0_raw" else x) (n_output n)) /\
    initializer g' = initializer Examples.g0 ++ new_inits /\
    length new_inits = 28%nat /\
    (forall i t, initializer Examples.g0 !! i = Some t -> initializer g' !! i = Some t) /\
    value_info g' =
      value_info Examples.g0 ++
      [make_tensor_value_info "output0_raw" FLOAT [DimValue 1; DimValue 7; DimParam "unk"]] /\
    g_input g' = g_input Examples.g0 /\
    g_output g' =
      [make_tensor_value_info "post_dets" FLOAT [DimValue 1; DimParam "unk"; DimValue 6]] /\
    (@nil ValueInfoProto = [] ->
     g_output g' =
       [make_tensor_value_info "post_dets" FLOAT [DimValue 1; DimParam "unk"; DimValue 6]]).
Proof.
  exact (augment_only_appends Examples.g0 (mkValueInfo "output0" FLOAT []) [] eq_refl).
Defined.

(** The slice parameters written by [make_slice_col] cut along axis 1: on
    a [1,N,C] tensor with [start < N] they return the single row [start]
    with all its [C] channels, of shape [1,1,C]. *)
Lemma slice_col_is_candidate_row (rows : ndarray2) (start : nat) (row : list Q) :
  rows !! start = Some row ->
  (Z.of_nat (length row) <= INT64_MAX)%Z ->
  Ort.slice [rows] [0; Z.of_nat start; 0] [1; Z.of_nat start + 1; INT64_MAX] [0; 1; 2] [1; 1; 1]
  = Ok [[row]].
Proof.
  intros Hrow Hlen.
  assert (Hlt : (start < length rows)%nat) by (eapply lookup_lt_Some; exact Hrow).
  cbn [Ort.slice Z.eqb Pos.eqb Ort.slice_axis Z.ltb Z.compare mbind result_bind map].
  assert (H1 : Ort.slice1 (Z.of_nat start) (Z.of_nat start + 1) rows = [row]).
  { unfold Ort.slice1.
    replace (Z.of_nat start <? 0)%Z with false by (symmetry; apply Z.ltb_ge; lia).
    replace (Z.of_nat start + 1 <? 0)%Z with false by (symmetry; apply Z.ltb_ge; lia).
    rewrite (Z.min_r _ (Z.of_nat start)), (Z.min_r _ (Z.of_nat start + 1)) by lia.
    rewrite !Z.max_r by lia.
    replace (Z.to_nat (Z.of_nat start + 1 - Z.of_nat start)) with 1%nat by lia.
    rewrite Nat2Z.id, (drop_S _ _ _ Hrow). reflexivity. }
  assert (H2 : Ort.slice1 0 INT64_MAX row = row).
  { unfold Ort.slice1. cbn [Z.ltb Z.compare INT64_MAX].
    rewrite (Z.min_l _ INT64_MAX) by exact Hlen.
    rewrite Z.min_r, !Z.max_r by lia.
    rewrite Z.sub_0_r, Nat2Z.id. cbn [Z.to_nat drop]. apply firstn_all. }
  change (Ort.slice1 0 1 [rows]) with [rows]. cbn [map].
  rewrite H1. cbn [map]. rewrite H2. reflexivity.
Qed.

(** *** The nodes after the slices

    Fed the channel columns the docstring of [make_slice_col] describes, the
    Mul, Max, Round and Concat nodes compute the canonical tensor: the
    departure from it lies in the slice parameters alone. *)

Lemma zip_withM_map {R A B C} (h : A -> B -> result C) (u : R -> A) (v : R -> B)
    (w : R -> C) (rows : list R) :
  (forall r, h (u r) (v r) = Ok (w r)) ->
  Ort.zip_withM h (map u rows) (map v rows) = Ok (map w rows).
Proof.
  intros H. unfold Ort.zip_withM.
  induction rows as [|r rows IH]; [reflexivity|].
  cbn [map zip_with]. rewrite DecodeFacts.mapM_cons. cbn [fst snd].
  rewrite H, IH. reflexivity.
Qed.

Lemma broadcast3_columns (f : Q -> Q -> Q) (a b : list Q -> Q) (rows : ndarray2) :
  Ort.broadcast3 f [map (fun r => [a r]) rows] [map (fun r => [b r]) rows]
  = Ok [map (fun r => [f (a r) (b r)]) rows].
Proof.
  unfold Ort.broadcast3.
  assert (H : Ort.broadcast1 (Ort.broadcast1 (fun x y => Ok (f x y)))
                (map (fun r => [a r]) rows) (map (fun r => [b r]) rows)
              = Ok (map (fun r => [f (a r) (b r)]) rows)).
  { unfold Ort.broadcast1 at 1. rewrite !length_map, Nat.eqb_refl.
    apply zip_withM_map. intros r. reflexivity. }
  unfold Ort.broadcast1 at 1. cbn [length Nat.eqb].
  unfold Ort.zip_withM. cbn [zip_with]. rewrite DecodeFacts.mapM_cons. cbn [fst snd].
  rewrite H. reflexivity.
Qed.

Lemma concat2_rows (u v : list Q -> list Q) (rows : ndarray2) :
  Ort.concat2 2 [map u rows] [map v rows] = Ok [map (fun r => u r ++ v r) rows].
Proof.
  unfold Ort.concat2. cbn [Z.ltb Z.compare].
  unfold Ort.same_length at 1. cbn [length Nat.eqb].
  unfold Ort.zip_withM at 1. cbn [zip_with]. rewrite DecodeFacts.mapM_cons. cbn [fst snd].
  unfold Ort.same_length at 1. rewrite !length_map, Nat.eqb_refl.
  rewrite (zip_withM_map _ u v (fun r => u r ++ v r)) by reflexivity.
  reflexivity.
Qed.

Lemma float_inputs_Ok (env : gmap string Ort.value) (n : NodeProto) (ts : list ndarray3) :
  Forall2 (fun name t => env !! name = Some (Ort.VFloat t)) (n_input n) ts ->
  Ort.float_inputs env n = Ok ts.
Proof.
  intros H. apply DecodeFacts.mapM_Ok. eapply Forall2_impl; [exact H|].
  intros name t Hl. unfold Ort.fetch. rewrite Hl. reflexivity.
Qed.

(** These are the nodes a patched graph ends with. *)
Lemma augment_ends_with_fuse_nodes (g g' : GraphProto) :
  augment g = Ok g' -> exists pre, node g' = pre ++ fuse_nodes /\ length pre = (length (node g) + 8)%nat.
Proof.
  intros H. destruct (g_output g) as [|o outs] eqn:Hout.
  { unfold augment in H. rewrite Hout in H. discriminate. }
  rewrite (augment_eq g o outs Hout) in H. injection H as <-. cbn [node].
  eexists (_ ++ [_; _; _; _; _; _; _; _]). split.
  - rewrite <- app_assoc. reflexivity.
  - rewrite length_app, length_map. reflexivity.
Qed.

(** For every raw tensor: with [c_x1 .. c_f6] bound to the seven channel
    columns of shape [1,N,1], the nodes of lines 57-69 bind [post_dets] to
    the canonical [1,N,6] tensor. *)
Lemma fuse_nodes_on_columns (raw : ndarray3) (env : gmap string Ort.value) :
  env !! "c_x1" = Some (Ort.VFloat (Canonical.column 0 raw)) ->
  env !! "c_y1" = Some (Ort.VFloat (Canonical.column 1 raw)) ->
  env !! "c_x2" = Some (Ort.VFloat (Canonical.column 2 raw)) ->
  env !! "c_y2" = Some (Ort.VFloat (Canonical.column 3 raw)) ->
  env !! "c_f4" = Some (Ort.VFloat (Canonical.column 4 raw)) ->
  env !! "c_f5" = Some (Ort.VFloat (Canonical.column 5 raw)) ->
  env !! "c_f6" = Some (Ort.VFloat (Canonical.column 6 raw)) ->
  exists env',
    Ort.run_nodes env fuse_nodes = Ok env' /\
    env' !! "post_dets" = Some (Ort.VFloat (Canonical.tensor raw)).
Proof.
  intros H0 H1 H2 H3 H4 H5 H6.
  set (rows := Canonical.candidate_rows raw).
  set (scoreA := [map (fun r : list Q => [(nth 4 r 0 * nth 6 r 0)%Q]) rows]).
  set (score := [map (fun r : list Q => [Qmax (nth 4 r 0 * nth 6 r 0) (nth 4 r 0)]%Q) rows]).
  set (cls := [map (fun r : list Q => [inject_Z (Num.round_half_even (nth 5 r 0%Q))]) rows]).
  set (env1 := <["scoreA" := Ort.VFloat scoreA]> env).
  set (env2 := <["score" := Ort.VFloat score]> env1).
  set (env3 := <["cls_id" := Ort.VFloat cls]> env2).
  assert (E1 : Ort.eval_node env (make_node "Mul" ["c_f4"; "c_f6"] ["scoreA"] []) = Ok env1).
  { unfold Ort.eval_node, Ort.eval_op, make_node. cbn [op_type n_output].
    rewrite (float_inputs_Ok env _ [Canonical.column 4 raw; Canonical.column 6 raw])
      by (repeat constructor; assumption).
    cbn [mbind result_bind]. unfold Canonical.column. fold rows.
    rewrite broadcast3_columns. reflexivity. }
  assert (E2 : Ort.eval_node env1 (make_node "Max" ["scoreA"; "c_f4"] ["score"] []) = Ok env2).
  { unfold Ort.eval_node, Ort.eval_op, make_node. cbn [op_type n_output].
    rewrite (float_inputs_Ok env1 _ [scoreA; Canonical.column 4 raw]).
    2:{ repeat constructor; unfold env1.
        - apply lookup_insert_eq.
        - rewrite lookup_insert_ne by done. exact H4. }
    cbn [mbind result_bind Ort.fold_from]. unfold scoreA, Canonical.column. fold rows.
    rewrite (broadcast3_columns Qmax (fun r : list Q => (nth 4 r 0 * nth 6 r 0)%Q)
               (fun r : list Q => nth 4 r 0%Q)).
    reflexivity. }
  assert (E3 : Ort.eval_node env2 (make_node "Round" ["c_f5"] ["cls_id"] []) = Ok env3).
  { unfold Ort.eval_node, Ort.eval_op, make_node. cbn [op_type n_output].
    rewrite (float_inputs_Ok env2 _ [Canonical.column 5 raw]).
    2:{ repeat constructor; unfold env2, env1. rewrite !lookup_insert_ne by done. exact H5. }
    cbn [mbind result_bind]. unfold Canonical.column. fold rows.
    cbn [map]. rewrite !map_map. reflexivity. }
  assert (E4 : Ort.eval_node env3
                 (make_node "Concat" ["c_x1"; "c_y1"; "c_x2"; "c_y2"; "score"; "cls_id"]
                            ["post_dets"] [("axis", AttrInt 2)])
               = Ok (<["post_dets" := Ort.VFloat (Canonical.tensor raw)]> env3)).
  { unfold Ort.eval_node, Ort.eval_op, make_node. cbn [op_type n_output].
    rewrite (float_inputs_Ok env3 _
               [Canonical.column 0 raw; Canonical.column 1 raw; Canonical.column 2 raw;
                Canonical.column 3 raw; score; cls]).
    2:{ repeat constructor; unfold env3, env2, env1;
          repeat first [ rewrite lookup_insert_eq; reflexivity
                       | rewrite lookup_insert_ne by done ];
          assumption. }
    cbn [mbind result_bind]. unfold Ort.attr.
    cbn [attribute List.find fst snd String.eqb Ascii.eqb Bool.eqb].
    cbn [mbind result_bind].
    unfold cls, score, Canonical.column, Canonical.tensor. fold rows.
    cbn [Ort.concat_from].
    rewrite concat2_rows. cbn [mbind result_bind].
    rewrite concat2_rows. cbn [mbind result_bind].
    rewrite concat2_rows. cbn [mbind result_bind].
    rewrite concat2_rows. cbn [mbind result_bind].
    rewrite concat2_rows. cbn [mbind result_bind fmap result_fmap app].
    reflexivity. }
  unfold fuse_nodes. cbn [Ort.run_nodes].
  rewrite E1. cbn [mbind result_bind]. rewrite E2. cbn [mbind result_bind].
  rewrite E3. cbn [mbind result_bind]. rewrite E4. cbn [mbind result_bind].
  eexists. split; [reflexivity|]. apply lookup_insert_eq.
Qed.

(** C2 (the code departs from it). On the graph [g0] fed the [1,7,8] tensor
    [raw8], the seven slice nodes inserted by [augment] do not return
    channel columns of shape [1,8,1]: slice [i] returns the row of
    candidate [i] with its seven channels, of shape [1,1,7]. *)
Theorem slices_return_candidate_rows :
  Examples.patched_slices Examples.raw8 =
    Ok (map (fun i => [[nth i (Canonical.candidate_rows Examples.raw8) []]]) (seq 0 7)) /\
  (map shape <$> Examples.patched_slices Examples.raw8) = Ok (repeat (1, 1, 7)%nat 7) /\
  map (fun i => shape (Canonical.column i Examples.raw8)) (seq 0 7) = repeat (1, 8, 1)%nat 7 /\
  Examples.patched_slices Examples.raw8 <>
    Ok (map (fun i => Canonical.column i Examples.raw8) (seq 0 7)).
Proof.
  repeat split; try (vm_compute; reflexivity). vm_compute. discriminate.
Qed.

(** C3 (the code departs from it). The patched [g0] declares the single
    output [post_dets] of shape [1, unk, 6], but fed the [1,7,8] tensor
    [raw8] it returns a tensor of shape [1,1,42]: the rows of candidates
    0-3, then [max(a*b, a)] taken channel by channel over the rows of
    candidates 4 and 6, then the rounded row of candidate 5; not the
    canonical [1,8,6] tensor. *)
Theorem patched_output_is_not_canonical :
  (g_output <$> augment Examples.g0) =
    Ok [make_tensor_value_info "post_dets" FLOAT [DimValue 1; DimParam "unk"; DimValue 6]] /\
  (map shape <$> Examples.patched_output Examples.raw8) = Ok [(1, 1, 42)%nat] /\
  shape (Canonical.tensor Examples.raw8) = (1, 8, 6)%nat /\
  (let row i := nth i (Canonical.candidate_rows Examples.raw8) [] in
   Examples.patched_output Examples.raw8 =
     Ok [[[ row 0%nat ++ row 1%nat ++ row 2%nat ++ row 3%nat ++
            zip_with SelfValid.fuse (row 4%nat) (row 6%nat) ++
            map (fun v => inject_Z (Num.round_half_even v)) (row 5%nat) ]]]) /\
  Examples.patched_output Examples.raw8 <> Ok [Canonical.tensor Examples.raw8].
Proof.
  repeat split; try (vm_compute; reflexivity). vm_compute. discriminate.
Qed.

(** C1 (the code departs from it). On [raw8] the host decoder computes one
    fused score and one class id per candidate, those of the canonical
    tensor, while the patched graph's [score] and [cls_id] tensors hold
    seven values mixing the channels of candidates 4, 5 and 6.  On the
    [1,7,200] tensor [raw200] the host decoder returns 200 detections from
    the raw tensor, and raises ValueError on the patched graph's output,
    which has a single row. *)
Theorem graph_scores_differ_from_host :
  Examples.host_scores Examples.raw8 =
    Ok (map (fun r => nth 4 r 0%Q) (hd [] (Canonical.tensor Examples.raw8)),
        map (fun r => Num.round_half_even (nth 5 r 0%Q)) (hd [] (Canonical.tensor Examples.raw8))) /\
  (fst <$> Examples.host_scores Examples.raw8) =
    Ok (map inject_Z [240000; 241001; 242004; 243009; 244016; 245025; 246036; 247049]) /\
  Examples.patched_scores Examples.raw8 =
    Ok [ [[map inject_Z [24; 11024; 42024; 93024; 164024; 255024; 366024]]];
         [[map inject_Z [5; 105; 205; 305; 405; 505; 605]]] ] /\
  (length <$> SelfValid.decode Examples.raw200 Examples.t_hd
                SelfValid.conf_thres SelfValid.iou_thres SelfValid.K) = Ok 200%nat /\
  (outs ← Examples.patched_output Examples.raw200;
   out ← getitem outs 0;
   SelfValid.decode out Examples.t_hd SelfValid.conf_thres SelfValid.iou_thres SelfValid.K)
  = Raise ValueError.
Proof.
  repeat split; vm_compute; reflexivity.
Qed.

End InjectFacts.

(** * Further properties of the modelled code *)

(** ** Letterbox geometry ([self_valid.py], lines 12-17 and 50-53) *)

Module LetterboxExtra.

Import Letterbox.

Local Open Scope Q_scope.

#[local] Instance round_half_even_proper : Proper (Qeq ==> eq) Num.round_half_even.
Proof.
  intros p q Hpq. unfold Num.round_half_even.
  rewrite (Qfloor_comp _ _ Hpq).
  assert (Hc : (p - inject_Z (Qfloor q) ?= 1 # 2) = (q - inject_Z (Qfloor q) ?= 1 # 2))
    by (now rewrite Hpq).
  rewrite Hc. reflexivity.
Qed.

Lemma round_half_even_Z (n : Z) : Num.round_half_even (inject_Z n) = n.
Proof.
  unfold Num.round_half_even. rewrite Qfloor_Z.
  assert (H : (inject_Z n - inject_Z n ?= 1 # 2) = Lt) by (rewrite <- Qlt_alt; lra).
  rewrite H. reflexivity.
Qed.

Lemma round_half_even_nonneg (q : Q) : 0 <= q -> (0 <= Num.round_half_even q)%Z.
Proof.
  intros Hq. unfold Num.round_half_even.
  assert (Hf : (0 <= Qfloor q)%Z).
  { rewrite <- (Qfloor_Z 0). apply Qfloor_resp_le. exact Hq. }
  destruct (q - inject_Z (Qfloor q) ?= 1 # 2); [destruct (Z.even _)| |]; lia.
Qed.

Lemma inject_Z_pos (n : Z) : (1 <= n)%Z -> 0 < inject_Z n.
Proof. intros H. change 0 with (inject_Z 0). rewrite <- Zlt_Qlt. lia. Qed.

Lemma scaled_side_le (a b s : Z) (r : Q) :
  (1 <= a)%Z -> r <= inject_Z s / inject_Z a -> inject_Z a * r <= inject_Z s.
Proof.
  intros Ha Hr. pose proof (inject_Z_pos a Ha) as Ha'.
  apply Qle_trans with (inject_Z a * (inject_Z s / inject_Z a)).
  - apply Qmult_le_l; assumption.
  - apply Qle_lteq. right. field. lra.
Qed.

(** The resized image fits the canvas: for every non-empty image and
    positive canvas size, the new size is between 0 and [imgsz] on both
    sides, the paddings are non-negative, the pasted region
    [[pad, pad + new)] stays inside the canvas, and the margin left after
    the region exceeds the padding before it by 0 or 1 (floor division). *)
Theorem compute_fits_canvas (w0 h0 imgsz : Z) :
  (1 <= w0)%Z -> (1 <= h0)%Z -> (1 <= imgsz)%Z ->
  let t := compute w0 h0 imgsz in
  (0 <= new_w t <= imgsz)%Z /\ (0 <= new_h t <= imgsz)%Z /\
  (0 <= pad_x t)%Z /\ (pad_x t + new_w t <= imgsz)%Z /\
  (0 <= pad_y t)%Z /\ (pad_y t + new_h t <= imgsz)%Z /\
  (0 <= imgsz - new_w t - 2 * pad_x t <= 1)%Z /\
  (0 <= imgsz - new_h t - 2 * pad_y t <= 1)%Z.
Proof.
  intros Hw Hh Ht. cbv zeta. unfold compute. cbn [new_w new_h pad_x pad_y].
  set (r := Qmin (inject_Z imgsz / inject_Z w0) (inject_Z imgsz / inject_Z h0)).
  pose proof (inject_Z_pos _ Hw) as Hw'. pose proof (inject_Z_pos _ Hh) as Hh'.
  pose proof (inject_Z_pos _ Ht) as Ht'.
  assert (Hr : 0 < r) by (unfold r; apply Q.min_glb_lt; apply Qlt_shift_div_l; lra).
  assert (Hnw : (0 <= Num.round_half_even (inject_Z w0 * r) <= imgsz)%Z).
  { split.
    - apply round_half_even_nonneg. apply Qmult_le_0_compat; lra.
    - apply LetterboxFacts.round_half_even_le, (scaled_side_le w0 h0); [exact Hw|].
      apply Q.le_min_l. }
  assert (Hnh : (0 <= Num.round_half_even (inject_Z h0 * r) <= imgsz)%Z).
  { split.
    - apply round_half_even_nonneg. apply Qmult_le_0_compat; lra.
    - apply LetterboxFacts.round_half_even_le, (scaled_side_le h0 w0); [exact Hh|].
      apply Q.le_min_r. }
  set (nw := Num.round_half_even (inject_Z w0 * r)) in *.
  set (nh := Num.round_half_even (inject_Z h0 * r)) in *.
  pose proof (Z.div_mod (imgsz - nw) 2 ltac:(lia)).
  pose proof (Z.mod_pos_bound (imgsz - nw) 2 ltac:(lia)).
  pose proof (Z.div_mod (imgsz - nh) 2 ltac:(lia)).
  pose proof (Z.mod_pos_bound (imgsz - nh) 2 ltac:(lia)).
  lia.
Qed.

Lemma compute_fits_canvas_witness :
  let t := compute 1920 1080 1280 in
  (0 <= new_w t <= 1280)%Z /\ (0 <= new_h t <= 1280)%Z /\
  (0 <= pad_x t)%Z /\ (pad_x t + new_w t <= 1280)%Z /\
  (0 <= pad_y t)%Z /\ (pad_y t + new_h t <= 1280)%Z /\
  (0 <= 1280 - new_w t - 2 * pad_x t <= 1)%Z /\
  (0 <= 1280 - new_h t - 2 * pad_y t <= 1)%Z.
Proof.
  apply (compute_fits_canvas 1920 1080 1280); lia.
Defined.

(** The scale is the largest that fits: the side that limits it fills the
    canvas exactly, so one of the two paddings is zero. *)
Theorem compute_fills_one_side (w0 h0 imgsz : Z) :
  (1 <= w0)%Z -> (1 <= h0)%Z ->
  let t := compute w0 h0 imgsz in
  (new_w t = imgsz /\ pad_x t = 0%Z) \/ (new_h t = imgsz /\ pad_y t = 0%Z).
Proof.
  intros Hw Hh. cbv zeta. unfold compute. cbn [new_w new_h pad_x pad_y].
  pose proof (inject_Z_pos _ Hw) as Hw'. pose proof (inject_Z_pos _ Hh) as Hh'.
  destruct (Q.min_spec (inject_Z imgsz / inject_Z w0) (inject_Z imgsz / inject_Z h0))
    as [[_ E] | [_ E]]; [left | right]; rewrite E.
  - assert (Hs : inject_Z w0 * (inject_Z imgsz / inject_Z w0) == inject_Z imgsz)
      by (field; lra).
    rewrite Hs, round_half_even_Z, Z.sub_diag. split; reflexivity.
  - assert (Hs : inject_Z h0 * (inject_Z imgsz / inject_Z h0) == inject_Z imgsz)
      by (field; lra).
    rewrite Hs, round_half_even_Z, Z.sub_diag. split; reflexivity.
Qed.

Lemma compute_fills_one_side_witness :
  let t := compute 1080 1920 640 in
  (new_w t = 640%Z /\ pad_x t = 0%Z) \/ (new_h t = 640%Z /\ pad_y t = 0%Z).
Proof.
  apply (compute_fills_one_side 1080 1920 640); lia.
Defined.

(** *** The inverse map never leaves the image *)

Lemma clip_range (a lo hi : Q) : lo <= hi -> lo <= Num.clip a lo hi /\ Num.clip a lo hi <= hi.
Proof.
  intros H. unfold Num.clip. split.
  - apply Q.min_glb; [apply Q.le_max_r | exact H].
  - apply Q.le_min_r.
Qed.

Lemma clip_mono (a b lo hi : Q) : a <= b -> Num.clip a lo hi <= Num.clip b lo hi.
Proof.
  intros H. unfold Num.clip.
  apply Q.min_le_compat_r, Q.max_le_compat_r. exact H.
Qed.

Lemma unletterbox_x_range (t : LetterboxTransform) (x : Q) :
  (1 <= orig_w t)%Z ->
  0 <= unletterbox_x t x /\ unletterbox_x t x <= inject_Z (orig_w t - 1).
Proof.
  intros H. apply clip_range. change 0 with (inject_Z 0). rewrite <- Zle_Qle. lia.
Qed.

Lemma unletterbox_y_range (t : LetterboxTransform) (y : Q) :
  (1 <= orig_h t)%Z ->
  0 <= unletterbox_y t y /\ unletterbox_y t y <= inject_Z (orig_h t - 1).
Proof.
  intros H. apply clip_range. change 0 with (inject_Z 0). rewrite <- Zle_Qle. lia.
Qed.

Lemma unscale_mono (s p a b : Q) : 0 < s -> a <= b -> (a - p) / s <= (b - p) / s.
Proof.
  intros Hs Hab. unfold Qdiv. apply Qmult_le_compat_r; [lra|].
  apply Qlt_le_weak, Qinv_lt_0_compat. exact Hs.
Qed.

(** Truncation toward zero lies between the number and zero. *)
Lemma trunc_nonneg (q : Q) : 0 <= q -> Num.trunc q = Qfloor q.
Proof.
  intros H. destruct q as [n d]. unfold Num.trunc, Qfloor. cbn [Qnum Qden].
  apply Z.quot_div_nonneg; [|lia].
  unfold Qle in H. cbn in H. lia.
Qed.

Lemma trunc_nonpos (q : Q) : q <= 0 -> Num.trunc q = Qceiling q.
Proof.
  intros H. destruct q as [n d]. unfold Num.trunc, Qceiling, Qfloor. cbn [Qnum Qden Qopp].
  assert (Hn : (n <= 0)%Z) by (unfold Qle in H; cbn in H; lia).
  replace n with (- - n)%Z at 1 by lia.
  rewrite Z.quot_opp_l by lia. f_equal.
  apply Z.quot_div_nonneg; lia.
Qed.

(** The integer rectangle of an un-letterboxed box has both of its corners
    inside the image, whatever the box. *)
Lemma corner_in_range (a b : Q) (W : Z) :
  0 <= a -> a <= inject_Z W -> 0 <= b -> b <= inject_Z W ->
  (0 <= Num.trunc a <= W)%Z /\ (0 <= Num.trunc a + Num.trunc (b - a) <= W)%Z.
Proof.
  intros Ha0 HaW Hb0 HbW.
  rewrite (trunc_nonneg a Ha0).
  pose proof (Qfloor_le a) as Hfa. pose proof (Qlt_floor a) as Hfa'.
  assert (Hx : (0 <= Qfloor a <= W)%Z).
  { split.
    - rewrite <- (Qfloor_Z 0). now apply Qfloor_resp_le.
    - rewrite <- (Qfloor_Z W). now apply Qfloor_resp_le. }
  split; [exact Hx|].
  destruct (Qlt_le_dec (b - a) 0) as [Hneg | Hpos].
  - rewrite (trunc_nonpos (b - a)) by lra.
    pose proof (Qle_ceiling (b - a)) as Hc. pose proof (Qceiling_lt (b - a)) as Hc'.
    assert (Hc0 : (Qceiling (b - a) <= 0)%Z).
    { rewrite <- (Qceiling_Z 0). apply Qceiling_resp_le. apply Qlt_le_weak. exact Hneg. }
    split; [|lia].
    assert (H : inject_Z (-1) < inject_Z (Qfloor a + Qceiling (b - a))).
    { rewrite inject_Z_plus. rewrite inject_Z_plus in Hfa'.
      change (inject_Z (-1)) with (-1). change (inject_Z 1) with 1 in Hfa'. lra. }
    rewrite <- Zlt_Qlt in H. lia.
  - rewrite (trunc_nonneg (b - a) Hpos).
    pose proof (Qfloor_le (b - a)) as Hfd.
    assert (Hd0 : (0 <= Qfloor (b - a))%Z).
    { rewrite <- (Qfloor_Z 0). now apply Qfloor_resp_le. }
    split; [lia|].
    assert (H : inject_Z (Qfloor a + Qfloor (b - a)) <= inject_Z W).
    { rewrite inject_Z_plus. lra. }
    rewrite <- Zle_Qle in H. exact H.
Qed.

End LetterboxExtra.

(** ** The host decoder ([self_valid.py], lines 26-77) *)

Module DecodeExtra.

Import Py Nd SelfValid DecodeFacts.

(** *** Layout *)

(** A raw tensor decodes the same in either layout: for seven channel rows
    [m] over a number of candidates other than 7, the channel-first tensor
    [[m]] (shape [1,7,N]) and the channel-last tensor [[transpose2 m]]
    (shape [1,N,7]) normalise to the same candidate rows, so [decode]
    returns the same result on both. *)
Theorem decode_layout_independent (m : ndarray2) (t : Letterbox.LetterboxTransform)
    (ct it : Q) (k : nat) :
  length m = 7%nat -> length (hd [] m) <> 7%nat ->
  normalise [m] = Ok (transpose2 m) /\
  normalise [transpose2 m] = Ok (transpose2 m) /\
  decode [transpose2 m] t ct it k = decode [m] t ct it k.
Proof.
  intros H7 HN.
  assert (H1 : normalise [m] = Ok (transpose2 m)).
  { unfold normalise, shape. cbn [hd fst snd]. rewrite H7. reflexivity. }
  assert (H2 : normalise [transpose2 m] = Ok (transpose2 m)).
  { unfold normalise, shape. cbn [hd fst snd].
    replace (length (transpose2 m)) with (length (hd [] m))
      by (unfold transpose2; rewrite length_fmap, length_seq; reflexivity).
    destruct (Nat.eqb_spec (length (hd [] m)) 7); [contradiction|]. reflexivity. }
  repeat split; [exact H1 | exact H2 |].
  unfold decode, candidates. rewrite H1, H2. reflexivity.
Qed.

Lemma decode_layout_independent_witness :
  normalise Examples.raw3 = Ok (transpose2 (hd [] Examples.raw3)) /\
  normalise [transpose2 (hd [] Examples.raw3)] = Ok (transpose2 (hd [] Examples.raw3)) /\
  decode [transpose2 (hd [] Examples.raw3)] Examples.t_hd conf_thres iou_thres 3 =
  decode Examples.raw3 Examples.t_hd conf_thres iou_thres 3.
Proof.
  apply (decode_layout_independent (hd [] Examples.raw3) Examples.t_hd conf_thres iou_thres 3).
  - reflexivity.
  - vm_compute. lia.
Defined.

(** *** When [decode] returns *)

Lemma top_k_length (conf : list Q) (k : nat) idx :
  top_k conf k = Ok idx -> length idx = Nat.min k (length conf).
Proof.
  unfold top_k, argpartition. destruct (_ || _); [|discriminate].
  cbn [mbind result_bind]. intros H. bind_inv H.
  apply gather_length in H, E.
  rewrite H, argsort_length, E, length_take, argsort_length, length_fmap. reflexivity.
Qed.

Lemma candidates_total (t : Letterbox.LetterboxTransform) (k : nat) (y : ndarray3)
    (rows : ndarray2) (c : Columns) :
  normalise y = Ok rows -> split_columns rows = Ok c -> (1 <= k <= length rows)%nat ->
  exists boxes scores cids, candidates t k y = Ok (boxes, scores, cids).
Proof.
  intros Hn Hs Hk.
  destruct (split_columns_lengths _ _ Hs) as (Hstack & Hconf & Hcls).
  destruct (top_k_total (confidences c) k) as (idx & Htop & Hidx); [lia|].
  destruct (gather_total (stack4 c) idx) as [boxes Hb]; [now rewrite Hstack, <- Hconf|].
  destruct (gather_total (confidences c) idx) as [scores Hsc]; [exact Hidx|].
  destruct (gather_total (class_ids c) idx) as [cids Hci]; [now rewrite Hcls, <- Hconf|].
  exists (map (unletterbox t) boxes), scores, cids.
  unfold candidates. rewrite Hn. cbn [mbind result_bind].
  rewrite Hs. cbn [mbind result_bind]. rewrite Htop. cbn [mbind result_bind].
  rewrite Hb. cbn [mbind result_bind]. rewrite Hsc. cbn [mbind result_bind].
  rewrite Hci. reflexivity.
Qed.

(** For a tensor of [N >= 1] seven-channel candidates and a cap
    [k >= 1], [decode] returns a list of detections exactly when
    [k <= N]: the top-K selection is the only step that can fail.  (A
    tensor without candidates is left aside: NumPy does not test the
    partition index on an empty array.) *)
Theorem decode_returns_iff (y : ndarray3) (t : Letterbox.LetterboxTransform) (ct it : Q)
    (k : nat) (rows : ndarray2) (c : Columns) :
  normalise y = Ok rows -> split_columns rows = Ok c ->
  (1 <= k)%nat -> (1 <= length rows)%nat ->
  (exists dets, decode y t ct it k = Ok dets) <-> (k <= length rows)%nat.
Proof.
  intros Hn Hs Hk HN. split.
  - intros [dets Hd].
    destruct (Nat.le_gt_cases k (length rows)) as [Hle | Hgt]; [exact Hle|].
    destruct (decode_below_top_k y t ct it k rows c Hn Hs) as [_ Hr]; [lia|]. congruence.
  - intros Hle.
    destruct (candidates_total t k y rows c Hn Hs) as (boxes & scores & cids & Hc); [lia|].
    destruct (candidates_lengths _ _ _ _ _ _ Hc) as [Hb Hi].
    destruct (suppress_length ct it boxes scores cids Hb Hi) as (dets & Hd & _).
    exists dets. unfold decode. rewrite Hc. exact Hd.
Qed.

Lemma decode_returns_iff_witness :
  (exists dets, decode Examples.raw3 Examples.t_hd conf_thres iou_thres 3 = Ok dets) <->
  (3 <= length (transpose2 (hd [] Examples.raw3)))%nat.
Proof.
  apply (decode_returns_iff Examples.raw3 Examples.t_hd conf_thres iou_thres 3
           (transpose2 (hd [] Examples.raw3)) Examples.cols3).
  - vm_compute. reflexivity.
  - vm_compute. reflexivity.
  - lia.
  - vm_compute. lia.
Defined.

(** *** What [decode] returns *)

Lemma select_zip_same {A B} (mask : list bool) (l : list A) (k : list B) :
  length l = length k -> select mask (zip l k) = zip (select mask l) (select mask k).
Proof.
  revert l k. induction mask as [|b mask IH]; intros l k H.
  - destruct l, k; reflexivity.
  - destruct l as [|x l], k as [|y k]; try discriminate H; [reflexivity|].
    injection H as H. simpl. destruct b; simpl; rewrite IH by exact H; reflexivity.
Qed.

(** An entry kept by a mask sits at a position where the mask is set. *)
Lemma select_lookup {A} (mask : list bool) (l : list A) (j : nat) (x : A) :
  select mask l !! j = Some x -> exists p, l !! p = Some x /\ mask !! p = Some true.
Proof.
  revert l j. induction mask as [|b mask IH]; intros [|y l] j; simpl; try discriminate.
  destruct b.
  - destruct j as [|j]; simpl.
    + intros [= <-]. exists 0%nat. split; reflexivity.
    + intros H. destruct (IH _ _ H) as (p & Hp & Hm). exists (S p). split; assumption.
  - intros H. destruct (IH _ _ H) as (p & Hp & Hm). exists (S p). split; assumption.
Qed.

Lemma lookup_zip_Some {A B} (l : list A) (k : list B) (i : nat) (x : A) (y : B) :
  zip l k !! i = Some (x, y) <-> l !! i = Some x /\ k !! i = Some y.
Proof.
  rewrite lookup_zip_with_Some. split.
  - intros (x' & y' & [= <- <-] & H1 & H2). split; assumption.
  - intros [H1 H2]. exists x, y. repeat split; assumption.
Qed.

Lemma lookup_map {A B} (f : A -> B) (l : list A) (i : nat) (y : B) :
  map f l !! i = Some y -> exists x, l !! i = Some x /\ y = f x.
Proof.
  change (map f l) with (f <$> l). rewrite list_lookup_fmap_Some.
  intros (x & -> & Hx). exists x. split; [exact Hx | reflexivity].
Qed.


(** The arrays [decode] hands to [suppress]: the top-K positions and what
    was gathered at them. *)
Lemma candidates_inv (t : Letterbox.LetterboxTransform) (k : nat) (y : ndarray3)
    (rows : ndarray2) (c : Columns) boxes' scores cids :
  normalise y = Ok rows -> split_columns rows = Ok c ->
  candidates t k y = Ok (boxes', scores, cids) ->
  exists idx boxes,
    top_k (confidences c) k = Ok idx /\
    gather (stack4 c) idx = Ok boxes /\ boxes' = map (unletterbox t) boxes /\
    gather (confidences c) idx = Ok scores /\ gather (class_ids c) idx = Ok cids.
Proof.
  intros Hn Hs H. unfold candidates in H. rewrite Hn in H. cbn [mbind result_bind] in H.
  rewrite Hs in H. cbn [mbind result_bind] in H.
  destruct (top_k (confidences c) k) as [idx|] eqn:Et; [|discriminate].
  cbn [mbind result_bind] in H.
  destruct (gather (stack4 c) idx) as [boxes|] eqn:Eb; [|discriminate].
  cbn [mbind result_bind] in H.
  destruct (gather (confidences c) idx) as [sc|] eqn:Es; [|discriminate].
  cbn [mbind result_bind] in H.
  destruct (gather (class_ids c) idx) as [ci|] eqn:Ec; [|discriminate].
  injection H as <- <- <-. exists idx, boxes. repeat split; assumption.
Qed.

(** The detections [suppress] returns, one by one: each is built from one
    row of the parallel arrays whose score passes the threshold. *)
Lemma suppress_inv (ct it : Q) (boxes : list Box) (scores : list Q) (cids : list Z)
    (dets : list Detection) (d : Detection) :
  length boxes = length scores -> length cids = length scores ->
  suppress ct it (boxes, scores, cids) = Ok dets -> In d dets ->
  exists p b,
    boxes !! p = Some b /\ scores !! p = Some (score d) /\ cids !! p = Some (class_id d) /\
    rect d = rect_of_box b /\ (ct <= score d)%Q.
Proof.
  intros Hb Hc H Hd. unfold suppress in H.
  set (mask := map (fun s => Num.geb s ct) scores) in H.
  assert (Hm : length mask = length scores) by apply length_map.
  rewrite !compress_Ok in H by congruence. cbn [mbind result_bind] in H.
  destruct (Nat.eqb (length (select mask boxes)) 0).
  { injection H as <-. destruct Hd. }
  apply mapM_Ok in H. apply list_elem_of_In, list_elem_of_lookup in Hd as [q Hq].
  destruct (Forall2_lookup_r _ _ _ _ _ H Hq) as (j & _ & Hj).
  unfold mbind, result_bind, mret, result_ret in Hj.
  destruct (getitem (map rect_of_box (select mask boxes)) j) as [r|] eqn:Er; [|discriminate].
  destruct (getitem (select mask cids) j) as [cid|] eqn:Ec; [|discriminate].
  destruct (getitem (select mask scores) j) as [s|] eqn:Es; [|discriminate].
  injection Hj as <-. cbn [rect score class_id].
  apply getitem_Ok in Er, Ec, Es.
  apply lookup_map in Er as (b & Eb & ->).
  assert (Hz : select mask (zip boxes (zip scores cids)) !! j = Some (b, (s, cid))).
  { rewrite select_zip_same by (rewrite length_zip; lia).
    rewrite select_zip_same by congruence.
    apply lookup_zip_Some. split; [exact Eb|]. apply lookup_zip_Some. split; assumption. }
  apply select_lookup in Hz as (p & Hp & Hmask).
  apply lookup_zip_Some in Hp as [Hpb Hp]. apply lookup_zip_Some in Hp as [Hps Hpc].
  exists p, b. repeat split; try assumption.
  unfold mask in Hmask. apply lookup_map in Hmask as (s' & Hs' & Hge).
  assert (s' = s) by congruence. subst s'.
  apply NMSFacts.geb_true. symmetry. exact Hge.
Qed.





(** *** Rectangles *)

Lemma rect_corners (t : Letterbox.LetterboxTransform) (b : Box) :
  (1 <= Letterbox.orig_w t)%Z -> (1 <= Letterbox.orig_h t)%Z ->
  let '(x, y_, w, h) := rect_of_box (unletterbox t b) in
  (0 <= x <= Letterbox.orig_w t - 1)%Z /\ (0 <= x + w <= Letterbox.orig_w t - 1)%Z /\
  (0 <= y_ <= Letterbox.orig_h t - 1)%Z /\ (0 <= y_ + h <= Letterbox.orig_h t - 1)%Z.
Proof.
  intros Hw Hh. destruct b as [[[bx1 by1] bx2] by2]. cbn [unletterbox rect_of_box].
  destruct (LetterboxExtra.unletterbox_x_range t bx1 Hw) as [Ha0 Ha1].
  destruct (LetterboxExtra.unletterbox_x_range t bx2 Hw) as [Hb0 Hb1].
  destruct (LetterboxExtra.unletterbox_y_range t by1 Hh) as [Hc0 Hc1].
  destruct (LetterboxExtra.unletterbox_y_range t by2 Hh) as [Hd0 Hd1].
  destruct (LetterboxExtra.corner_in_range _ _ _ Ha0 Ha1 Hb0 Hb1) as [Hx Hxw].
  destruct (LetterboxExtra.corner_in_range _ _ _ Hc0 Hc1 Hd0 Hd1) as [Hy Hyh].
  repeat split; lia.
Qed.

(** Un-letterboxing keeps a box the right way round: for a positive scale,
    a box with [x1 <= x2] and [y1 <= y2] in inference space yields an
    integer rectangle of non-negative width and height, and the rectangle's
    corners are inside the original image. *)
Theorem unletterboxed_rect_well_formed (t : Letterbox.LetterboxTransform)
    (bx1 by1 bx2 by2 : Q) :
  Letterbox.valid t -> (bx1 <= bx2)%Q -> (by1 <= by2)%Q ->
  let '(x, y_, w, h) := rect_of_box (unletterbox t (bx1, by1, bx2, by2)) in
  (0 <= w)%Z /\ (0 <= h)%Z /\
  (0 <= x)%Z /\ (x + w <= Letterbox.orig_w t - 1)%Z /\
  (0 <= y_)%Z /\ (y_ + h <= Letterbox.orig_h t - 1)%Z.
Proof.
  intros (Hs & _ & _ & Hw & Hh) Hx Hy.
  pose proof (rect_corners t (bx1, by1, bx2, by2) Hw Hh) as Hc.
  cbn [unletterbox rect_of_box] in *.
  assert (Hmx : (Letterbox.unletterbox_x t bx1 <= Letterbox.unletterbox_x t bx2)%Q).
  { apply LetterboxExtra.clip_mono, LetterboxExtra.unscale_mono; assumption. }
  assert (Hmy : (Letterbox.unletterbox_y t by1 <= Letterbox.unletterbox_y t by2)%Q).
  { apply LetterboxExtra.clip_mono, LetterboxExtra.unscale_mono; assumption. }
  assert (Hnn : forall a b : Q, (a <= b)%Q -> (0 <= Num.trunc (b - a))%Z).
  { intros a b Hab. rewrite LetterboxExtra.trunc_nonneg by lra.
    rewrite <- (Qfloor_Z 0). apply Qfloor_resp_le. change (inject_Z 0) with 0%Q. lra. }
  specialize (Hnn _ _ Hmx) as Hwn. specialize (Hnn _ _ Hmy) as Hhn.
  repeat split; lia.
Qed.

Lemma unletterboxed_rect_well_formed_witness :
  let '(x, y_, w, h) :=
    rect_of_box (unletterbox Examples.t_hd (400, 300, 500, 420)%Q) in
  (0 <= w)%Z /\ (0 <= h)%Z /\
  (0 <= x)%Z /\ (x + w <= Letterbox.orig_w Examples.t_hd - 1)%Z /\
  (0 <= y_)%Z /\ (y_ + h <= Letterbox.orig_h Examples.t_hd - 1)%Z.
Proof.
  apply (unletterboxed_rect_well_formed Examples.t_hd 400 300 500 420).
  - unfold Letterbox.valid. vm_compute. intuition discriminate.
  - vm_compute. discriminate.
  - vm_compute. discriminate.
Defined.

Lemma candidates_boxes (t : Letterbox.LetterboxTransform) (k : nat) (y : ndarray3)
    boxes' scores cids :
  candidates t k y = Ok (boxes', scores, cids) ->
  exists boxes, boxes' = map (unletterbox t) boxes.
Proof.
  intros H. unfold candidates in H. bind_inv H. injection H as <- <- <-.
  eexists. reflexivity.
Qed.

(** Every rectangle [decode] returns has both corners inside the original
    image, for any image of at least one pixel and whatever the raw box. *)
Theorem decode_rects_inside_image (y : ndarray3) (t : Letterbox.LetterboxTransform)
    (ct it : Q) (k : nat) (dets : list Detection) (d : Detection) :
  (1 <= Letterbox.orig_w t)%Z -> (1 <= Letterbox.orig_h t)%Z ->
  decode y t ct it k = Ok dets -> In d dets ->
  let '(x, y_, w, h) := rect d in
  (0 <= x <= Letterbox.orig_w t - 1)%Z /\ (0 <= x + w <= Letterbox.orig_w t - 1)%Z /\
  (0 <= y_ <= Letterbox.orig_h t - 1)%Z /\ (0 <= y_ + h <= Letterbox.orig_h t - 1)%Z.
Proof.
  intros Hw Hh Hdec Hd. unfold decode in Hdec.
  destruct (candidates t k y) as [[[boxes' scores] cids]|] eqn:Ec; [|discriminate].
  cbn [mbind result_bind] in Hdec.
  destruct (candidates_lengths _ _ _ _ _ _ Ec) as [Hlb Hlc].
  destruct (candidates_boxes _ _ _ _ _ _ Ec) as [boxes ->].
  destruct (suppress_inv _ _ _ _ _ _ _ Hlb Hlc Hdec Hd) as (p & b & Hpb & _ & _ & -> & _).
  apply lookup_map in Hpb as (box & _ & ->).
  apply rect_corners; assumption.
Qed.

Lemma decode_rects_inside_image_witness :
  let '(x, y_, w, h) := (600, 30, 150, 180)%Z in
  (0 <= x <= Letterbox.orig_w Examples.t_hd - 1)%Z /\
  (0 <= x + w <= Letterbox.orig_w Examples.t_hd - 1)%Z /\
  (0 <= y_ <= Letterbox.orig_h Examples.t_hd - 1)%Z /\
  (0 <= y_ + h <= Letterbox.orig_h Examples.t_hd - 1)%Z.
Proof.
  apply (decode_rects_inside_image Examples.raw3 Examples.t_hd (1 # 2)%Q iou_thres 3
           [mkDetection (15, 30, 150, 150)%Z (9 # 10)%Q 1%Z;
            mkDetection (600, 30, 150, 180)%Z (6 # 10)%Q 2%Z]
           (mkDetection (600, 30, 150, 180)%Z (6 # 10)%Q 2%Z)).
  - vm_compute. discriminate.
  - vm_compute. discriminate.
  - vm_compute. reflexivity.
  - right. left. reflexivity.
Defined.

(** *** How many *)

Lemma nms_length_le {C} (rc : C -> NMS.Rect) (sc : C -> Q) (thr : Q) (l : list C) :
  (length (NMS.nms rc sc thr l) <= length l)%nat.
Proof.
  induction l as [l IH] using NMSFacts.length_ind.
  rewrite NMSFacts.nms_unfold.
  destruct (NMS.extract_max sc l) as [[m rest]|] eqn:E; [|simpl; lia].
  destruct (NMSFacts.extract_max_spec _ _ _ _ E) as (_ & _ & _ & Hlen).
  pose proof (NMSFacts.survivors_shorter rc sc thr l m rest E) as Hs.
  specialize (IH _ Hs).
  pose proof (List.filter_length_le (fun c => negb (NMS.suppressed rc thr m c)) rest) as Hf.
  unfold NMS.survivors in *. simpl. lia.
Qed.

(** [decode] never returns more detections than the cap [top_k], nor more
    than there are candidates. *)
Theorem decode_at_most_top_k (y : ndarray3) (t : Letterbox.LetterboxTransform)
    (ct it : Q) (k : nat) (rows : ndarray2) (c : Columns) (dets : list Detection) :
  normalise y = Ok rows -> split_columns rows = Ok c ->
  decode y t ct it k = Ok dets ->
  (length dets <= k)%nat /\ (length dets <= length rows)%nat.
Proof.
  intros Hn Hs Hdec. unfold decode in Hdec.
  destruct (candidates t k y) as [[[boxes' scores] cids]|] eqn:Ec; [|discriminate].
  cbn [mbind result_bind] in Hdec.
  destruct (candidates_lengths _ _ _ _ _ _ Ec) as [Hlb Hlc].
  destruct (candidates_inv _ _ _ _ _ _ _ _ Hn Hs Ec) as (idx & boxes & Ht & _ & _ & Gs & _).
  destruct (suppress_length ct it boxes' scores cids Hlb Hlc) as (dets' & Hd' & Hlen).
  assert (dets' = dets) by congruence. subst dets'.
  apply top_k_length in Ht. apply gather_length in Gs.
  destruct (split_columns_lengths _ _ Hs) as (_ & Hconf & _).
  pose proof (List.filter_length_le (over ct) (NMS.nms fst snd it (scored_rects boxes' scores))).
  pose proof (nms_length_le fst snd it (scored_rects boxes' scores)) as Hn'.
  assert (Hz : length (scored_rects boxes' scores) = length scores).
  { unfold scored_rects. rewrite length_zip, length_map. lia. }
  lia.
Qed.

Lemma decode_at_most_top_k_witness :
  (2 <= 3)%nat /\ (2 <= length (transpose2 (hd [] Examples.raw3)))%nat.
Proof.
  apply (decode_at_most_top_k Examples.raw3 Examples.t_hd (1 # 2)%Q iou_thres 3
           (transpose2 (hd [] Examples.raw3)) Examples.cols3
           [mkDetection (15, 30, 150, 150)%Z (9 # 10)%Q 1%Z;
            mkDetection (600, 30, 150, 180)%Z (6 # 10)%Q 2%Z]).
  - vm_compute. reflexivity.
  - vm_compute. reflexivity.
  - vm_compute. reflexivity.
Defined.

(** *** The top-K selection *)

Lemma insert_by_perm (a : list Q) (i : nat) (l : list nat) : insert_by a i l ≡ₚ i :: l.
Proof.
  induction l as [|j l IH]; simpl; [reflexivity|].
  destruct (Num.gtb _ _); [|reflexivity].
  rewrite IH. apply Permutation_swap.
Qed.

Lemma insert_by_sorted (a : list Q) (i : nat) (l : list nat) :
  StronglySorted (key_le a) l -> StronglySorted (key_le a) (insert_by a i l).
Proof.
  induction 1 as [|j l Hl IH Hj]; simpl.
  - repeat constructor.
  - destruct (Num.gtb (nth i a 0%Q) (nth j a 0%Q)) eqn:G.
    + apply NMSFacts.gtb_true in G. constructor; [exact IH|].
      apply Forall_forall. intros x Hx.
      rewrite insert_by_perm in Hx. apply elem_of_cons in Hx as [-> | Hx].
      * unfold key_le. now apply Qlt_le_weak.
      * rewrite Forall_forall in Hj. now apply Hj.
    + apply NMSFacts.gtb_false in G. constructor; [constructor; assumption|].
      constructor; [exact G|].
      eapply Forall_impl; [exact Hj|]. intros x Hx. unfold key_le in *.
      now apply Qle_trans with (nth j a 0%Q).
Qed.

Lemma argsort_perm (a : list Q) : argsort a ≡ₚ seq 0 (length a).
Proof.
  unfold argsort. induction (seq 0 (length a)) as [|i is_ IH]; simpl; [reflexivity|].
  rewrite insert_by_perm, IH. reflexivity.
Qed.

Lemma argsort_sorted (a : list Q) : StronglySorted (key_le a) (argsort a).
Proof.
  unfold argsort. induction (seq 0 (length a)) as [|i is_ IH]; simpl; [constructor|].
  now apply insert_by_sorted.
Qed.

Lemma gather_map {A} (d : A) (l : list A) idx l' :
  gather l idx = Ok l' -> l' = map (fun i => nth i l d) idx.
Proof.
  intros H. apply mapM_Ok in H. induction H as [|i x idx l' Hi _ IH]; [reflexivity|].
  simpl. apply getitem_Ok in Hi. rewrite (nth_lookup_Some _ _ d _ Hi), IH. reflexivity.
Qed.

Lemma map_nth_seq {A} (d : A) (l : list A) : map (fun i => nth i l d) (seq 0 (length l)) = l.
Proof.
  induction l as [|x l IH]; [reflexivity|].
  cbn [length seq map nth]. f_equal.
  rewrite <- seq_shift, map_map. exact IH.
Qed.

(** Gathering at a rearrangement of all positions rearranges the array. *)
Lemma gather_perm {A} (d : A) (l : list A) idx l' :
  idx ≡ₚ seq 0 (length l) -> gather l idx = Ok l' -> l' ≡ₚ l.
Proof.
  intros Hp H. rewrite (gather_map d _ _ _ H).
  etransitivity; [apply Permutation_map, Hp|]. rewrite map_nth_seq. reflexivity.
Qed.

Lemma nth_neg (conf : list Q) (i : nat) : nth i (Qopp <$> conf) 0%Q = Qopp (nth i conf 0%Q).
Proof. change (Qopp <$> conf) with (map Qopp conf). exact (map_nth Qopp conf 0%Q i). Qed.

Lemma sorted_lookup (a : list Q) (l : list nat) (p q i j : nat) :
  StronglySorted (key_le a) l -> (p <= q)%nat ->
  l !! p = Some i -> l !! q = Some j -> key_le a i j.
Proof.
  intros Hs. revert p q. induction Hs as [|x l Hl IH Hx]; intros p q Hpq Hp Hq.
  - discriminate.
  - destruct p as [|p], q as [|q]; simpl in *; try lia.
    + injection Hp as ->. injection Hq as ->. unfold key_le. apply Qle_refl.
    + injection Hp as ->. rewrite Forall_forall in Hx. apply Hx.
      eapply list_elem_of_lookup_2, Hq.
    + apply (IH p q); [lia | assumption | assumption].
Qed.

(** The top-K selection returns [min(k, N)] distinct positions of the score
    array, in non-increasing order of score, and no position left out
    scores higher than a selected one. *)
Theorem top_k_selects_highest (conf : list Q) (k : nat) (idx : list nat) :
  top_k conf k = Ok idx ->
  length idx = Nat.min k (length conf) /\
  NoDup idx /\
  Forall (fun i => (i < length conf)%nat) idx /\
  (forall p q i j, (p <= q)%nat -> idx !! p = Some i -> idx !! q = Some j ->
     (nth j conf 0 <= nth i conf 0)%Q) /\
  (forall i j, (i < length conf)%nat -> ~ In i idx -> In j idx ->
     (nth i conf 0 <= nth j conf 0)%Q).
Proof.
  intros H. pose proof (top_k_length _ _ _ H) as Hlen.
  unfold top_k, argpartition in H. destruct (_ || _); [|discriminate].
  cbn [mbind result_bind] in H.
  set (neg := Qopp <$> conf) in *. set (part := argsort neg) in *.
  destruct (gather neg (take k part)) as [keys|] eqn:Ek; [|discriminate].
  cbn [mbind result_bind] in H.
  pose proof (argsort_perm neg) as Hpart. fold part in Hpart.
  pose proof (argsort_sorted neg) as Hsorted. fold part in Hsorted.
  assert (Hnegl : length neg = length conf) by apply length_fmap.
  assert (Hkl : length keys = length (take k part)) by (now apply gather_length in Ek).
  assert (Hperm : idx ≡ₚ take k part).
  { apply (gather_perm 0%nat _ _ _ ltac:(rewrite <- Hkl; apply argsort_perm) H). }
  assert (Hnd : NoDup (take k part)).
  { apply (sublist_NoDup (take k part) part); [|apply sublist_take]. rewrite Hpart. apply NoDup_seq. }
  assert (Hin : forall i, i ∈ part <-> (i < length conf)%nat).
  { intros i. rewrite Hpart, <- Hnegl, list_elem_of_In, in_seq. lia. }
  split; [exact Hlen|]. split; [now rewrite Hperm|]. split.
  { apply Forall_forall. intros i Hi. rewrite Hperm in Hi.
    apply Hin. eapply elem_of_sublist; [exact Hi | apply sublist_take]. }
  split.
  - intros p q i j Hpq Hp Hq.
    rewrite (gather_map 0%nat _ _ _ H) in Hp, Hq.
    apply lookup_map in Hp as (jp & Hjp & ->). apply lookup_map in Hq as (jq & Hjq & ->).
    pose proof (sorted_lookup keys _ p q jp jq (argsort_sorted keys) Hpq Hjp Hjq) as Hk.
    unfold key_le in Hk. rewrite (gather_map 0%Q _ _ _ Ek) in Hk.
    assert (Hd : forall j0, (j0 < length (take k part))%nat ->
                 nth j0 (map (fun i => nth i neg 0%Q) (take k part)) 0%Q
                 = Qopp (nth (nth j0 (take k part) 0%nat) conf 0%Q)).
    { intros j0 Hj0. rewrite <- nth_neg.
      rewrite (nth_indep _ 0%Q (nth 0%nat neg 0%Q)) by (rewrite length_map; exact Hj0).
      apply (map_nth (fun i => nth i neg 0%Q)). }
    assert (Hjpl : (jp < length (take k part))%nat).
    { rewrite <- Hkl. apply argsort_In, list_elem_of_In. eapply list_elem_of_lookup_2, Hjp. }
    assert (Hjql : (jq < length (take k part))%nat).
    { rewrite <- Hkl. apply argsort_In, list_elem_of_In. eapply list_elem_of_lookup_2, Hjq. }
    rewrite (Hd jp Hjpl), (Hd jq Hjql) in Hk. lra.
  - intros i j Hi Hni Hj.
    apply list_elem_of_In in Hj. rewrite Hperm in Hj.
    assert (Hid : i ∈ drop k part).
    { apply Hin in Hi. rewrite <- (take_drop k part) in Hi.
      apply elem_of_app in Hi as [Hi | Hi]; [|exact Hi].
      exfalso. apply Hni, list_elem_of_In. now rewrite Hperm. }
    rewrite <- (take_drop k part) in Hsorted.
    pose proof (StronglySorted_app_1_elem_of _ _ _ j i Hsorted Hj Hid) as Hk.
    unfold key_le, neg in Hk. rewrite !nth_neg in Hk. lra.
Qed.

Lemma top_k_selects_highest_witness :
  length [0; 2; 1]%nat = Nat.min 3 (length (confidences Examples.cols3)) /\
  NoDup [0; 2; 1]%nat /\
  Forall (fun i => (i < length (confidences Examples.cols3))%nat) [0; 2; 1]%nat /\
  (forall p q i j, (p <= q)%nat -> [0; 2; 1]%nat !! p = Some i -> [0; 2; 1]%nat !! q = Some j ->
     (nth j (confidences Examples.cols3) 0 <= nth i (confidences Examples.cols3) 0)%Q) /\
  (forall i j, (i < length (confidences Examples.cols3))%nat -> ~ In i [0; 2; 1]%nat ->
     In j [0; 2; 1]%nat ->
     (nth i (confidences Examples.cols3) 0 <= nth j (confidences Examples.cols3) 0)%Q).
Proof.
  apply (top_k_selects_highest (confidences Examples.cols3) 3 [0; 2; 1]%nat).
  vm_compute. reflexivity.
Defined.

(** *** Order and overlap of the detections *)

Lemma strongly_sorted_lookup {A} (R : A -> A -> Prop) (l : list A) (p q : nat) (a b : A) :
  StronglySorted R l -> (p < q)%nat -> l !! p = Some a -> l !! q = Some b -> R a b.
Proof.
  intros Hs. revert p q. induction Hs as [|x l Hl IH Hx]; intros p q Hpq Hp Hq.
  - discriminate.
  - destruct q as [|q]; [lia|]. destruct p as [|p]; simpl in *.
    + injection Hp as ->. rewrite Forall_forall in Hx. apply Hx.
      eapply list_elem_of_lookup_2, Hq.
    + apply (IH p q); [lia | assumption | assumption].
Qed.

(** Greedy NMS emits its survivors by non-increasing score, and no survivor
    is suppressed by one emitted before it. *)
Lemma nms_sorted_unsuppressed {C} (rc : C -> NMS.Rect) (sc : C -> Q) (thr : Q) (l : list C) :
  StronglySorted (fun a b => (sc b <= sc a)%Q /\ NMS.suppressed rc thr a b = false)
                 (NMS.nms rc sc thr l).
Proof.
  induction l as [l IH] using NMSFacts.length_ind.
  rewrite NMSFacts.nms_unfold.
  destruct (NMS.extract_max sc l) as [[m rest]|] eqn:E; [|constructor].
  destruct (NMSFacts.extract_max_spec _ _ _ _ E) as (_ & Hsub & Hmax & _).
  constructor.
  - apply IH. exact (NMSFacts.survivors_shorter rc sc thr l m rest E).
  - apply Forall_forall. intros x Hx. apply list_elem_of_In, NMSFacts.nms_In in Hx.
    apply NMSFacts.survivors_In in Hx as [Hx Hns]. split; [|exact Hns].
    apply Hmax, Hsub, Hx.
Qed.

Lemma zip_seq_elem {B} (n : nat) (l : list B) (j : nat) (x : B) :
  (j, x) ∈ zip (seq 0 n) l -> l !! j = Some x.
Proof.
  intros H. apply list_elem_of_lookup in H as [i Hi].
  apply lookup_zip_Some in Hi as [Hs Hl].
  apply lookup_seq in Hs as [-> _]. exact Hl.
Qed.

Lemma suppress_order (ct it : Q) (boxes : list Box) (scores : list Q) (cids : list Z)
    (dets : list Detection) (p q : nat) (dp dq : Detection) :
  length boxes = length scores -> length cids = length scores ->
  suppress ct it (boxes, scores, cids) = Ok dets ->
  (p < q)%nat -> dets !! p = Some dp -> dets !! q = Some dq ->
  (score dq <= score dp)%Q /\ (NMS.iou (rect dp) (rect dq) < it)%Q.
Proof.
  intros Hb Hc H Hpq Hp Hq. unfold suppress in H.
  set (mask := map (fun s => Num.geb s ct) scores) in H.
  assert (Hm : length mask = length scores) by apply length_map.
  rewrite !compress_Ok in H by congruence. cbn [mbind result_bind] in H.
  destruct (Nat.eqb (length (select mask boxes)) 0).
  { injection H as <-. discriminate. }
  set (rects := map rect_of_box (select mask boxes)) in H.
  set (S' := select mask scores) in H. set (Cs := select mask cids) in H.
  unfold NMS.NMSBoxes in H.
  set (cands := List.filter (fun c => Num.geb (snd (snd c)) ct)
                  (zip (seq 0 (length rects)) (zip rects S'))) in H.
  set (out := NMS.nms (fun c : nat * (NMS.Rect * Q) => fst (snd c))
                      (fun c => snd (snd c)) it cands) in H.
  apply mapM_Ok in H.
  assert (Hrel : forall i d, dets !! i = Some d ->
            exists c, out !! i = Some c /\ rect d = fst (snd c) /\ score d = snd (snd c)).
  { intros i d Hd.
    destruct (Forall2_lookup_r _ _ _ _ _ H Hd) as (j & Hj & Hjd).
    apply list_lookup_fmap_Some in Hj as (c & -> & Hc').
    exists c. split; [exact Hc'|].
    assert (Hin : c ∈ zip (seq 0 (length rects)) (zip rects S')).
    { apply list_elem_of_In. eapply (proj1 (filter_In _ _ _)).
      eapply NMSFacts.nms_In. apply list_elem_of_In. eapply list_elem_of_lookup_2, Hc'. }
    destruct c as [j [r s]]. apply zip_seq_elem in Hin.
    apply lookup_zip_Some in Hin as [Hr Hs]. cbn [fst snd] in *.
    unfold mbind, result_bind, mret, result_ret in Hjd.
    destruct (getitem rects j) as [r'|] eqn:Er; [|discriminate].
    destruct (getitem Cs j) as [cid|] eqn:Ec; [|discriminate].
    destruct (getitem S' j) as [s'|] eqn:Es; [|discriminate].
    injection Hjd as <-. apply getitem_Ok in Er, Es. cbn [rect score].
    split; congruence. }
  destruct (Hrel p dp Hp) as (cp & Hcp & -> & ->).
  destruct (Hrel q dq Hq) as (cq & Hcq & -> & ->).
  pose proof (nms_sorted_unsuppressed (fun c : nat * (NMS.Rect * Q) => fst (snd c))
                (fun c => snd (snd c)) it cands) as Hs.
  destruct (strongly_sorted_lookup _ _ p q cp cq Hs Hpq Hcp Hcq) as [Hle Hns].
  split; [exact Hle|]. unfold NMS.suppressed in Hns. now apply NMSFacts.geb_false.
Qed.

(** The detections come in non-increasing order of score, and no detection
    overlaps an earlier one with an IoU of [iou_thres] or more. *)
Theorem decode_sorted_and_separated (y : ndarray3) (t : Letterbox.LetterboxTransform)
    (ct it : Q) (k : nat) (dets : list Detection) (p q : nat) (dp dq : Detection) :
  decode y t ct it k = Ok dets ->
  (p < q)%nat -> dets !! p = Some dp -> dets !! q = Some dq ->
  (score dq <= score dp)%Q /\ (NMS.iou (rect dp) (rect dq) < it)%Q.
Proof.
  intros Hdec. unfold decode in Hdec.
  destruct (candidates t k y) as [[[boxes scores] cids]|] eqn:Ec; [|discriminate].
  cbn [mbind result_bind] in Hdec.
  destruct (candidates_lengths _ _ _ _ _ _ Ec) as [Hlb Hlc].
  now apply (suppress_order ct it boxes scores cids).
Qed.

Lemma decode_sorted_and_separated_witness :
  (6 # 10 <= 9 # 10)%Q /\
  (NMS.iou (15, 30, 150, 150)%Z (600, 30, 150, 180)%Z < iou_thres)%Q.
Proof.
  apply (decode_sorted_and_separated Examples.raw3 Examples.t_hd (1 # 2)%Q iou_thres 3
           [mkDetection (15, 30, 150, 150)%Z (9 # 10)%Q 1%Z;
            mkDetection (600, 30, 150, 180)%Z (6 # 10)%Q 2%Z] 0 1
           (mkDetection (15, 30, 150, 150)%Z (9 # 10)%Q 1%Z)
           (mkDetection (600, 30, 150, 180)%Z (6 # 10)%Q 2%Z)).
  - vm_compute. reflexivity.
  - lia.
  - reflexivity.
  - reflexivity.
Defined.

End DecodeExtra.

(** ** The graph rewrite ([inject_postprocess.py]) *)

Module InjectExtra.

Import Py Nd Onnx Inject.

(** *** The nodes after the slices *)

(** For every raw tensor, if [c_x1 .. c_f6] hold its seven channel columns
    of shape [1,N,1], the Mul, Max, Round and Concat nodes of lines 57-69
    bind [post_dets] to the [1,N,6] tensor whose rows are
    [(x1, y1, x2, y2, max(f4*f6, f4), round(f5))]. *)
Theorem fuse_nodes_compute_canonical (raw : ndarray3) (env : gmap string Ort.value) :
  env !! "c_x1" = Some (Ort.VFloat (Canonical.column 0 raw)) ->
  env !! "c_y1" = Some (Ort.VFloat (Canonical.column 1 raw)) ->
  env !! "c_x2" = Some (Ort.VFloat (Canonical.column 2 raw)) ->
  env !! "c_y2" = Some (Ort.VFloat (Canonical.column 3 raw)) ->
  env !! "c_f4" = Some (Ort.VFloat (Canonical.column 4 raw)) ->
  env !! "c_f5" = Some (Ort.VFloat (Canonical.column 5 raw)) ->
  env !! "c_f6" = Some (Ort.VFloat (Canonical.column 6 raw)) ->
  exists env',
    Ort.run_nodes env fuse_nodes = Ok env' /\
    env' !! "post_dets" = Some (Ort.VFloat (Canonical.tensor raw)) /\
    shape (Canonical.tensor raw) = (1, length (Canonical.candidate_rows raw),
                                    match Canonical.candidate_rows raw with
                                    | [] => 0 | _ => 6 end)%nat.
Proof.
  intros H0 H1 H2 H3 H4 H5 H6.
  destruct (InjectFacts.fuse_nodes_on_columns raw env H0 H1 H2 H3 H4 H5 H6) as (env' & Hrun & Hout).
  exists env'. split; [exact Hrun|]. split; [exact Hout|].
  unfold shape, Canonical.tensor. cbn [length hd].
  rewrite length_map. destruct (Canonical.candidate_rows raw); reflexivity.
Qed.

Lemma fuse_nodes_compute_canonical_witness :
  exists env',
    Ort.run_nodes (Examples.column_env Examples.raw8) fuse_nodes = Ok env' /\
    env' !! "post_dets" = Some (Ort.VFloat (Canonical.tensor Examples.raw8)) /\
    shape (Canonical.tensor Examples.raw8) =
      (1, length (Canonical.candidate_rows Examples.raw8),
       match Canonical.candidate_rows Examples.raw8 with [] => 0 | _ => 6 end)%nat.
Proof.
  apply (fuse_nodes_compute_canonical Examples.raw8 (Examples.column_env Examples.raw8));
    vm_compute; reflexivity.
Defined.

(** *** One slice *)

Lemma suffix_ne (out a b : string) : a <> b -> out +:+ a <> out +:+ b.
Proof. intros Hab H. apply Hab. exact (String.app_inj out _ _ H). Qed.

(** What the node and the four index tensors of [make_slice_col] compute,
    for every graph, tensor and choice of names: on a [1,N,C] tensor with
    [start < N], run with its own initializers bound, the Slice node binds
    its output to the single row [start] of the tensor with all [C]
    channels, a tensor of shape [1,1,C]; the graph's nodes, value infos,
    inputs and outputs are the same, and its old initializers are kept. *)
Theorem make_slice_col_returns_row (g : GraphProto) (src out : string) (start : nat)
    (env : gmap string Ort.value) (rows : ndarray2) (row : list Q) :
  env !! src = Some (Ort.VFloat [rows]) ->
  rows !! start = Some row ->
  (Z.of_nat (length row) <= INT64_MAX)%Z ->
  ~ In src [out +:+ "_starts"; out +:+ "_ends"; out +:+ "_axes"; out +:+ "_steps"] ->
  let '(g', n) := make_slice_col g src (Z.of_nat start) (Z.of_nat start + 1) out in
  let env' := foldl Ort.bind_initializer env (drop (length (initializer g)) (initializer g')) in
  Ort.eval_node env' n = Ok (<[out := Ort.VFloat [[row]]]> env') /\
  shape [[row]] = (1, 1, length row)%nat /\
  node g' = node g /\ value_info g' = value_info g /\
  g_input g' = g_input g /\ g_output g' = g_output g /\
  take (length (initializer g)) (initializer g') = initializer g.
Proof.
  intros Hsrc Hrow Hlen Hne.
  rewrite InjectFacts.make_slice_col_eq. cbn [initializer node value_info g_input g_output].
  rewrite drop_app_length, take_app_length.
  split; [|repeat split; reflexivity].
  unfold slice_initializers, make_tensor_int64.
  cbn [foldl Ort.bind_initializer t_data_type t_dims t_name int64_data].
  set (ns := out +:+ "_starts"). set (ne := out +:+ "_ends").
  set (na := out +:+ "_axes"). set (nst := out +:+ "_steps").
  assert (D1 : ns <> ne) by (apply suffix_ne; discriminate).
  assert (D2 : ns <> na) by (apply suffix_ne; discriminate).
  assert (D3 : ns <> nst) by (apply suffix_ne; discriminate).
  assert (D4 : ne <> na) by (apply suffix_ne; discriminate).
  assert (D5 : ne <> nst) by (apply suffix_ne; discriminate).
  assert (D6 : na <> nst) by (apply suffix_ne; discriminate).
  assert (S1 : src <> ns) by (intros ->; apply Hne; left; reflexivity).
  assert (S2 : src <> ne) by (intros ->; apply Hne; right; left; reflexivity).
  assert (S3 : src <> na) by (intros ->; apply Hne; right; right; left; reflexivity).
  assert (S4 : src <> nst) by (intros ->; apply Hne; right; right; right; left; reflexivity).
  set (env' := <[nst := _]> (<[na := _]> (<[ne := _]> (<[ns := _]> env)))).
  assert (Ls : env' !! src = Some (Ort.VFloat [rows])).
  { unfold env'. rewrite !lookup_insert_ne by congruence. exact Hsrc. }
  assert (L1 : env' !! ns = Some (Ort.VInt64 [0; Z.of_nat start; 0]%Z)).
  { unfold env'. rewrite !lookup_insert_ne by congruence. apply lookup_insert_eq. }
  assert (L2 : env' !! ne = Some (Ort.VInt64 [1; Z.of_nat start + 1; INT64_MAX]%Z)).
  { unfold env'. rewrite !lookup_insert_ne by congruence. apply lookup_insert_eq. }
  assert (L3 : env' !! na = Some (Ort.VInt64 [0; 1; 2]%Z)).
  { unfold env'. rewrite !lookup_insert_ne by congruence. apply lookup_insert_eq. }
  assert (L4 : env' !! nst = Some (Ort.VInt64 [1; 1; 1]%Z)).
  { unfold env'. apply lookup_insert_eq. }
  unfold Ort.eval_node, Ort.eval_op, slice_node, make_node. cbn [op_type n_input n_output].
  fold ns ne na nst.
  unfold Ort.int64_input, Ort.fetch. cbn [n_input lookup list_lookup].
  rewrite Ls, L1, L2, L3, L4. cbn [mbind result_bind Ort.as_float Ort.as_int64].
  rewrite (InjectFacts.slice_col_is_candidate_row rows start row Hrow Hlen).
  reflexivity.
Qed.

Lemma make_slice_col_returns_row_witness :
  let '(g', n) := make_slice_col Examples.g0 "n7" 4 5 "c_f4" in
  let env' :=
    foldl Ort.bind_initializer
      (<["n7" := Ort.VFloat (transpose021 Examples.raw8)]> ∅)
      (drop (length (initializer Examples.g0)) (initializer g')) in
  Ort.eval_node env' n =
    Ok (<["c_f4" := Ort.VFloat [[map inject_Z [4; 104; 204; 304; 404; 504; 604]%Z]]]> env') /\
  shape [[map inject_Z [4; 104; 204; 304; 404; 504; 604]%Z]] = (1, 1, 7)%nat /\
  node g' = node Examples.g0 /\ value_info g' = value_info Examples.g0 /\
  g_input g' = g_input Examples.g0 /\ g_output g' = g_output Examples.g0 /\
  take (length (initializer Examples.g0)) (initializer g') = initializer Examples.g0.
Proof.
  apply (make_slice_col_returns_row Examples.g0 "n7" "c_f4" 4
           (<["n7" := Ort.VFloat (transpose021 Examples.raw8)]> ∅)
           (hd [] (transpose021 Examples.raw8))
           (map inject_Z [4; 104; 204; 304; 404; 504; 604]%Z)).
  - vm_compute. reflexivity.
  - vm_compute. reflexivity.
  - vm_compute. discriminate.
  - vm_compute. intuition discriminate.
Defined.

(** *** Names *)

Lemma app_ne_self (s t : string) : t <> "" -> s +:+ t <> s.
Proof.
  intros Ht. induction s as [|a s IH]; simpl.
  - exact Ht.
  - intros [= H]. exact (IH H).
Qed.

Lemma rename_outputs_not_raw (raw_out raw_new : string) (n : NodeProto) :
  raw_new <> raw_out -> ~ In raw_out (n_output (rename_outputs raw_out raw_new n)).
Proof.
  intros Hne. unfold rename_outputs. cbn [n_output].
  change (?f <$> n_output n) with (map f (n_output n)).
  rewrite in_map_iff. intros (x & Hx & _).
  destruct (String.eqb_spec x raw_out); congruence.
Qed.

Lemma appended_nodes_outputs (raw_new : string) :
  concat (map n_output (appended_nodes raw_new)) = appended_outputs.
Proof. reflexivity. Qed.

(** After the rewrite no node writes the original output name any more
    (unless that name is one the appended nodes use), while node inputs are
    left as they were: a node that read the original output, and any
    declared output still carrying its name, is left without a producer. *)
Theorem augment_leaves_no_producer (g g' : GraphProto) (o : ValueInfoProto)
    (outs : list ValueInfoProto) :
  g_output g = o :: outs -> augment g = Ok g' ->
  ~ In (vi_name o) appended_outputs ->
  (forall n, In n (node g') -> ~ In (vi_name o) (n_output n)) /\
  (forall i n, node g !! i = Some n ->
     exists n', node g' !! i = Some n' /\ n_input n' = n_input n).
Proof.
  intros Hout Haug Hres. rewrite (InjectFacts.augment_eq g o outs Hout) in Haug.
  injection Haug as <-. cbn [node]. split.
  - intros n Hn. apply in_app_or in Hn as [Hn | Hn].
    + apply in_map_iff in Hn as (n0 & <- & _).
      apply rename_outputs_not_raw, app_ne_self. discriminate.
    + intros Hin. apply Hres.
      rewrite <- (appended_nodes_outputs (vi_name o +:+ "_raw")).
      apply in_concat. exists (n_output n). split; [|exact Hin].
      apply in_map. exact Hn.
  - intros i n Hi. exists (rename_outputs (vi_name o) (vi_name o +:+ "_raw") n).
    split; [|reflexivity]. apply lookup_app_l_Some.
    change (map ?f ?l) with (f <$> l). rewrite list_lookup_fmap, Hi. reflexivity.
Qed.

Lemma augment_leaves_no_producer_witness :
  exists g',
    augment Examples.g0 = Ok g' /\
    (forall n, In n (node g') -> ~ In "output0" (n_output n)) /\
    (forall i n, node Examples.g0 !! i = Some n ->
       exists n', node g' !! i = Some n' /\ n_input n' = n_input n).
Proof.
  eexists. split.
  - apply (InjectFacts.augment_eq Examples.g0 (mkValueInfo "output0" FLOAT []) []). reflexivity.
  - apply (augment_leaves_no_producer Examples.g0 _ (mkValueInfo "output0" FLOAT []) []).
    + reflexivity.
    + apply (InjectFacts.augment_eq Examples.g0 (mkValueInfo "output0" FLOAT []) []). reflexivity.
    + vm_compute. intuition discriminate.
Defined.

(** On a graph with several declared outputs the rewrite captures the name
    of the first but removes the last: the first output stays declared
    (its producers renamed away from it), the last is gone, and the others
    keep their order in front of [post_dets]. *)
Theorem augment_pops_last_output (g g' : GraphProto) (o o' : ValueInfoProto)
    (outs : list ValueInfoProto) :
  g_output g = o :: outs ++ [o'] -> augment g = Ok g' ->
  g_output g' =
    o :: outs ++
    [make_tensor_value_info "post_dets" FLOAT [DimValue 1; DimParam "unk"; DimValue 6]] /\
  forall n, In n (node g') ->
    In (vi_name o) (n_output n) -> In (vi_name o) appended_outputs.
Proof.
  intros Hout Haug. rewrite (InjectFacts.augment_eq g o (outs ++ [o']) Hout) in Haug.
  injection Haug as <-. cbn [g_output node].
  assert (Hrl : removelast (o :: outs ++ [o']) = o :: outs).
  { change (o :: outs ++ [o']) with ((o :: outs) ++ [o']). apply removelast_last. }
  split.
  { change (removelast (o :: outs ++ [o']) ++
            [make_tensor_value_info "post_dets" FLOAT [DimValue 1; DimParam "unk"; DimValue 6]]
            = o :: outs ++
            [make_tensor_value_info "post_dets" FLOAT [DimValue 1; DimParam "unk"; DimValue 6]]).
    rewrite Hrl. reflexivity. }
  intros n Hn Hin. apply in_app_or in Hn as [Hn | Hn].
  - apply in_map_iff in Hn as (n0 & <- & _).
    exfalso. revert Hin. apply rename_outputs_not_raw, app_ne_self. discriminate.
  - rewrite <- (appended_nodes_outputs (vi_name o +:+ "_raw")).
    apply in_concat. exists (n_output n). split; [|exact Hin]. apply in_map. exact Hn.
Qed.

Lemma augment_pops_last_output_witness :
  exists g',
    augment (mkGraph (node Examples.g0) [] [] (g_input Examples.g0)
               [mkValueInfo "output0" FLOAT []; mkValueInfo "aux" FLOAT []]) = Ok g' /\
    g_output g' =
      [mkValueInfo "output0" FLOAT [];
       make_tensor_value_info "post_dets" FLOAT [DimValue 1; DimParam "unk"; DimValue 6]] /\
    forall n, In n (node g') ->
      In "output0" (n_output n) -> In "output0" appended_outputs.
Proof.
  eexists. split.
  - apply (InjectFacts.augment_eq _ (mkValueInfo "output0" FLOAT []) [mkValueInfo "aux" FLOAT []]).
    reflexivity.
  - apply (augment_pops_last_output
             (mkGraph (node Examples.g0) [] [] (g_input Examples.g0)
                [mkValueInfo "output0" FLOAT []; mkValueInfo "aux" FLOAT []])
             _ (mkValueInfo "output0" FLOAT []) (mkValueInfo "aux" FLOAT []) []).
    + reflexivity.
    + apply (InjectFacts.augment_eq _ (mkValueInfo "output0" FLOAT [])
               [mkValueInfo "aux" FLOAT []]). reflexivity.
Defined.

(** *** Patching twice *)

Lemma node_outputs_app (a b : list NodeProto) :
  concat (map n_output (a ++ b)) = concat (map n_output a) ++ concat (map n_output b).
Proof. rewrite map_app, concat_app. reflexivity. Qed.

(** A second run of the rewrite on its own result does not stop by itself:
    it returns a graph in which a slice output is written by two nodes.
    Hence [main] raises the validation error on a patched model with every
    checker that enforces single assignment, and persists nothing. *)
Theorem augment_twice_breaks_single_assignment (g g' : GraphProto) :
  augment g = Ok g' ->
  exists g'',
    augment g' = Ok g'' /\
    ~ single_assignment g'' /\
    forall check_model : GraphProto -> bool,
      (forall h, check_model h = true -> single_assignment h) ->
      main check_model g' = Raise ValidationError.
Proof.
  intros H. destruct (g_output g) as [|o outs] eqn:Hout.
  { unfold augment in H. rewrite Hout in H. discriminate. }
  rewrite (InjectFacts.augment_eq g o outs Hout) in H. injection H as <-.
  set (new_out := make_tensor_value_info "post_dets" FLOAT
                    [DimValue 1; DimParam "unk"; DimValue 6]).
  set (nodes1 := map (rename_outputs (vi_name o) (vi_name o +:+ "_raw")) (node g)
                   ++ appended_nodes (vi_name o +:+ "_raw")).
  destruct (removelast (o :: outs) ++ [new_out]) as [|o2 outs2] eqn:Hout2.
  { destruct (removelast (o :: outs)); discriminate. }
  match goal with |- context [augment ?G] => set (G' := G) end.
  assert (Hg' : g_output G' = o2 :: outs2) by exact Hout2.
  pose proof (InjectFacts.augment_eq G' o2 outs2 Hg') as Haug.
  match type of Haug with _ = Ok ?X => set (G'' := X) in * end.
  assert (Hdup : ~ single_assignment G'').
  { unfold single_assignment, node_outputs, G''. cbn [node]. unfold G'. cbn [node].
    rewrite node_outputs_app, appended_nodes_outputs.
    intros Hnd. apply NoDup_app in Hnd as (_ & Hdisj & _).
    set (ren := rename_outputs (vi_name o2) (vi_name o2 +:+ "_raw")) in *.
    assert (Hin : forall name, In name ["c_x1"; "c_y1"] -> name <> vi_name o2 ->
              name ∈ concat (map n_output (map ren nodes1))).
    { intros name Hname Hne. apply list_elem_of_In, in_concat.
      exists [name]. split; [|left; reflexivity].
      apply in_map_iff. exists (ren (slice_node "n7" name)). split.
      - unfold ren, rename_outputs, slice_node, make_node. cbn [n_output fmap list_fmap].
        destruct (String.eqb_spec name (vi_name o2)); [contradiction | reflexivity].
      - apply in_map. unfold nodes1. apply in_or_app. right.
        unfold appended_nodes. right. apply in_or_app. left.
        destruct Hname as [<- | [<- | []]]; cbn; auto. }
    destruct (decide ("c_x1" = vi_name o2)) as [E | NE].
    - apply (Hdisj "c_y1").
      + apply Hin; [right; left; reflexivity | rewrite <- E; discriminate].
      + apply list_elem_of_In. unfold appended_outputs. cbn. auto.
    - apply (Hdisj "c_x1").
      + apply Hin; [left; reflexivity | exact NE].
      + apply list_elem_of_In. unfold appended_outputs. cbn. auto. }
  exists G''. split; [exact Haug|]. split; [exact Hdup|].
  intros check_model Hcheck. unfold main. rewrite Haug. cbn [mbind result_bind].
  destruct (check_model G'') eqn:Ec; [|reflexivity].
  exfalso. apply Hdup, Hcheck, Ec.
Qed.

Lemma augment_twice_breaks_single_assignment_witness :
  exists g' g'',
    augment Examples.g0 = Ok g' /\
    augment g' = Ok g'' /\
    ~ single_assignment g'' /\
    forall check_model : GraphProto -> bool,
      (forall h, check_model h = true -> single_assignment h) ->
      main check_model g' = Raise ValidationError.
Proof.
  eexists.
  destruct (augment_twice_breaks_single_assignment Examples.g0 _
              (InjectFacts.augment_eq Examples.g0 (mkValueInfo "output0" FLOAT []) [] eq_refl))
    as (g'' & H1 & H2 & H3).
  exists g''. split; [|split; [exact H1 | split; [exact H2 | exact H3]]].
  apply (InjectFacts.augment_eq Examples.g0 (mkValueInfo "output0" FLOAT []) []). reflexivity.
Defined.

(** *** Order of the appended nodes *)

Lemma existsb_eqb_In (x : string) (l : list string) :
  existsb (String.eqb x) l = true -> In x l.
Proof.
  rewrite existsb_exists. intros (y & Hy & E). apply String.eqb_eq in E. now subst.
Qed.

Lemma ordered_sound (defined : list string) (ns : list NodeProto) :
  ordered defined ns = true ->
  forall i n x, ns !! i = Some n -> In x (n_input n) ->
    In x defined \/ exists j m, (j < i)%nat /\ ns !! j = Some m /\ In x (n_output m).
Proof.
  revert defined. induction ns as [|n0 ns IH]; intros defined H i n x Hi Hx; [discriminate|].
  cbn [ordered] in H. apply andb_prop in H as [H0 Hrest].
  destruct i as [|i]; cbn in Hi.
  - injection Hi as <-. left. rewrite forallb_forall in H0. apply existsb_eqb_In, H0, Hx.
  - destruct (IH _ Hrest i n x Hi Hx) as [Hd | (j & m & Hj & Hm & Hxm)].
    + apply in_app_or in Hd as [Hd | Hd]; [|left; exact Hd].
      right. exists 0%nat, n0. repeat split; [lia | exact Hd].
    + right. exists (S j), m. repeat split; [lia | exact Hm | exact Hxm].
Qed.

(** The appended nodes are self-contained and in topological order, for
    every graph: each input of an appended node is the renamed raw output,
    the name of an initializer of the patched graph, or an output of an
    appended node placed before it. *)
Theorem appended_nodes_are_ordered (g g' : GraphProto) (o : ValueInfoProto)
    (outs : list ValueInfoProto) (i : nat) (n : NodeProto) (x : string) :
  g_output g = o :: outs -> augment g = Ok g' ->
  node g' !! (length (node g) + i)%nat = Some n -> In x (n_input n) ->
  x = vi_name o +:+ "_raw" \/
  In x (map t_name (initializer g')) \/
  exists j m, (j < i)%nat /\ node g' !! (length (node g) + j)%nat = Some m /\ In x (n_output m).
Proof.
  intros Hout Haug Hn Hx. rewrite (InjectFacts.augment_eq g o outs Hout) in Haug.
  injection Haug as <-. cbn [node initializer] in *.
  set (raw_new := vi_name o +:+ "_raw") in *.
  set (pre := map (rename_outputs (vi_name o) raw_new) (node g)) in *.
  assert (Hpre : length pre = length (node g)) by apply length_map.
  rewrite <- Hpre, lookup_app_r, Nat.add_comm, Nat.add_sub in Hn by lia.
  assert (Hord : ordered (map t_name appended_initializers ++ [raw_new])
                         (appended_nodes raw_new) = true).
  { unfold appended_nodes. cbn [ordered n_input make_node forallb existsb].
    assert (E : existsb (String.eqb raw_new) (map t_name appended_initializers ++ [raw_new])
                = true).
    { apply existsb_exists. exists raw_new. split; [|apply String.eqb_refl].
      apply in_or_app. right. left. reflexivity. }
    rewrite E. vm_compute. reflexivity. }
  destruct (ordered_sound _ _ Hord i n x Hn Hx) as [Hd | (j & m & Hj & Hm & Hxm)].
  - apply in_app_or in Hd as [Hd | [<- | []]]; [|left; reflexivity].
    right. left. rewrite map_app. apply in_or_app. right. exact Hd.
  - right. right. exists j, m. repeat split; [exact Hj | | exact Hxm].
    rewrite <- Hpre, lookup_app_r, Nat.add_comm, Nat.add_sub by lia. exact Hm.
Qed.

Lemma appended_nodes_are_ordered_witness :
  exists g',
    augment Examples.g0 = Ok g' /\
    ("c_f6" = "output0_raw" \/
     In "c_f6" (map t_name (initializer g')) \/
     exists j m, (j < 8)%nat /\ node g' !! (length (node Examples.g0) + j)%nat = Some m /\
                 In "c_f6" (n_output m)).
Proof.
  eexists. split.
  - apply (InjectFacts.augment_eq Examples.g0 (mkValueInfo "output0" FLOAT []) []). reflexivity.
  - apply (appended_nodes_are_ordered Examples.g0 _ (mkValueInfo "output0" FLOAT []) [] 8
             (make_node "Mul" ["c_f4"; "c_f6"] ["scoreA"] []) "c_f6" eq_refl).
    + apply (InjectFacts.augment_eq Examples.g0 (mkValueInfo "output0" FLOAT []) []). reflexivity.
    + reflexivity.
    + right. left. reflexivity.
Defined.

End InjectExtra.

(** ** The inspection tools on a patched model *)

Module AnalyzeExtra.

Import Py Onnx Inject Analyze.

Lemma map_removelast {A B} (f : A -> B) (l : list A) :
  map f (removelast l) = removelast (map f l).
Proof.
  induction l as [|a [|b l] IH]; [reflexivity | reflexivity |].
  change (f a :: map f (removelast (b :: l)) = f a :: removelast (map f (b :: l))).
  rewrite IH. reflexivity.
Qed.

Lemma filter_rename (names : list string) (a b : string) (ns : list NodeProto) :
  map op_type (List.filter (op_in names) (map (rename_outputs a b) ns)) =
  map op_type (List.filter (op_in names) ns).
Proof.
  induction ns as [|n ns IH]; [reflexivity|].
  cbn [map List.filter]. change (op_in names (rename_outputs a b n)) with (op_in names n).
  destruct (op_in names n); cbn [map]; rewrite IH; reflexivity.
Qed.

Lemma filter_rename_length (names : list string) (a b : string) (ns : list NodeProto) :
  length (List.filter (op_in names) (map (rename_outputs a b) ns)) =
  length (List.filter (op_in names) ns).
Proof.
  rewrite <- (length_map op_type), filter_rename, length_map. reflexivity.
Qed.

Lemma op_types_rename (a b : string) (ns : list NodeProto) :
  map op_type (map (rename_outputs a b) ns) = map op_type ns.
Proof. rewrite map_map. reflexivity. Qed.

(** What the rewrite appends, as [analyze_onnx_model] classifies it. *)
Lemma appended_nodes_classes (raw_new : string) :
  List.filter (op_in ["NonMaxSuppression"; "BatchedNMS"; "NMS"; "NonMaxSuppressionV4"])
    (appended_nodes raw_new) = [] /\
  List.filter (op_in ["Sigmoid"; "Softmax"]) (appended_nodes raw_new) = [] /\
  length (List.filter (op_in ["Mul"; "Add"; "Sub"; "Div"]) (appended_nodes raw_new)) = 1%nat /\
  map op_type (appended_nodes raw_new) =
    ["Transpose"; "Slice"; "Slice"; "Slice"; "Slice"; "Slice"; "Slice"; "Slice";
     "Mul"; "Max"; "Round"; "Concat"].
Proof. repeat split; reflexivity. Qed.

Lemma appended_initializers_no_anchor :
  List.filter (fun i => Str.contains "anchor" (Str.lower (t_name i))) appended_initializers = [].
Proof. vm_compute. reflexivity. Qed.

Lemma augment_inv (g g' : GraphProto) :
  augment g = Ok g' ->
  exists o outs,
    g_output g = o :: outs /\
    g' = mkGraph (map (rename_outputs (vi_name o) (vi_name o +:+ "_raw")) (node g)
                    ++ appended_nodes (vi_name o +:+ "_raw"))
                 (initializer g ++ appended_initializers)
                 (value_info g ++ [make_tensor_value_info (vi_name o +:+ "_raw") FLOAT
                                     [DimValue 1; DimValue 7; DimParam "unk"]])
                 (g_input g)
                 (removelast (o :: outs) ++
                    [make_tensor_value_info "post_dets" FLOAT
                       [DimValue 1; DimParam "unk"; DimValue 6]]).
Proof.
  intros H. destruct (g_output g) as [|o outs] eqn:Hout.
  { unfold augment in H. rewrite Hout in H. discriminate. }
  rewrite (InjectFacts.augment_eq g o outs Hout) in H. injection H as <-.
  exists o, outs. split; reflexivity.
Qed.

(** After the rewrite, section 1 of [analyze_onnx_model] prints the
    outputs it printed before without the last one, followed by
    [post_dets: shape=[1, 'dynamic', 6]]: the symbolic middle dimension is
    rendered as dynamic. *)
Theorem analyze_reports_post_dets (g g' : GraphProto) :
  augment g = Ok g' ->
  outputs (analyze_onnx_model g') =
    removelast (outputs (analyze_onnx_model g)) ++
    [("post_dets", [Known 1; Dynamic; Known 6])].
Proof.
  intros H. apply augment_inv in H as (o & outs & Hout & ->).
  unfold analyze_onnx_model. cbn [outputs g_output].
  rewrite Hout, map_app, map_removelast. reflexivity.
Qed.

Lemma analyze_reports_post_dets_witness :
  exists g',
    augment Examples.g0 = Ok g' /\
    outputs (analyze_onnx_model g') = [("post_dets", [Known 1; Dynamic; Known 6])].
Proof.
  eexists. split.
  - apply (InjectFacts.augment_eq _ (mkValueInfo "output0" FLOAT []) []). reflexivity.
  - apply (analyze_reports_post_dets Examples.g0).
    apply (InjectFacts.augment_eq _ (mkValueInfo "output0" FLOAT []) []). reflexivity.
Defined.

(** Sections 2 to 6 of [analyze_onnx_model] on a patched model: the
    NMS verdict, the activation set and the anchor verdict are those of the
    original model; the decode-op count grows by exactly one (the appended
    Mul); the operator set gains Transpose, Slice, Mul, Max, Round and
    Concat. *)
Theorem analyze_verdicts_after_augment (g g' : GraphProto) :
  augment g = Ok g' ->
  nms_inside (analyze_onnx_model g') = nms_inside (analyze_onnx_model g) /\
  activations (analyze_onnx_model g') = activations (analyze_onnx_model g) /\
  decode_ops (analyze_onnx_model g') = S (decode_ops (analyze_onnx_model g)) /\
  anchors_present (analyze_onnx_model g') = anchors_present (analyze_onnx_model g) /\
  ops (analyze_onnx_model g') =
    ops (analyze_onnx_model g) ∪
    list_to_set ["Transpose"; "Slice"; "Mul"; "Max"; "Round"; "Concat"].
Proof.
  intros H. apply augment_inv in H as (o & outs & _ & ->).
  destruct (appended_nodes_classes (vi_name o +:+ "_raw")) as (Hnms & Hact & Hdec & Hops).
  unfold analyze_onnx_model.
  cbn [nms_inside activations decode_ops anchors_present ops node initializer].
  rewrite !List.filter_app, Hnms, Hact, appended_initializers_no_anchor, !app_nil_r.
  rewrite (length_app _ (List.filter _ (appended_nodes _))), Hdec.
  rewrite !filter_rename, !filter_rename_length.
  rewrite map_app, op_types_rename, Hops, list_to_set_app_L.
  split; [reflexivity|]. split; [reflexivity|]. split; [lia|]. split; [reflexivity|].
  f_equal; set_solver.
Qed.

Lemma analyze_verdicts_after_augment_witness :
  exists g',
    augment Examples.g0 = Ok g' /\
    decode_ops (analyze_onnx_model g') = S (decode_ops (analyze_onnx_model Examples.g0)).
Proof.
  eexists. split.
  - apply (InjectFacts.augment_eq _ (mkValueInfo "output0" FLOAT []) []). reflexivity.
  - apply (analyze_verdicts_after_augment Examples.g0).
    apply (InjectFacts.augment_eq _ (mkValueInfo "output0" FLOAT []) []). reflexivity.
Defined.


(** The graph part of [inspect_model] on a patched model: the input
    lines and the Normalize verdict are those of the original model (the
    rewrite adds no Sub and no Div), and the output lines end with
    [post_dets], shape [[1, 'dynamic', 6]], element type FLOAT. *)
Theorem inspect_after_augment (g g' : GraphProto) :
  augment g = Ok g' ->
  in_lines (inspect_model g') = in_lines (inspect_model g) /\
  out_lines (inspect_model g') =
    removelast (out_lines (inspect_model g)) ++
    [("post_dets", [Known 1; Dynamic; Known 6], FLOAT)] /\
  normalize_inside (inspect_model g') = normalize_inside (inspect_model g).
Proof.
  intros H. apply augment_inv in H as (o & outs & Hout & ->).
  destruct (appended_nodes_classes (vi_name o +:+ "_raw")) as (_ & _ & _ & Hops).
  unfold inspect_model. cbn [in_lines out_lines normalize_inside node g_input g_output].
  split; [reflexivity|]. split.
  { rewrite Hout, map_app, map_removelast. reflexivity. }
  rewrite map_app, op_types_rename, Hops, list_to_set_app_L.
  set (A := list_to_set (map op_type (node g)) : gset string).
  set (N := list_to_set _ : gset string).
  assert (HN : forall x, x ∈ ({["Sub"; "Div"]} : gset string) -> x ∉ N).
  { intros x Hsd Hx. apply elem_of_list_to_set, list_elem_of_In in Hx.
    apply elem_of_union in Hsd as [Hs | Hd].
    - apply elem_of_singleton in Hs as ->. cbn in Hx. intuition discriminate.
    - apply elem_of_singleton in Hd as ->. cbn in Hx. intuition discriminate. }
  assert (E : ({["Sub"; "Div"]} : gset string) ∩ (A ∪ N) = {["Sub"; "Div"]} ∩ A).
  { apply set_eq. intros x. split; intros Hx.
    - apply elem_of_intersection in Hx as [Hs Hx].
      apply elem_of_union in Hx as [Ha | Hn]; [|destruct (HN x Hs Hn)].
      apply elem_of_intersection. split; assumption.
    - apply elem_of_intersection in Hx as [Hs Ha].
      apply elem_of_intersection. split; [assumption|].
      apply elem_of_union. left. assumption. }
  rewrite E. reflexivity.
Qed.

Lemma inspect_after_augment_witness :
  exists g',
    augment Examples.g0 = Ok g' /\
    out_lines (inspect_model g') = [("post_dets", [Known 1; Dynamic; Known 6], FLOAT)] /\
    normalize_inside (inspect_model g') = normalize_inside (inspect_model Examples.g0).
Proof.
  eexists. split.
  - apply (InjectFacts.augment_eq _ (mkValueInfo "output0" FLOAT []) []). reflexivity.
  - apply (inspect_after_augment Examples.g0).
    apply (InjectFacts.augment_eq _ (mkValueInfo "output0" FLOAT []) []). reflexivity.
Defined.

Lemma op_in_spec (names : list string) (n : NodeProto) :
  op_in names n = true <-> In (op_type n) names.
Proof.
  unfold op_in. rewrite existsb_exists. split.
  - intros (x & Hx & E). apply String.eqb_eq in E. rewrite E. exact Hx.
  - intros Hin. exists (op_type n). split; [exact Hin | apply String.eqb_refl].
Qed.

(** The two tools read the same nodes twice: whenever
    [inspect_model] reports that Normalize is inside the graph (a Sub or a
    Div is present), [analyze_onnx_model] counts at least one
    decode-related op, since it counts those same Sub and Div nodes. *)
Theorem normalize_counts_as_decode (g : GraphProto) :
  normalize_inside (inspect_model g) = true ->
  (0 < decode_ops (analyze_onnx_model g))%nat.
Proof.
  unfold inspect_model, analyze_onnx_model. cbn [normalize_inside decode_ops].
  intros H. apply negb_true_iff, bool_decide_eq_false in H.
  assert (Hex : exists x, x ∈ ({["Sub"; "Div"]} : gset string) /\
                          x ∈ (list_to_set (map op_type (node g)) : gset string)).
  { apply set_choose_L in H as (x & Hx). exists x. set_solver. }
  destruct Hex as (x & Hsd & Hx).
  apply elem_of_list_to_set, list_elem_of_In, in_map_iff in Hx as (n & <- & Hn).
  assert (Hop : op_in ["Mul"; "Add"; "Sub"; "Div"] n = true).
  { apply op_in_spec. apply elem_of_union in Hsd as [Hs | Hd].
    - apply elem_of_singleton in Hs as ->. cbn. auto.
    - apply elem_of_singleton in Hd as ->. cbn. auto. }
  assert (Hin : In n (List.filter (op_in ["Mul"; "Add"; "Sub"; "Div"]) (node g))).
  { apply List.filter_In. split; assumption. }
  destruct (List.filter (op_in ["Mul"; "Add"; "Sub"; "Div"]) (node g)); [destruct Hin|].
  cbn [length]. lia.
Qed.

Lemma normalize_counts_as_decode_witness :
  (0 < decode_ops (analyze_onnx_model
         (mkGraph [make_node "Div" ["images"; "scale"] ["output0"] []] [] []
                  (g_input Examples.g0) (g_output Examples.g0))))%nat.
Proof. apply normalize_counts_as_decode. vm_compute. reflexivity. Defined.

End AnalyzeExtra.

(** ** The shape argument of the export tools *)

Module ParseShapeExtra.

Import Stdlib.Strings.Ascii.
Import Str ParseShape.

(** *** Strings *)

Lemma append_cons (x : ascii) (a b : string) : String x a +:+ b = String x (a +:+ b).
Proof. reflexivity. Qed.

Lemma append_nil_l (a : string) : EmptyString +:+ a = a.
Proof. reflexivity. Qed.

Lemma append_assoc (a b c : string) : (a +:+ b) +:+ c = a +:+ (b +:+ c).
Proof.
  induction a as [|x a IH]; [reflexivity|].
  rewrite !append_cons. cbn [String.list_ascii_of_string map_chars app].
  rewrite ?append_cons, IH. reflexivity.
Qed.

Lemma append_nil_r (a : string) : a +:+ EmptyString = a.
Proof.
  induction a as [|x a IH]; [reflexivity|].
  rewrite !append_cons. cbn [String.list_ascii_of_string map_chars app].
  rewrite ?append_cons, IH. reflexivity.
Qed.

Lemma chars_app (a b : string) :
  String.list_ascii_of_string (a +:+ b) =
  String.list_ascii_of_string a ++ String.list_ascii_of_string b.
Proof.
  induction a as [|x a IH]; [reflexivity|].
  rewrite !append_cons. cbn [String.list_ascii_of_string map_chars app].
  rewrite ?append_cons, IH. reflexivity.
Qed.

Lemma map_chars_app (f : ascii -> ascii) (a b : string) :
  map_chars f (a +:+ b) = map_chars f a +:+ map_chars f b.
Proof.
  induction a as [|x a IH]; [reflexivity|].
  rewrite !append_cons. cbn [String.list_ascii_of_string map_chars app].
  rewrite ?append_cons, IH. reflexivity.
Qed.

Lemma map_chars_compose (f g : ascii -> ascii) (s : string) :
  map_chars f (map_chars g s) = map_chars (fun c => f (g c)) s.
Proof. induction s as [|x s IH]; [reflexivity|]. cbn [map_chars]. rewrite IH. reflexivity. Qed.

Lemma map_chars_ext (f g : ascii -> ascii) (s : string) :
  (forall c, f c = g c) -> map_chars f s = map_chars g s.
Proof.
  intros E. induction s as [|x s IH]; [reflexivity|].
  cbn [map_chars]. rewrite E, IH. reflexivity.
Qed.

Lemma map_chars_id (f : ascii -> ascii) (s : string) :
  Forall (fun c => f c = c) (String.list_ascii_of_string s) -> map_chars f s = s.
Proof.
  induction s as [|x s IH]; [reflexivity|].
  cbn [map_chars String.list_ascii_of_string]. intros H.
  apply Forall_cons_1 in H as [-> H]. rewrite (IH H). reflexivity.
Qed.

Ltac each_char c := destruct c as [[] [] [] [] [] [] [] []].

(** *** Normalisation and splitting *)

Lemma dims_of_norm (s : string) : dims_of s = split (map_chars norm_char s).
Proof.
  unfold dims_of, replace_char, lower. rewrite !map_chars_compose. reflexivity.
Qed.

Lemma norm_char_lower (c : ascii) : norm_char (lower_char c) = norm_char c.
Proof. each_char c; reflexivity. Qed.

Lemma norm_char_separators (c : ascii) :
  norm_char (if Ascii.eqb (if Ascii.eqb (if Ascii.eqb c "," then " " else c) "x"
                           then " " else (if Ascii.eqb c "," then " " else c)) "X"
             then " "
             else (if Ascii.eqb (if Ascii.eqb c "," then " " else c) "x"
                   then " " else (if Ascii.eqb c "," then " " else c)))%char
  = norm_char c.
Proof. each_char c; reflexivity. Qed.

Lemma split_from_sep (c : ascii) (a b : string) (cur : option string) :
  is_space c = true ->
  split_from cur (a +:+ String c b) = split_from cur a ++ split b.
Proof.
  intros Hc. revert cur. induction a as [|x a IH]; intros cur.
  - rewrite append_nil_l. cbn [split_from]. rewrite Hc. destruct cur; reflexivity.
  - rewrite append_cons. cbn [split_from]. destruct (is_space x).
    + destruct cur; rewrite IH; reflexivity.
    + apply IH.
Qed.

Lemma separator_space (sep : ascii) :
  dims_of (String sep EmptyString) = [] -> is_space (norm_char sep) = true.
Proof.
  rewrite dims_of_norm. cbn [map_chars]. unfold split. cbn [split_from].
  destruct (is_space (norm_char sep)); [reflexivity | discriminate].
Qed.

Lemma dims_of_sep (sep : ascii) (a b : string) :
  dims_of (String sep EmptyString) = [] ->
  dims_of (a +:+ String sep b) = dims_of a ++ dims_of b.
Proof.
  intros Hsep. rewrite !dims_of_norm, map_chars_app. cbn [map_chars].
  apply split_from_sep, separator_space, Hsep.
Qed.

(** The separators: white space, [x], [X] and the comma. *)
Lemma separator_chars (c : ascii) :
  dims_of (String c EmptyString) = [] <->
  is_space c = true \/ c = "x"%char \/ c = "X"%char \/ c = ","%char.
Proof.
  each_char c; split; intros H;
    try (vm_compute in H; discriminate H);
    try (first [ left; reflexivity | right; left; reflexivity
               | right; right; left; reflexivity | right; right; right; reflexivity ]);
    try reflexivity;
    destruct H as [H | [H | [H | H]]]; vm_compute in H; discriminate H.
Qed.

Lemma split_from_nil (s : string) (cur : option string) :
  split_from cur s = [] <->
  cur = None /\ Forall (fun c => is_space c = true) (String.list_ascii_of_string s).
Proof.
  revert cur. induction s as [|x s IH]; intros cur.
  - cbn. destruct cur; split; [discriminate | intros [? _]; discriminate
                              | intros _; split; [reflexivity | constructor] | reflexivity].
  - cbn [split_from String.list_ascii_of_string]. destruct (is_space x) eqn:Ex.
    + destruct cur.
      * split; [discriminate | intros [? _]; discriminate].
      * rewrite IH. split.
        -- intros [_ H]. split; [reflexivity | constructor; assumption].
        -- intros [_ H]. apply Forall_cons_1 in H as [_ H]. split; [reflexivity | exact H].
    + rewrite IH. split; [intros [? _]; discriminate|].
      intros [_ H]. apply Forall_cons_1 in H as [H _]. rewrite Ex in H. discriminate.
Qed.

Lemma split_from_word (t cur : string) :
  Forall (fun c => is_space c = false) (String.list_ascii_of_string t) ->
  split_from (Some cur) t = [cur +:+ t].
Proof.
  revert cur. induction t as [|x t IH]; intros cur H.
  - cbn. rewrite append_nil_r. reflexivity.
  - cbn [String.list_ascii_of_string] in H. apply Forall_cons_1 in H as [Hx H].
    cbn [split_from]. rewrite Hx, (IH _ H), append_assoc. reflexivity.
Qed.

Lemma split_word (c : ascii) (t : string) :
  Forall (fun c => is_space c = false) (String.list_ascii_of_string (String c t)) ->
  split (String c t) = [String c t].
Proof.
  cbn [String.list_ascii_of_string]. intros H. apply Forall_cons_1 in H as [Hc H].
  unfold split. cbn [split_from]. rewrite Hc, (split_from_word _ _ H). reflexivity.
Qed.

(** *** The loop *)

Lemma parse_dim_error (dim : string) (e : error) : parse_dim dim = inl e -> e <> NoDimension.
Proof.
  unfold parse_dim. destruct (_ || _); [discriminate|].
  destruct (py_int dim) as [value|]; [|intros [= <-]; discriminate].
  destruct (value <=? 0); [intros [= <-]; discriminate | discriminate].
Qed.

Lemma parse_dims_length (dims : list string) (vs : list Z) :
  parse_dims dims = inr vs -> length vs = length dims.
Proof.
  revert vs. induction dims as [|d dims IH]; intros vs; cbn [parse_dims].
  - intros [= <-]. reflexivity.
  - destruct (parse_dim d) as [e|v]; [discriminate|].
    destruct (parse_dims dims) as [e|vs'] eqn:Eds; [discriminate|].
    intros [= <-]. cbn [length]. rewrite (IH vs' eq_refl). reflexivity.
Qed.

Lemma parse_dims_error (dims : list string) (e : error) :
  parse_dims dims = inl e -> e <> NoDimension.
Proof.
  induction dims as [|d dims IH]; cbn [parse_dims]; [discriminate|].
  destruct (parse_dim d) as [e'|v] eqn:Ed.
  - intros [= <-]. exact (parse_dim_error d e' Ed).
  - destruct (parse_dims dims) as [e'|vs']; [|discriminate].
    intros [= <-]. apply IH. reflexivity.
Qed.

Lemma parse_dims_app (a b : list string) (va vb : list Z) :
  parse_dims a = inr va -> parse_dims b = inr vb -> parse_dims (a ++ b) = inr (va ++ vb).
Proof.
  revert va. induction a as [|d a IH]; intros va; cbn [parse_dims app].
  - intros [= <-]. trivial.
  - destruct (parse_dim d) as [e|v]; [discriminate|].
    destruct (parse_dims a) as [e|va'] eqn:Ea; [discriminate|].
    intros [= <-] Hb. rewrite (IH va' eq_refl Hb). reflexivity.
Qed.

Lemma parse_shape_inr (s : string) (vs : list Z) :
  parse_shape s = inr vs <-> parse_dims (dims_of s) = inr vs /\ vs <> [].
Proof.
  unfold parse_shape. destruct (parse_dims (dims_of s)) as [e|[|v vs']].
  - split; [discriminate | intros [? _]; discriminate].
  - split; [discriminate | intros [[= <-] H]; destruct (H eq_refl)].
  - split; [intros [= <-]; split; [reflexivity | discriminate] | intros [[= <-] _]; reflexivity].
Qed.

(** *** Decimal numerals *)

Lemma digit_char_spec (d : Z) :
  0 <= d < 10 -> is_digit (digit_char d) = true /\ digit_value (digit_char d) = d.
Proof.
  intros H.
  assert (C : d = 0 \/ d = 1 \/ d = 2 \/ d = 3 \/ d = 4 \/ d = 5 \/ d = 6 \/ d = 7 \/
              d = 8 \/ d = 9) by lia.
  repeat (destruct C as [-> | C]; [split; reflexivity|]). subst d. split; reflexivity.
Qed.

Lemma digit_facts (c : ascii) :
  is_digit c = true ->
  is_space c = false /\ norm_char c = c /\
  (forall r, parse_int (String c r) = parse_digits 0 false (String c r)) /\
  (forall r, String.eqb (String c r) "b" = false) /\
  (forall r, String.eqb (String c r) "batch" = false) /\
  int_space c = false.
Proof.
  each_char c; intros H; vm_compute in H; try discriminate H;
    (split; [reflexivity|]); (split; [reflexivity|]); (split; [reflexivity|]);
    (split; [reflexivity|]); split; reflexivity.
Qed.

Lemma digit_value_range (c : ascii) : is_digit c = true -> 0 <= digit_value c <= 9.
Proof.
  unfold is_digit, digit_value. intros H. apply andb_true_iff in H as [H1 H2].
  apply Nat.leb_le in H1, H2. lia.
Qed.

Lemma decimal_fuel_digits (fuel : nat) (n : Z) :
  0 <= n ->
  Forall (fun c => is_digit c = true) (String.list_ascii_of_string (decimal_fuel fuel n)).
Proof.
  revert n. induction fuel as [|fuel IH]; intros n Hn; cbn [decimal_fuel]; [constructor|].
  destruct (n <? 10) eqn:E.
  - apply Z.ltb_lt in E. cbn. constructor; [|constructor].
    apply digit_char_spec. lia.
  - rewrite chars_app. apply Forall_app. split.
    + apply IH. apply Z.div_pos; lia.
    + cbn. constructor; [|constructor]. apply digit_char_spec.
      apply Z.mod_pos_bound. lia.
Qed.

Lemma decimal_fuel_parse (fuel : nat) (n : Z) (b : bool) (rest : string) :
  0 <= n < Z.of_nat fuel ->
  parse_digits 0 b (decimal_fuel fuel n +:+ rest) = parse_digits n true rest.
Proof.
  revert n b rest. induction fuel as [|fuel IH]; intros n b rest Hn; [lia|].
  cbn [decimal_fuel]. destruct (n <? 10) eqn:E.
  - apply Z.ltb_lt in E. rewrite append_cons, append_nil_l. cbn [parse_digits].
    destruct (digit_char_spec n) as [-> ->]; [lia|]. reflexivity.
  - apply Z.ltb_ge in E. rewrite append_assoc, append_cons, append_nil_l.
    assert (Hq : 0 <= n / 10 < Z.of_nat fuel).
    { split; [apply Z.div_pos; lia|].
      assert (n / 10 < n) by (apply Z.div_lt; lia). lia. }
    rewrite (IH _ _ _ Hq). cbn [parse_digits].
    destruct (digit_char_spec (n mod 10)) as [-> ->]; [apply Z.mod_pos_bound; lia|].
    f_equal. pose proof (Z.div_mod n 10). lia.
Qed.

Lemma decimal_digits (n : Z) :
  0 <= n -> Forall (fun c => is_digit c = true) (String.list_ascii_of_string (decimal n)).
Proof. intros Hn. apply decimal_fuel_digits, Hn. Qed.

Lemma decimal_head (n : Z) :
  0 <= n -> exists c r, decimal n = String c r /\ is_digit c = true.
Proof.
  intros Hn. pose proof (decimal_digits n Hn) as Hd.
  destruct (decimal n) as [|c r] eqn:E.
  - exfalso. unfold decimal in E. cbn [decimal_fuel] in E.
    destruct (n <? 10); [discriminate|].
    destruct (decimal_fuel (Z.to_nat n) (n / 10)); discriminate.
  - exists c, r. split; [reflexivity|]. cbn in Hd. apply Forall_cons_1 in Hd as [Hc _]. exact Hc.
Qed.

(** The digit count of a numeral. *)
Lemma length_append (a b : string) :
  String.length (a +:+ b) = (String.length a + String.length b)%nat.
Proof.
  induction a as [|x a IH]; [reflexivity|].
  rewrite append_cons. cbn [String.length]. rewrite IH. reflexivity.
Qed.

Lemma decimal_fuel_length (fuel : nat) (n : Z) (k : nat) :
  0 <= n < 10 ^ Z.of_nat k -> (1 <= k)%nat ->
  (String.length (decimal_fuel fuel n) <= k)%nat.
Proof.
  revert n k. induction fuel as [|fuel IH]; intros n k Hn Hk; cbn [decimal_fuel].
  - cbn. lia.
  - destruct (n <? 10) eqn:E; [cbn; lia|]. apply Z.ltb_ge in E.
    rewrite length_append. cbn [String.length].
    destruct k as [|k]; [lia|].
    rewrite Nat2Z.inj_succ, Z.pow_succ_r in Hn by lia.
    destruct k as [|k]; [cbn in Hn; lia|].
    assert (Hq : 0 <= n / 10 < 10 ^ Z.of_nat (S k)).
    { split; [apply Z.div_pos; lia|]. apply Z.div_lt_upper_bound; lia. }
    specialize (IH (n / 10) (S k) Hq ltac:(lia)). lia.
Qed.

Lemma count_digits_all (s : string) :
  Forall (fun c => is_digit c = true) (String.list_ascii_of_string s) ->
  count_digits s = String.length s.
Proof.
  induction s as [|x s IH]; [reflexivity|].
  cbn [String.list_ascii_of_string count_digits String.length]. intros H.
  apply Forall_cons_1 in H as [-> H]. rewrite (IH H). reflexivity.
Qed.

Lemma lstrip_digits (c : ascii) (r : string) :
  is_digit c = true -> lstrip (String c r) = String c r.
Proof.
  intros Hc. cbn [lstrip]. destruct (digit_facts c Hc) as (_ & _ & _ & _ & _ & ->). reflexivity.
Qed.

Lemma rstrip_digits (s : string) :
  Forall (fun c => is_digit c = true) (String.list_ascii_of_string s) -> rstrip s = s.
Proof.
  induction s as [|x s IH]; [reflexivity|].
  cbn [String.list_ascii_of_string rstrip]. intros H.
  apply Forall_cons_1 in H as [Hx H]. rewrite (IH H).
  destruct s; [|reflexivity].
  destruct (digit_facts x Hx) as (_ & _ & _ & _ & _ & ->). reflexivity.
Qed.

Lemma py_int_decimal (n : Z) :
  0 <= n < 10 ^ Z.of_nat max_str_digits -> py_int (decimal n) = Some n.
Proof.
  intros [Hn Hlt]. destruct (decimal_head n Hn) as (c & r & E & Hc).
  pose proof (decimal_digits n Hn) as Hd.
  unfold py_int. cbn zeta.
  assert (Hstrip : rstrip (lstrip (decimal n)) = decimal n).
  { rewrite E, (lstrip_digits c r Hc), <- E. apply rstrip_digits, Hd. }
  rewrite Hstrip, (count_digits_all _ Hd).
  assert (Hlen : (String.length (decimal n) <= max_str_digits)%nat).
  { apply decimal_fuel_length; [split; assumption | unfold max_str_digits; lia]. }
  destruct (Nat.ltb_spec max_str_digits (String.length (decimal n))) as [Hgt|_]; [lia|].
  rewrite E. destruct (digit_facts c Hc) as (_ & _ & -> & _). rewrite <- E.
  rewrite <- (append_nil_r (decimal n)). unfold decimal.
  rewrite decimal_fuel_parse; [reflexivity | lia].
Qed.

Lemma parse_dim_decimal (n : Z) :
  0 < n < 10 ^ Z.of_nat max_str_digits -> parse_dim (decimal n) = inr n.
Proof.
  intros Hn. unfold parse_dim. rewrite py_int_decimal by lia.
  destruct (decimal_head n) as (c & r & E & Hc); [lia|].
  destruct (digit_facts c Hc) as (_ & _ & _ & Hb & Hbatch & _).
  rewrite E, Hb, Hbatch. cbn [orb].
  destruct (n <=? 0) eqn:E0; [apply Z.leb_le in E0; lia | reflexivity].
Qed.

Lemma dims_of_decimal (n : Z) : 0 <= n -> dims_of (decimal n) = [decimal n].
Proof.
  intros Hn. rewrite dims_of_norm.
  pose proof (decimal_digits n Hn) as Hd.
  rewrite map_chars_id.
  - destruct (decimal_head n Hn) as (c & r & E & _). rewrite E in *.
    apply split_word. eapply Forall_impl; [exact Hd|].
    intros x Hx. apply (digit_facts x Hx).
  - eapply Forall_impl; [exact Hd|]. intros x Hx. apply (digit_facts x Hx).
Qed.

(** One way to write a shape down: every dimension in decimal, followed by [x]. *)
Lemma dims_of_rendering (dims : list Z) :
  Forall (fun d => 0 < d < 10 ^ Z.of_nat max_str_digits) dims ->
  parse_dims (dims_of (fold_right (fun d acc => decimal d +:+ String "x" acc)
                         EmptyString dims)) = inr dims.
Proof.
  induction 1 as [|d dims Hd _ IH]; [reflexivity|].
  cbn [fold_right]. rewrite dims_of_sep by reflexivity.
  rewrite dims_of_decimal by lia.
  change (parse_dims (decimal d :: dims_of (fold_right
            (fun d acc => decimal d +:+ String "x" acc) EmptyString dims)) = inr (d :: dims)).
  cbn [parse_dims]. rewrite (parse_dim_decimal d Hd), IH. reflexivity.
Qed.

(** What [int] can return: a string of [n] digits stays below [10^n]. *)
Lemma parse_digits_bound (s : string) (acc : Z) (b : bool) (v : Z) :
  0 <= acc -> parse_digits acc b s = Some v ->
  acc * 10 ^ Z.of_nat (count_digits s) <= v < (acc + 1) * 10 ^ Z.of_nat (count_digits s).
Proof.
  revert acc b. induction s as [|c s IH]; intros acc b Hacc; cbn [parse_digits count_digits].
  - destruct b; [|discriminate]. intros [= <-]. cbn. lia.
  - destruct (is_digit c) eqn:Ec.
    + intros H. pose proof (digit_value_range c Ec) as Hd.
      apply IH in H; [|lia].
      change (1 + count_digits s)%nat with (S (count_digits s)).
      rewrite Nat2Z.inj_succ, Z.pow_succ_r by lia.
      assert (Hp : 0 < 10 ^ Z.of_nat (count_digits s)) by (apply Z.pow_pos_nonneg; lia).
      nia.
    + destruct (Ascii.eqb c "_" && b); [|discriminate].
      intros H. apply IH in H; [|lia]. exact H.
Qed.

Lemma count_digits_lstrip (s : string) : (count_digits (lstrip s) <= count_digits s)%nat.
Proof.
  induction s as [|c s IH]; [reflexivity|]. cbn [lstrip count_digits].
  destruct (int_space c); [lia | cbn [count_digits]; lia].
Qed.

Lemma parse_int_bound (s : string) (v : Z) :
  parse_int s = Some v -> v < 10 ^ Z.of_nat (count_digits s).
Proof.
  assert (Hplain : forall r, parse_digits 0 false r = Some v ->
                             v < 10 ^ Z.of_nat (count_digits r)).
  { intros r H. apply parse_digits_bound in H; lia. }
  assert (Hmono : forall c r, 10 ^ Z.of_nat (count_digits r)
                              <= 10 ^ Z.of_nat (count_digits (String c r))).
  { intros c r. apply Z.pow_le_mono_r; [lia|]. cbn [count_digits]. lia. }
  destruct s as [|c r]; [intros H; apply (Hplain EmptyString H)|].
  assert (Hcases : parse_int (String c r) = parse_digits 0 false r
                   \/ parse_int (String c r) = Z.opp <$> parse_digits 0 false r
                   \/ parse_int (String c r) = parse_digits 0 false (String c r)).
  { each_char c; auto. }
  destruct Hcases as [-> | [-> | ->]].
  - intros H. specialize (Hplain r H). specialize (Hmono c r). lia.
  - destruct (parse_digits 0 false r) as [w|] eqn:Ew; [|discriminate].
    intros [= <-]. apply parse_digits_bound in Ew; [|lia].
    assert (0 < 10 ^ Z.of_nat (count_digits (String c r))) by (apply Z.pow_pos_nonneg; lia).
    assert (0 <= 10 ^ Z.of_nat (count_digits r)) by (apply Z.pow_nonneg; lia).
    lia.
  - apply Hplain.
Qed.

Lemma py_int_bound (s : string) (v : Z) :
  py_int s = Some v -> v < 10 ^ Z.of_nat max_str_digits.
Proof.
  unfold py_int. cbn zeta.
  destruct (Nat.ltb_spec max_str_digits (count_digits (rstrip (lstrip s)))) as [|Hle];
    [discriminate|].
  intros H. apply parse_int_bound in H.
  assert (10 ^ Z.of_nat (count_digits (rstrip (lstrip s))) <= 10 ^ Z.of_nat max_str_digits)
    by (apply Z.pow_le_mono_r; lia).
  lia.
Qed.

Lemma parse_dim_range (dim : string) (v : Z) :
  parse_dim dim = inr v -> 0 < v < 10 ^ Z.of_nat max_str_digits.
Proof.
  unfold parse_dim. destruct (_ || _).
  - intros [= <-]. split; [lia|]. apply Z.pow_gt_1; [lia|]. unfold max_str_digits. lia.
  - destruct (py_int dim) as [value|] eqn:Ei; [|discriminate].
    destruct (value <=? 0) eqn:E; [discriminate|]. intros [= <-].
    apply Z.leb_gt in E. split; [lia|]. exact (py_int_bound dim value Ei).
Qed.

Lemma parse_dims_range (dims : list string) (vs : list Z) :
  parse_dims dims = inr vs -> Forall (fun v => 0 < v < 10 ^ Z.of_nat max_str_digits) vs.
Proof.
  revert vs. induction dims as [|d dims IH]; intros vs; cbn [parse_dims].
  - intros [= <-]. constructor.
  - destruct (parse_dim d) as [e|v] eqn:Ed; [discriminate|].
    destruct (parse_dims dims) as [e|vs'] eqn:Eds; [discriminate|].
    intros [= <-]. constructor; [exact (parse_dim_range d v Ed) | apply IH; reflexivity].
Qed.

(** *** Properties of [parse_shape] *)

(** The shapes [parse_shape] returns are exactly the non-empty tuples of
    positive integers that [int] can read, those below [10^4300]: what it
    returns is never empty and never holds a zero or a negative dimension,
    and every such tuple is returned for some argument. *)
Theorem parse_shape_range (dims : list Z) :
  (exists shape, parse_shape shape = inr dims) <->
  dims <> [] /\ Forall (fun d => 0 < d < 10 ^ Z.of_nat max_str_digits) dims.
Proof.
  split.
  - intros (shape & H). apply parse_shape_inr in H as [H Hne].
    split; [exact Hne|]. exact (parse_dims_range _ _ H).
  - intros [Hne Hpos].
    exists (fold_right (fun d acc => decimal d +:+ String "x" acc) EmptyString dims).
    apply parse_shape_inr. split; [|exact Hne]. apply dims_of_rendering, Hpos.
Qed.

(** Separators and letter case do not matter: writing every comma,
    [x] and [X] of the argument as a space, or lower-casing the argument,
    changes neither the shape returned nor the error raised. *)
Theorem parse_shape_separators (shape : string) :
  parse_shape (replace_char "X" " " (replace_char "x" " " (replace_char "," " " shape)))
    = parse_shape shape /\
  parse_shape (lower shape) = parse_shape shape.
Proof.
  unfold parse_shape. split.
  - rewrite !dims_of_norm. unfold replace_char. rewrite !map_chars_compose.
    rewrite (map_chars_ext _ norm_char); [reflexivity|].
    intros c. apply norm_char_separators.
  - rewrite !dims_of_norm. unfold lower. rewrite map_chars_compose.
    rewrite (map_chars_ext _ norm_char); [reflexivity|].
    intros c. apply norm_char_lower.
Qed.

(** Shapes concatenate: if two arguments parse, then joining them
    with a separator (white space, [x], [X] or a comma) parses to the two
    shapes one after the other. *)
Theorem parse_shape_app (s1 s2 : string) (sep : ascii) (d1 d2 : list Z) :
  is_space sep = true \/ sep = "x"%char \/ sep = "X"%char \/ sep = ","%char ->
  parse_shape s1 = inr d1 ->
  parse_shape s2 = inr d2 ->
  parse_shape (s1 +:+ String sep s2) = inr (d1 ++ d2).
Proof.
  intros Hsep H1 H2. apply separator_chars in Hsep.
  apply parse_shape_inr in H1 as [H1 Hne], H2 as [H2 _].
  apply parse_shape_inr. split.
  - rewrite (dims_of_sep sep s1 s2 Hsep). apply parse_dims_app; assumption.
  - destruct d1; [destruct (Hne eq_refl) | discriminate].
Qed.

Lemma parse_shape_app_witness :
  parse_shape ("1x3" +:+ String "," "640 640") = inr ([1; 3] ++ [640; 640]).
Proof.
  apply parse_shape_app; [right; right; right; reflexivity | reflexivity | reflexivity].
Defined.

(** The error "At least one dimension must be provided" is raised
    exactly for the arguments made of separators only: every character is
    white space, [x], [X] or a comma (the empty argument included). *)
Theorem parse_shape_no_dimension (shape : string) :
  parse_shape shape = inl NoDimension <->
  Forall (fun c => is_space c = true \/ c = "x"%char \/ c = "X"%char \/ c = ","%char)
         (String.list_ascii_of_string shape).
Proof.
  assert (Hsep : forall c, dims_of (String c EmptyString) = [] <-> is_space (norm_char c) = true).
  { intros c. split; [apply separator_space|].
    intros Hc. rewrite dims_of_norm. cbn [map_chars]. unfold split. cbn [split_from].
    rewrite Hc. reflexivity. }
  assert (Hnil : dims_of shape = [] <->
                 Forall (fun c => is_space c = true \/ c = "x"%char \/ c = "X"%char \/
                                  c = ","%char)
                        (String.list_ascii_of_string shape)).
  { rewrite dims_of_norm. unfold split. rewrite split_from_nil.
    split.
    - intros [_ H]. induction shape as [|x s IH]; [constructor|].
      cbn [map_chars String.list_ascii_of_string] in H. apply Forall_cons_1 in H as [Hx H].
      cbn [String.list_ascii_of_string].
      constructor; [apply separator_chars, Hsep, Hx | apply IH, H].
    - intros H. split; [reflexivity|]. induction shape as [|x s IH]; [constructor|].
      cbn [String.list_ascii_of_string] in H. apply Forall_cons_1 in H as [Hx H].
      cbn [map_chars String.list_ascii_of_string].
      constructor; [apply Hsep, separator_chars, Hx | apply IH, H]. }
  rewrite <- Hnil. unfold parse_shape.
  destruct (parse_dims (dims_of shape)) as [e|[|v vs]] eqn:E.
  - split.
    + intros [= ->]. destruct (parse_dims_error _ _ E eq_refl).
    + intros H0. rewrite H0 in E. discriminate.
  - split; [|reflexivity]. intros _.
    destruct (dims_of shape); [reflexivity|].
    apply parse_dims_length in E. discriminate.
  - split; [discriminate|]. intros H0. rewrite H0 in E. discriminate.
Qed.

End ParseShapeExtra.
